(** * Firestore datasource: query router, SQL-subset parser, manual filter
      evaluator and grouping engine of [pkg/plugin/datasource.go].

    The Go code is embedded shallowly.  Query texts are byte strings
    ([string] of [ascii]); the functions of Go's [strings] and [strconv]
    packages that the plugin calls are modelled on bytes, with letters and
    white space restricted to their ASCII range.  Slice expressions
    [s[lo:hi]] are checked: an out-of-range slice is a run-time panic, which
    the model returns as [None] (and [Fault] at the top of the parser). *)

From Stdlib Require Import ZArith List String Ascii Bool Lia Floats
  DecimalString Permutation.
Import ListNotations.

Open Scope string_scope.
Open Scope Z_scope.

(** ** Go's [strings] package, on byte strings *)

Module Strings.

Definition len (s : string) : Z := Z.of_nat (String.length s).

Fixpoint HasPrefix (s prefix : string) {struct prefix} : bool :=
  match prefix with
  | EmptyString => true
  | String p ps =>
      match s with
      | EmptyString => false
      | String c cs => Ascii.eqb c p && HasPrefix cs ps
      end
  end.

(** [strings.Index]: the first position where [substr] occurs, or -1. *)
Fixpoint Index (s substr : string) : Z :=
  if HasPrefix s substr then 0
  else match s with
       | EmptyString => -1
       | String _ rest =>
           let i := Index rest substr in
           if i <? 0 then -1 else i + 1
       end.

Definition Contains (s substr : string) : bool := 0 <=? Index s substr.

(** [s[lo:hi]]; [None] is the slice-bounds panic. *)
Definition slice (s : string) (lo hi : Z) : option string :=
  if (0 <=? lo) && (lo <=? hi) && (hi <=? len s)
  then Some (substring (Z.to_nat lo) (Z.to_nat (hi - lo)) s)
  else None.

(** [s[lo:]] *)
Definition sliceFrom (s : string) (lo : Z) : option string :=
  slice s lo (len s).

Definition isUpper (c : ascii) : bool :=
  let n := N_of_ascii c in (65 <=? n)%N && (n <=? 90)%N.

Definition isLower (c : ascii) : bool :=
  let n := N_of_ascii c in (97 <=? n)%N && (n <=? 122)%N.

Definition toLowerByte (c : ascii) : ascii :=
  if isUpper c then ascii_of_N (N_of_ascii c + 32) else c.

Definition toUpperByte (c : ascii) : ascii :=
  if isLower c then ascii_of_N (N_of_ascii c - 32) else c.

Fixpoint mapBytes (f : ascii -> ascii) (s : string) : string :=
  match s with
  | EmptyString => EmptyString
  | String c r => String (f c) (mapBytes f r)
  end.

(** [strings.ToLower] and [strings.ToUpper] on text of ASCII bytes, where Go
    maps the bytes of the letters and keeps the length.  On other text Go
    maps runes (and can change the length of the text); that is outside
    this model, see [isASCII]. *)
Definition ToLower : string -> string := mapBytes toLowerByte.
Definition ToUpper : string -> string := mapBytes toUpperByte.



(** White space as [unicode.IsSpace] has it below 128:
    tab, line feed, vertical tab, form feed, carriage return, space.
    (Above 128 Go also trims and splits at U+0085, U+00A0 and the other
    white space of Unicode, which take two or three bytes each.) *)
Definition isSpace (c : ascii) : bool :=
  let n := N_of_ascii c in ((9 <=? n)%N && (n <=? 13)%N) || (n =? 32)%N.

Fixpoint TrimLeftFunc (f : ascii -> bool) (s : string) : string :=
  match s with
  | EmptyString => EmptyString
  | String c r => if f c then TrimLeftFunc f r else s
  end.

Fixpoint TrimRightFunc (f : ascii -> bool) (s : string) : string :=
  match s with
  | EmptyString => EmptyString
  | String c r =>
      match TrimRightFunc f r with
      | EmptyString => if f c then EmptyString else String c EmptyString
      | r' => String c r'
      end
  end.

Definition TrimFunc (f : ascii -> bool) (s : string) : string :=
  TrimRightFunc f (TrimLeftFunc f s).

Definition TrimSpace : string -> string := TrimFunc isSpace.

Fixpoint inCutset (cutset : string) (c : ascii) : bool :=
  match cutset with
  | EmptyString => false
  | String d r => Ascii.eqb c d || inCutset r c
  end.

(** [strings.Trim(s, cutset)] *)
Definition Trim (s cutset : string) : string := TrimFunc (inCutset cutset) s.

(** Splitting around a non-empty separator.  [limit] is the number of
    separators that may still be consumed ([None]: no bound); [skip]
    counts the bytes of a separator just matched that are still to be
    passed over. *)
Fixpoint splitFrom (sep : string) (limit : option nat) (skip : nat)
         (s : string) : list string :=
  match s with
  | EmptyString => [EmptyString]
  | String c r =>
      match skip with
      | S k => splitFrom sep limit k r
      | O =>
          let more := match limit with Some O => false | _ => true end in
          if more && HasPrefix s sep
          then EmptyString ::
               splitFrom sep (option_map Nat.pred limit)
                         (Nat.pred (String.length sep)) r
          else match splitFrom sep limit O r with
               | p :: ps => String c p :: ps
               | [] => [String c EmptyString]
               end
      end
  end.

(** [strings.Split(s, sep)], [sep] non-empty. *)
Definition Split (s sep : string) : list string := splitFrom sep None O s.

(** [strings.SplitN(s, sep, n)], [sep] non-empty. *)
Definition SplitN (s sep : string) (n : Z) : list string :=
  if n =? 0 then []
  else if n <? 0 then Split s sep
  else splitFrom sep (Some (Z.to_nat (n - 1))) O s.

(** [fieldsFrom s] is the word that starts at the head of [s] (empty when
    [s] starts with white space) and the fields that follow it. *)
Fixpoint fieldsFrom (s : string) : string * list string :=
  match s with
  | EmptyString => (EmptyString, [])
  | String c r =>
      let '(w, fs) := fieldsFrom r in
      if isSpace c
      then (EmptyString, match w with EmptyString => fs | _ => w :: fs end)
      else (String c w, fs)
  end.

(** [strings.Fields] *)
Definition Fields (s : string) : list string :=
  let '(w, fs) := fieldsFrom s in
  match w with EmptyString => fs | _ => w :: fs end.

(** [strings.Join] *)
Fixpoint Join (elems : list string) (sep : string) : string :=
  match elems with
  | [] => EmptyString
  | [e] => e
  | e :: rest => e ++ sep ++ Join rest sep
  end.

End Strings.

Import Strings.

(** ** [strconv.Atoi] on a 64-bit platform *)

Module Strconv.

Definition isDigit (c : ascii) : bool :=
  let n := N_of_ascii c in (48 <=? n)%N && (n <=? 57)%N.

Fixpoint digitsValue (acc : Z) (s : string) : option Z :=
  match s with
  | EmptyString => Some acc
  | String c r =>
      if isDigit c
      then digitsValue (acc * 10 + (Z.of_N (N_of_ascii c) - 48)) r
      else None
  end.

Definition minInt : Z := - 2 ^ 63.
Definition maxInt : Z := 2 ^ 63 - 1.

(** [None] stands for the error result (syntax or range). *)
Definition Atoi (s : string) : option Z :=
  match s with
  | EmptyString => None
  | String c r =>
      let neg := Ascii.eqb c "-"%char in
      let body := if neg || Ascii.eqb c "+"%char then r else s in
      match body with
      | EmptyString => None
      | _ =>
          match digitsValue 0 body with
          | None => None
          | Some n =>
              let v := if neg then - n else n in
              if (minInt <=? v) && (v <=? maxInt) then Some v else None
          end
      end
  end.

End Strconv.

Import Strconv.

(** ** Dynamically typed values ([interface{}]) and documents *)

(** The dynamic types the plugin distinguishes.  [VOpaque] stands for any
    other type a document can hold (timestamps, byte slices, references,
    geo points): such a value is never nil, is not a mapping, does not
    convert to a float, and is seen by the code below only through its
    [%v] rendering, which the constructor carries. *)
#[warnings="-register-all"]
Inductive Any : Type :=
| VNil
| VBool (b : bool)
| VInt (n : Z)
| VInt32 (n : Z)
| VInt64 (n : Z)
| VFloat32 (f : float)
| VFloat64 (f : float)
| VString (s : string)
| VMap (m : list (string * Any))
| VSlice (l : list Any)
| VOpaque (rendering : string).

(** [map[string]interface{}]: a document's data, as key/value entries with
    pairwise distinct keys. *)
Definition Doc : Type := list (string * Any).

Fixpoint lookup (doc : Doc) (key : string) : option Any :=
  match doc with
  | [] => None
  | (k, v) :: rest => if String.eqb k key then Some v else lookup rest key
  end.

(** [doc[key]]: the zero value nil when the key is absent (also on a nil
    map, which is the empty list here). *)
Definition index (doc : Doc) (key : string) : Any :=
  match lookup doc key with
  | Some v => v
  | None => VNil
  end.

Definition isNil (v : Any) : bool :=
  match v with VNil => true | _ => false end.

(** A [*firestore.DocumentSnapshot]: the nil pointer, or a snapshot with
    the mapping its [Data()] returns ([None]: nil). *)
Inductive Snapshot : Type :=
| NilSnapshot
| Snap (data : option Doc).

(** ** Query plan *)

Record AggregateInfo : Type := mkAggregateInfo {
  aggFunction : string;   (* COUNT, SUM, AVG, MIN, MAX *)
  aggField : string;      (* the field aggregated on, "*" for COUNT( * ) *)
  aggAlias : string
}.

Record FilterInfo : Type := mkFilterInfo {
  filterField : string;
  filterOperator : string;
  filterValue : Any
}.

Record QueryInfo : Type := mkQueryInfo {
  Collection : string;
  Fields : list string;
  TimeField : string;
  AdditionalFilters : list FilterInfo;
  OrderField : string;
  OrderDirection : string;
  Limit : Z;
  GroupByFields : list string;
  AggregateFields : list AggregateInfo
}.

Definition setCollection (c : string) (i : QueryInfo) : QueryInfo :=
  mkQueryInfo c (Fields i) (TimeField i) (AdditionalFilters i) (OrderField i)
              (OrderDirection i) (Limit i) (GroupByFields i) (AggregateFields i).

Definition setSelect (fs : list string) (aggs : list AggregateInfo)
           (i : QueryInfo) : QueryInfo :=
  mkQueryInfo (Collection i) fs (TimeField i) (AdditionalFilters i)
              (OrderField i) (OrderDirection i) (Limit i) (GroupByFields i) aggs.

Definition setTimeField (t : string) (i : QueryInfo) : QueryInfo :=
  mkQueryInfo (Collection i) (Fields i) t (AdditionalFilters i) (OrderField i)
              (OrderDirection i) (Limit i) (GroupByFields i) (AggregateFields i).

Definition addFilter (f : FilterInfo) (i : QueryInfo) : QueryInfo :=
  mkQueryInfo (Collection i) (Fields i) (TimeField i)
              (AdditionalFilters i ++ [f]) (OrderField i) (OrderDirection i)
              (Limit i) (GroupByFields i) (AggregateFields i).

Definition setOrder (f d : string) (i : QueryInfo) : QueryInfo :=
  mkQueryInfo (Collection i) (Fields i) (TimeField i) (AdditionalFilters i)
              f d (Limit i) (GroupByFields i) (AggregateFields i).

Definition setLimit (n : Z) (i : QueryInfo) : QueryInfo :=
  mkQueryInfo (Collection i) (Fields i) (TimeField i) (AdditionalFilters i)
              (OrderField i) (OrderDirection i) n (GroupByFields i)
              (AggregateFields i).

Definition addGroupBy (g : string) (i : QueryInfo) : QueryInfo :=
  mkQueryInfo (Collection i) (Fields i) (TimeField i) (AdditionalFilters i)
              (OrderField i) (OrderDirection i) (Limit i)
              (GroupByFields i ++ [g]) (AggregateFields i).

(** The plan [parseSQLQueryWithVariables] starts from. *)
Definition emptyQueryInfo : QueryInfo :=
  mkQueryInfo "" [] "" [] "" "" 0 [] [].

(** ** Results of fallible code *)

(** What a call of the parser comes to: a value, the [error] it returns, or
    a run-time panic (recovered by [query] into an internal error). *)
Inductive outcome (A : Type) : Type :=
| Return (a : A)
| Fail (msg : string)
| Fault.

Arguments Return {A} a.
Arguments Fail {A} msg.
Arguments Fault {A}.

(** Code that returns no [error] but may panic runs in [option]. *)
Definition bind {A B : Type} (m : option A) (k : A -> option B) : option B :=
  match m with
  | Some a => k a
  | None => None
  end.

Notation "x <- m ;; k" := (bind m (fun x => k))
  (at level 61, m at next level, right associativity).

Definition orFault {A : Type} (m : option A) : outcome A :=
  match m with
  | Some a => Return a
  | None => Fault
  end.

(** ** SQL-subset parser *)

Definition LF : string := String "010"%char EmptyString.
Definition CR : string := String "013"%char EmptyString.
Definition TAB : string := String "009"%char EmptyString.
Definition quotes : string := String "'"%char (String "034"%char EmptyString).
Definition backtick : string := "`".

(** The first pattern of the list, in list order, that occurs in the text
    decides the index (the [for _, pattern := range patterns] loops). *)
Fixpoint firstPatternIndex (text : string) (patterns : list string) : Z :=
  match patterns with
  | [] => -1
  | p :: rest =>
      let idx := Index text p in
      if negb (idx =? -1) then idx else firstPatternIndex text rest
  end.

Definition findGroupByIndex (queryLower : string) : Z :=
  firstPatternIndex queryLower
    [ " group by ";
      LF ++ "group by ";
      LF ++ "  group by ";
      LF ++ TAB ++ "group by ";
      CR ++ LF ++ "group by ";
      CR ++ LF ++ "  group by " ].

Definition findLimitIndex (queryLower : string) : Z :=
  firstPatternIndex queryLower
    [ " limit ";
      LF ++ "limit ";
      LF ++ "  limit ";
      LF ++ TAB ++ "limit ";
      CR ++ LF ++ "limit ";
      CR ++ LF ++ "  limit " ].

Definition cleanBackticks (field : string) : string :=
  Trim (TrimSpace field) backtick.

Definition isAggregateExpr (upperField : string) : bool :=
  Contains upperField "COUNT(" || Contains upperField "SUM(" ||
  Contains upperField "AVG(" || Contains upperField "MIN(" ||
  Contains upperField "MAX(".

Definition aggregateFuncName (upperField : string) : string :=
  if HasPrefix upperField "COUNT(" then "COUNT"
  else if HasPrefix upperField "SUM(" then "SUM"
  else if HasPrefix upperField "AVG(" then "AVG"
  else if HasPrefix upperField "MIN(" then "MIN"
  else if HasPrefix upperField "MAX(" then "MAX"
  else "".

(** One round of the loop of [parseAggregateFields]; [fs] and [aggs] are
    [info.Fields] and [info.AggregateFields]. *)
Definition parseSelectField (field0 : string)
           (acc : list string * list AggregateInfo)
  : option (list string * list AggregateInfo) :=
  let '(fs, aggs) := acc in
  let field := TrimSpace field0 in
  if String.eqb field "*" then Some ((fs ++ ["*"])%list, aggs)
  else
    let upperField := ToUpper field in
    if isAggregateExpr upperField then
      let funcName := aggregateFuncName upperField in
      let start := Index field "(" in
      let end_ := Index field ")" in
      fieldName <-
        (if negb (start =? -1) && negb (end_ =? -1) && (start <? end_)
         then option_map TrimSpace (slice field (start + 1) end_)
         else Some "") ;;
      let upperFieldForParsing := ToUpper field in
      alias <-
        (if Contains upperFieldForParsing " AS " then
           let asPos := Index upperFieldForParsing " AS " in
           if negb (asPos =? -1)
           then option_map TrimSpace (sliceFrom field (asPos + 4))
           else Some ""
         else Some field) ;;
      Some (fs, (aggs ++ [mkAggregateInfo funcName fieldName alias])%list)
    else Some ((fs ++ [cleanBackticks field])%list, aggs).

Fixpoint parseSelectFields (fields : list string)
         (acc : list string * list AggregateInfo)
  : option (list string * list AggregateInfo) :=
  match fields with
  | [] => Some acc
  | f :: rest => acc' <- parseSelectField f acc ;; parseSelectFields rest acc'
  end.

Definition parseAggregateFields (fieldsStr : string) (info : QueryInfo)
  : option QueryInfo :=
  acc <- parseSelectFields (Split fieldsStr ",") ([], []) ;;
  Some (setSelect (fst acc) (snd acc) info).

Definition mentionsTimeVariable (s : string) : bool :=
  Contains s "$__from" || Contains s "$__to".

Definition isRelationalOperator (part : string) : bool :=
  String.eqb part ">=" || String.eqb part "<=" ||
  String.eqb part ">" || String.eqb part "<".

(** The scan for the time field: [prev] is [parts[i-1]] ([None] at [i = 0]),
    the head of the list is [parts[i]]; the result is the field of the first
    comparison against a time variable. *)
Fixpoint findTimeField (prev : option string) (parts : list string)
  : option string :=
  match parts with
  | [] => None
  | part :: rest =>
      match prev, rest with
      | Some before, next :: _ =>
          if isRelationalOperator part && mentionsTimeVariable next
          then Some before
          else findTimeField (Some part) rest
      | _, _ => findTimeField (Some part) rest
      end
  end.

(** The filter of a condition [field <op> value], from the two parts
    [SplitN] gave; nothing when there are not two. *)
Definition equalityFilter (parts : list string) (info : QueryInfo) : QueryInfo :=
  match parts with
  | [l; r] =>
      addFilter (mkFilterInfo (TrimSpace l) "=="
                              (VString (Trim (TrimSpace r) quotes))) info
  | _ => info
  end.

Definition parseCondition (condition0 : string) (info : QueryInfo) : QueryInfo :=
  let condition := TrimSpace condition0 in
  if negb (Contains condition "$__from") && negb (Contains condition "$__to")
  then
    if Contains condition "==" then
      equalityFilter
        (if Contains condition " == "
         then SplitN condition " == " 2
         else SplitN condition "==" 2) info
    else if Contains condition "=" then
      equalityFilter
        (if Contains condition " = "
         then SplitN condition " = " 2
         else SplitN condition "=" 2) info
    else info
  else info.

Definition parseWhereClause (whereClause : string) (info : QueryInfo)
  : QueryInfo :=
  let info1 :=
    if mentionsTimeVariable whereClause then
      match findTimeField None (Strings.Fields whereClause) with
      | Some f => setTimeField f info
      | None => info
      end
    else info in
  fold_left (fun i c => parseCondition c i) (Split whereClause " AND ") info1.

Definition parseGroupBy (groupClause : string) (info : QueryInfo) : QueryInfo :=
  fold_left
    (fun i field0 =>
       let field := TrimSpace field0 in
       if negb (String.eqb field "") then addGroupBy (cleanBackticks field) i
       else i)
    (Split groupClause ",") info.

Definition parseOrderBy (orderClause : string) (info : QueryInfo) : QueryInfo :=
  match Strings.Fields orderClause with
  | [] => info
  | f :: rest =>
      let desc := match rest with
                  | d :: _ => String.eqb (ToUpper d) "DESC"
                  | [] => false
                  end in
      setOrder f (if desc then "DESC" else "ASC") info
  end.

(** [None] is the [error] result. *)
Definition parseLimit (limitStr : string) : option Z :=
  match Strings.Fields limitStr with
  | p :: _ => Atoi p
  | [] => None
  end.

(** The four clause positions the parser looks up in the lower-cased text. *)
Record ClauseIndexes : Type := mkClauseIndexes {
  whereIdx : Z;
  groupIdx : Z;
  orderIdx : Z;
  limitIdx : Z
}.

Definition clauseIndexes (queryLower : string) : ClauseIndexes :=
  mkClauseIndexes (Index queryLower " where ")
                  (findGroupByIndex queryLower)
                  (Index queryLower " order by ")
                  (findLimitIndex queryLower).

(** End of the collection name (lines 772-784). *)
Definition collectionEndIdx (n : Z) (ix : ClauseIndexes) : Z :=
  let endIdx := n in
  let endIdx := if negb (whereIdx ix =? -1) then whereIdx ix else endIdx in
  let endIdx := if negb (groupIdx ix =? -1) && (groupIdx ix <? endIdx)
                then groupIdx ix else endIdx in
  let endIdx := if negb (orderIdx ix =? -1) && (orderIdx ix <? endIdx)
                then orderIdx ix else endIdx in
  let endIdx := if negb (limitIdx ix =? -1) && (limitIdx ix <? endIdx)
                then limitIdx ix else endIdx in
  endIdx.

(** End of the WHERE clause (lines 791-800): three assignments in a row,
    each overwriting the one before. *)
Definition whereEndIdx (n : Z) (ix : ClauseIndexes) : Z :=
  let whereEndIdx := n in
  let whereEndIdx := if negb (groupIdx ix =? -1) && (whereIdx ix <? groupIdx ix)
                     then groupIdx ix else whereEndIdx in
  let whereEndIdx := if negb (orderIdx ix =? -1) && (whereIdx ix <? orderIdx ix)
                     then orderIdx ix else whereEndIdx in
  let whereEndIdx := if negb (limitIdx ix =? -1) && (whereIdx ix <? limitIdx ix)
                     then limitIdx ix else whereEndIdx in
  whereEndIdx.

(** End of the GROUP BY clause (lines 814-822). *)
Definition groupEndIdx (n : Z) (ix : ClauseIndexes) : Z :=
  if negb (orderIdx ix =? -1) && (groupIdx ix <? orderIdx ix) then orderIdx ix
  else if negb (limitIdx ix =? -1) && (groupIdx ix <? limitIdx ix)
       then limitIdx ix
       else n.

(** End of the ORDER BY clause (lines 832-835). *)
Definition orderEndIdx (n : Z) (ix : ClauseIndexes) : Z :=
  if negb (limitIdx ix =? -1) && (orderIdx ix <? limitIdx ix) then limitIdx ix
  else n.

(** The text handed to [parseWhereClause]. *)
Definition whereClauseText (queryOriginal : string) (ix : ClauseIndexes)
  : option string :=
  option_map TrimSpace
    (slice queryOriginal (whereIdx ix + 7) (whereEndIdx (len queryOriginal) ix)).

Definition parseClauses (queryOriginal : string) (selectIdx fromIdx : Z)
           (ix : ClauseIndexes) : option QueryInfo :=
  let info := emptyQueryInfo in
  fieldsStr <- option_map TrimSpace (slice queryOriginal (selectIdx + 7) fromIdx) ;;
  info <- parseAggregateFields fieldsStr info ;;
  collectionStr <-
    option_map TrimSpace
      (slice queryOriginal (fromIdx + 6)
             (collectionEndIdx (len queryOriginal) ix)) ;;
  let info := setCollection collectionStr info in
  info <-
    (if negb (whereIdx ix =? -1) then
       whereClause <- whereClauseText queryOriginal ix ;;
       Some (parseWhereClause whereClause info)
     else Some info) ;;
  info <-
    (if negb (groupIdx ix =? -1) then
       groupClause <-
         option_map TrimSpace
           (slice queryOriginal (groupIdx ix + 10)
                  (groupEndIdx (len queryOriginal) ix)) ;;
       Some (parseGroupBy groupClause info)
     else Some info) ;;
  info <-
    (if negb (orderIdx ix =? -1) then
       orderClause <-
         option_map TrimSpace
           (slice queryOriginal (orderIdx ix + 10)
                  (orderEndIdx (len queryOriginal) ix)) ;;
       Some (parseOrderBy orderClause info)
     else Some info) ;;
  (if negb (limitIdx ix =? -1) then
     limitStr <- option_map TrimSpace (sliceFrom queryOriginal (limitIdx ix + 7)) ;;
     match parseLimit limitStr with
     | Some limit => Some (setLimit limit info)
     | None => Some info
     end
   else Some info).

Definition missingSelectOrFrom : string := "invalid SQL: missing SELECT or FROM".

Definition parseSQLQueryWithVariables (query : string) : outcome QueryInfo :=
  let queryLower := ToLower (TrimSpace query) in
  let queryOriginal := TrimSpace query in
  let selectIdx := Index queryLower "select " in
  let fromIdx := Index queryLower " from " in
  if (selectIdx =? -1) || (fromIdx =? -1) then Fail missingSelectOrFrom
  else orFault (parseClauses queryOriginal selectIdx fromIdx
                             (clauseIndexes queryLower)).

(** ** Query router ([queryInternal], lines 130-148) *)

(** [time.Time], as seconds and nanoseconds since the zero instant. *)
Record Time : Type := mkTime { sec : Z; nsec : Z }.

Definition IsZero (t : Time) : bool := (sec t =? 0) && (nsec t =? 0).

Record TimeRange : Type := mkTimeRange { From : Time; To : Time }.

Definition containsGrafanaVariables (query : string) : bool :=
  Contains query "$__from" || Contains query "$__to".

Definition containsGroupBy (query : string) : bool :=
  Contains (ToLower query) "group by".

(** Where [queryInternal] sends a query: to [executeWithNativeSDKForVariables],
    to [fQuery.Execute] with the text it executes, or nowhere (the body of
    [if len(qm.Query) > 0] is skipped and the empty response is returned). *)
Inductive Route : Type :=
| NativeSDK (query : string) (timeRange : TimeRange)
| FireQL (finalQuery : string)
| NoExecution.

Definition queryInternal (query : string) (timeRange : TimeRange) : Route :=
  if 0 <? len query then
    let finalQuery := query in
    let hasGrafanaVars := containsGrafanaVariables query in
    let hasGroupBy := containsGroupBy query in
    if (hasGrafanaVars && negb (IsZero (From timeRange))
                       && negb (IsZero (To timeRange)))
       || hasGroupBy
    then NativeSDK query timeRange
    else FireQL finalQuery
  else NoExecution.

Definition isNativeSDK (r : Route) : bool :=
  match r with NativeSDK _ _ => true | _ => false end.

(** ** The store query of the native path
       ([executeWithNativeSDKForVariables], lines 645-677) *)

Inductive Direction : Type := Asc | Desc.

(** A [firestore.Query] as the builder calls leave it. *)
Record FirestoreQuery : Type := mkFirestoreQuery {
  fqCollection : string;
  fqWhere : list (string * string * Time);
  fqOrderBy : list (string * Direction);
  fqLimit : option Z
}.

Definition isAggregatingPlan (queryInfo : QueryInfo) : bool :=
  (0 <? Z.of_nat (List.length (GroupByFields queryInfo)))
  || (0 <? Z.of_nat (List.length (AggregateFields queryInfo))).

Definition nativeFirestoreQuery (queryInfo : QueryInfo) (timeRange : TimeRange)
  : FirestoreQuery :=
  let wheres :=
    if negb (String.eqb (TimeField queryInfo) "")
    then [ (TimeField queryInfo, ">=", From timeRange);
           (TimeField queryInfo, "<=", To timeRange) ]
    else [] in
  let orders :=
    if negb (String.eqb (OrderField queryInfo) "")
       && (List.length (GroupByFields queryInfo) =? 0)%nat
       && (List.length (AggregateFields queryInfo) =? 0)%nat
    then [ (OrderField queryInfo,
            if String.eqb (OrderDirection queryInfo) "DESC" then Desc else Asc) ]
    else [] in
  let limit :=
    if 0 <? Limit queryInfo then Some (Limit queryInfo) else None in
  mkFirestoreQuery (Collection queryInfo) wheres orders limit.

(** ** Frame of the delegated path ([queryInternal], lines 262-273) *)

(** The typed vectors the column loop (lines 183-260) builds. *)
Inductive ColumnValues : Type :=
| BoolColumn (vs : list bool)
| Int32Column (vs : list Z)
| Int64Column (vs : list Z)
| Float64Column (vs : list float)
| TimeColumn (vs : list Time)
| JSONColumn (vs : list string)
| StringColumn (vs : list string).

Record FrameField : Type := mkFrameField {
  fieldName : string;
  fieldValues : option ColumnValues
}.

Definition Frame : Type := list FrameField.

(** The field [data.NewField(name, nil, values)] builds; [values] is [None]
    for the nil interface, which a column none of whose values was set is
    left with.  On the nil interface [data.NewField] panics and builds no
    field: the field given for [None] here is in no frame the code returns,
    and the response of the delegated path, [delegatedResponse], has the
    panic. *)
Definition NewField (name : string) (values : option ColumnValues) : FrameField :=
  mkFrameField name values.

Definition debugColumn (column : string) : string := column ++ "_USING_FIREQL".

(** The loop over [result.Columns], appending to [frame.Fields]; [values] is
    the map [fieldValues] the column loop before it has filled. *)
Definition delegatedFrame (columns : list string)
           (values : string -> option ColumnValues) : Frame :=
  fold_left (fun fields column =>
               (fields ++ [NewField (debugColumn column) (values column)])%list)
            columns [].

(** ** Rendering and numeric coercion of dynamic values *)

(** The two functions of [strconv] on floating-point text, which the model
    takes as given: [FormatFloat f bitSize] is
    [strconv.FormatFloat(f, 'g', -1, bitSize)], the rendering [%v] uses, and
    [ParseFloat s] is [strconv.ParseFloat(s, 64)] with [None] for its error. *)
Class FloatConv : Type := {
  FormatFloat : float -> Z -> string;
  ParseFloat : string -> option float
}.

(** [float64(n)] for an integer [n]. *)
Definition float64_of_Z (n : Z) : float :=
  SF2Prim (binary_normalize prec emax n 0 false).

Definition formatInt (n : Z) : string :=
  DecimalString.NilZero.string_of_int (Z.to_int n).

Fixpoint insertEntry (e : string * string) (l : list (string * string))
  : list (string * string) :=
  match l with
  | [] => [e]
  | x :: r => if String.leb (fst e) (fst x) then e :: l else x :: insertEntry e r
  end.

Definition sortEntries (l : list (string * string)) : list (string * string) :=
  fold_right insertEntry [] l.

Section Values.

Context {conv : FloatConv}.

(** [fmt.Sprintf("%v", v)]; a mapping prints its entries in key order. *)
Fixpoint Sprintv (v : Any) : string :=
  match v with
  | VNil => "<nil>"
  | VBool b => if b then "true" else "false"
  | VInt n | VInt32 n | VInt64 n => formatInt n
  | VFloat32 f => FormatFloat f 32
  | VFloat64 f => FormatFloat f 64
  | VString s => s
  | VMap m =>
      "map[" ++
      Join (map (fun e => fst e ++ ":" ++ snd e)
                (sortEntries (map (fun e => (fst e, Sprintv (snd e))) m)))
           " " ++ "]"
  | VSlice l => "[" ++ Join (map Sprintv l) " " ++ "]"
  | VOpaque rendering => rendering
  end.

(** [convertToFloat]; [None] is its error. *)
Definition convertToFloat (val : Any) : option float :=
  match val with
  | VFloat64 v => Some v
  | VFloat32 v => Some v
  | VInt v => Some (float64_of_Z v)
  | VInt32 v => Some (float64_of_Z v)
  | VInt64 v => Some (float64_of_Z v)
  | VString v => ParseFloat v
  | _ => None
  end.

(** The loop of [getNestedFieldValue] over the parts of a dotted path. *)
Fixpoint descend (current : Doc) (parts : list string) : Any :=
  match parts with
  | [] => VNil
  | [part] => index current part
  | part :: rest =>
      match index current part with
      | VMap next => descend next rest
      | _ => VNil
      end
  end.

Definition getNestedFieldValue (doc : Doc) (fieldPath : string) : Any :=
  if negb (Contains fieldPath ".") then index doc fieldPath
  else descend doc (Split fieldPath ".").

(** ** Manual filter evaluator *)

(** The loop over [filters] for one document, with its two [break]s. *)
Fixpoint passesFilters (docData : Doc) (filters : list FilterInfo) : bool :=
  match filters with
  | [] => true
  | filter :: rest =>
      let fieldValue := getNestedFieldValue docData (filterField filter) in
      if isNil fieldValue then false
      else
        let fieldValueStr := Sprintv fieldValue in
        let expectedValueStr := Sprintv (filterValue filter) in
        if String.eqb (filterOperator filter) "=="
           && negb (String.eqb fieldValueStr expectedValueStr)
        then false
        else passesFilters docData rest
  end.

Definition keepsSnapshot (filters : list FilterInfo) (doc : Snapshot) : bool :=
  match doc with
  | NilSnapshot => false
  | Snap None => false
  | Snap (Some docData) => passesFilters docData filters
  end.

Definition applyManualFiltering (docs : list Snapshot)
           (filters : list FilterInfo) : list Snapshot :=
  if (List.length filters =? 0)%nat then docs
  else if (List.length docs =? 0)%nat then docs
  else filter (keepsSnapshot filters) docs.

(** ** Grouping and aggregation ([processGroupByQueryWithOrdering]) *)

(** [doc.Data()]: a panic on the nil pointer; a nil mapping reads as the
    empty one. *)
Definition Data (doc : Snapshot) : option Doc :=
  match doc with
  | NilSnapshot => None
  | Snap None => Some []
  | Snap (Some d) => Some d
  end.

Fixpoint allData (docs : list Snapshot) : option (list Doc) :=
  match docs with
  | [] => Some []
  | d :: rest => x <- Data d ;; xs <- allData rest ;; Some (x :: xs)
  end.

Definition keyParts (groupByFields : list string) (docData : Doc)
  : list string :=
  map (fun groupField => Sprintv (getNestedFieldValue docData groupField))
      groupByFields.

Definition groupKey (groupByFields : list string) (docData : Doc) : string :=
  Join (keyParts groupByFields docData) "|".

(** [groups[groupKey] = append(groups[groupKey], docData)] on the entries
    of the map [groups]. *)
Fixpoint appendToGroup (key : string) (docData : Doc)
         (groups : list (string * list Doc)) : list (string * list Doc) :=
  match groups with
  | [] => [(key, [docData])]
  | (k, ds) :: rest =>
      if String.eqb k key then (k, (ds ++ [docData])%list) :: rest
      else (k, ds) :: appendToGroup key docData rest
  end.

(** Step 1, after the filtering: the map [groups]. *)
Definition groupDocuments (groupByFields : list string) (docs : list Doc)
  : list (string * list Doc) :=
  fold_left (fun groups d => appendToGroup (groupKey groupByFields d) d groups)
            docs [].

Record AggregatedResult : Type := mkAggregatedResult {
  GroupValues : list Any;
  AggregateValues : list Any;
  SortValue : float
}.

(** The value of [field] in [doc] as a float, when it is there and
    converts ([val != nil] and [err == nil]). *)
Definition coerced (field : string) (doc : Doc) : option float :=
  let val := getNestedFieldValue doc field in
  if isNil val then None else convertToFloat val.

Definition sumLoop (field : string) (groupDocs : list Doc) : float :=
  fold_left (fun sum doc =>
               match coerced field doc with
               | Some numVal => PrimFloat.add sum numVal
               | None => sum
               end) groupDocs PrimFloat.zero.

(** The loop of the AVG case: the running [sum] and [count]. *)
Definition avgLoop (field : string) (groupDocs : list Doc) : float * Z :=
  fold_left (fun '(sum, count) doc =>
               match coerced field doc with
               | Some numVal => (PrimFloat.add sum numVal, count + 1)
               | None => (sum, count)
               end) groupDocs (PrimFloat.zero, 0).

Definition avgValue (field : string) (groupDocs : list Doc) : float :=
  let '(sum, count) := avgLoop field groupDocs in
  if 0 <? count then PrimFloat.div sum (float64_of_Z count)
  else PrimFloat.zero.

(** The loop of MIN and MAX, [better new old] being [new < old] or
    [new > old]; [None] is the nil pointer. *)
Definition extremumLoop (better : float -> float -> bool) (field : string)
           (groupDocs : list Doc) : option float :=
  fold_left (fun best doc =>
               match coerced field doc with
               | Some numVal =>
                   match best with
                   | None => Some numVal
                   | Some b => if better numVal b then Some numVal else best
                   end
               | None => best
               end) groupDocs None.

Definition orZero (x : option float) : float :=
  match x with Some v => v | None => PrimFloat.zero end.

Definition aggregateValue (agg : AggregateInfo) (groupDocs : list Doc)
  : Any :=
  let fn := aggFunction agg in
  if String.eqb fn "COUNT" then
    VFloat64 (float64_of_Z (Z.of_nat (List.length groupDocs)))
  else if String.eqb fn "SUM" then
    VFloat64 (sumLoop (aggField agg) groupDocs)
  else if String.eqb fn "AVG" then
    VFloat64 (avgValue (aggField agg) groupDocs)
  else if String.eqb fn "MIN" then
    VFloat64 (orZero (extremumLoop PrimFloat.ltb (aggField agg) groupDocs))
  else if String.eqb fn "MAX" then
    VFloat64 (orZero (extremumLoop (fun x y => PrimFloat.ltb y x)
                                   (aggField agg) groupDocs))
  else VFloat64 PrimFloat.zero.

(** The alias with the function syntax removed (lines 1289-1302). *)
Fixpoint afterAS (parts : list string) : option string :=
  match parts with
  | part :: ((next :: _) as rest) =>
      if String.eqb (ToUpper part) "AS" then Some next else afterAS rest
  | _ => None
  end.

Definition cleanedAlias (agg : AggregateInfo) : string :=
  let alias := aggAlias agg in
  if Contains alias "(" && Contains alias ")" then
    if Contains (ToUpper alias) " AS " then
      match afterAS (Split alias " ") with
      | Some a => a
      | None => alias
      end
    else ToLower (aggFunction agg)
  else alias.

Definition orderMatchesAggregate (orderField : string)
           (agg : AggregateInfo) : bool :=
  String.eqb orderField (aggAlias agg)
  || String.eqb orderField (cleanedAlias agg)
  || String.eqb orderField (ToLower (aggFunction agg)).

(** The loop over [AggregateFields] for one group: the aggregate values
    and the sort value it leaves. *)
Definition aggregateLoop (queryInfo : QueryInfo) (groupDocs : list Doc)
           (sort0 : float) : list Any * float :=
  fold_left
    (fun '(values, sortValue) agg =>
       let v := aggregateValue agg groupDocs in
       let sortValue' :=
         if negb (String.eqb (OrderField queryInfo) "")
            && orderMatchesAggregate (OrderField queryInfo) agg
         then match convertToFloat v with
              | Some s => s
              | None => sortValue
              end
         else sortValue in
       ((values ++ [v])%list, sortValue'))
    (AggregateFields queryInfo) ([], sort0).

(** The loop setting the sort value from a group field (lines 1323-1331);
    [i] is the index of the head of [groupByFields]. *)
Fixpoint groupSortLoop (orderField : string) (groupValues : list Any)
         (i : nat) (groupByFields : list string) (sortValue : float) : float :=
  match groupByFields with
  | [] => sortValue
  | groupField :: rest =>
      let sortValue' :=
        if String.eqb orderField groupField
        then match nth_error groupValues i with
             | Some gv => match convertToFloat gv with
                          | Some s => s
                          | None => sortValue
                          end
             | None => sortValue
             end
        else sortValue in
      groupSortLoop orderField groupValues (S i) rest sortValue'
  end.

(** Step 2 for one group. *)
Definition aggregateGroup (queryInfo : QueryInfo) (groupDocs : list Doc)
  : AggregatedResult :=
  let groupValues :=
    match groupDocs with
    | first :: _ =>
        map (fun groupField => getNestedFieldValue first groupField)
            (GroupByFields queryInfo)
    | [] => []
    end in
  let '(aggregateValues, sortValue) :=
    aggregateLoop queryInfo groupDocs PrimFloat.zero in
  let sortValue :=
    if negb (String.eqb (OrderField queryInfo) "")
    then groupSortLoop (OrderField queryInfo) groupValues O
                       (GroupByFields queryInfo) sortValue
    else sortValue in
  mkAggregatedResult groupValues aggregateValues sortValue.

(** The recovery pass of step 3 for one result (lines 1346-1358); [j] is
    the index of the head of [aggFields]. *)
Fixpoint recoverSortValue (orderField : string) (result : AggregatedResult)
         (j : nat) (aggFields : list AggregateInfo) (sortValue : float) : float :=
  match aggFields with
  | [] => sortValue
  | agg :: rest =>
      let sortValue' :=
        if String.eqb orderField (aggAlias agg)
           || String.eqb orderField (ToLower (aggFunction agg))
        then match nth_error (AggregateValues result) j with
             | Some v => match convertToFloat v with
                         | Some s => s
                         | None => sortValue
                         end
             | None => sortValue
             end
        else sortValue in
      recoverSortValue orderField result (S j) rest sortValue'
  end.

Definition withRecoveredSortValue (queryInfo : QueryInfo)
           (result : AggregatedResult) : AggregatedResult :=
  if PrimFloat.eqb (SortValue result) PrimFloat.zero then
    mkAggregatedResult (GroupValues result) (AggregateValues result)
      (recoverSortValue (OrderField queryInfo) result O
                        (AggregateFields queryInfo) (SortValue result))
  else result.

Definition shouldSwap (queryInfo : QueryInfo) (ri rj : AggregatedResult)
  : bool :=
  if String.eqb (OrderDirection queryInfo) "DESC"
  then PrimFloat.ltb (SortValue ri) (SortValue rj)
  else PrimFloat.ltb (SortValue rj) (SortValue ri).

(** The inner loop of the sort: [x] is [results[i]], the list is
    [results[i+1:]]. *)
Fixpoint exchangePass (swap : AggregatedResult -> AggregatedResult -> bool)
         (x : AggregatedResult) (rest : list AggregatedResult)
  : AggregatedResult * list AggregatedResult :=
  match rest with
  | [] => (x, [])
  | y :: r =>
      if swap x y
      then let '(x', r') := exchangePass swap y r in (x', x :: r')
      else let '(x', r') := exchangePass swap x r in (x', y :: r')
  end.

(** The outer loop of the sort, on the [n] positions still to settle. *)
Fixpoint exchangeSort (swap : AggregatedResult -> AggregatedResult -> bool)
         (n : nat) (results : list AggregatedResult) : list AggregatedResult :=
  match n, results with
  | S n', x :: rest =>
      let '(x', rest') := exchangePass swap x rest in
      x' :: exchangeSort swap n' rest'
  | _, _ => results
  end.

(** Step 3. *)
Definition applyOrderBy (queryInfo : QueryInfo)
           (results : list AggregatedResult) : list AggregatedResult :=
  if negb (String.eqb (OrderField queryInfo) "") then
    let results := map (withRecoveredSortValue queryInfo) results in
    exchangeSort (shouldSwap queryInfo) (List.length results) results
  else results.

(** Step 4. *)
Definition applyLimit (queryInfo : QueryInfo)
           (results : list AggregatedResult) : list AggregatedResult :=
  if (0 <? Limit queryInfo)
     && (Limit queryInfo <? Z.of_nat (List.length results))
  then firstn (Z.to_nat (Limit queryInfo)) results
  else results.

(** Steps 2 to 4, on the groups in the order the [range] over the map
    visits them. *)
Definition aggregatedResults (queryInfo : QueryInfo)
           (visited : list (list Doc)) : list AggregatedResult :=
  applyLimit queryInfo
    (applyOrderBy queryInfo (map (aggregateGroup queryInfo) visited)).

(** The results [processGroupByQueryWithOrdering] may build from a
    non-empty [docs]: Go leaves the order of a [range] over a map open, so
    every order of the groups gives one. *)
Definition groupByResults (queryInfo : QueryInfo) (docs : list Snapshot)
           (results : list AggregatedResult) : Prop :=
  exists (filteredData : list Doc) (visited : list (string * list Doc)),
    allData (applyManualFiltering docs (AdditionalFilters queryInfo))
      = Some filteredData /\
    Permutation (groupDocuments (GroupByFields queryInfo) filteredData)
                visited /\
    results = aggregatedResults queryInfo (map snd visited).

End Values.


(** ** An instance of the float conversions, to run the code on examples *)

(** A partial stand-in for [strconv], for the examples only; no property
    stated for every [FloatConv] depends on it.  [integralFormat] prints the
    floats of integral value below 10^6 in magnitude as [%v] prints them,
    in plain digits, and [decimalLiteral] reads the plain decimal integer
    literals of at most fifteen digits, which are exact in a float64.
    Everywhere else it gives the empty text and the error, where [strconv]
    prints every float and also reads fractions, exponents, [Inf] and
    [NaN]: the examples hold no float and no text of that kind. *)
Definition integralFormat (f : float) (bitSize : Z) : string :=
  match Prim2SF f with
  | S754_zero s => if s then "-0" else "0"
  | S754_finite s m e =>
      let n := if 0 <=? e then Z.pos m * 2 ^ e else Z.pos m / 2 ^ (- e) in
      let exact := if 0 <=? e then true else Z.pos m mod 2 ^ (- e) =? 0 in
      if exact && (n <? 1000000)
      then (if s then "-" else "") ++ formatInt n
      else ""
  | _ => ""
  end.

Definition decimalLiteral (s : string) : option float :=
  match s with
  | EmptyString => None
  | String c r =>
      let neg := Ascii.eqb c "-"%char in
      let body := if neg || Ascii.eqb c "+"%char then r else s in
      if (1 <=? String.length body)%nat && (String.length body <=? 15)%nat
      then match digitsValue 0 body with
           | Some n => Some (if neg then PrimFloat.opp (float64_of_Z n)
                             else float64_of_Z n)
           | None => None
           end
      else None
  end.

Definition decimalConv : FloatConv :=
  {| FormatFloat := integralFormat; ParseFloat := decimalLiteral |}.

(** * Properties *)

(** ** Occurrence of a text in another *)

Definition occursIn (substr s : string) : Prop :=
  exists pre post, s = pre ++ substr ++ post.

Lemma HasPrefix_spec (s prefix : string) :
  HasPrefix s prefix = true <-> exists post, s = prefix ++ post.
Proof.
  revert s; induction prefix as [|p ps IH]; intros s; simpl.
  - split; [intros _; now exists s | reflexivity].
  - destruct s as [|c cs].
    + split; [discriminate | intros [post H]; discriminate].
    + rewrite andb_true_iff, Ascii.eqb_eq, IH. split.
      * intros [-> [post ->]]. now exists post.
      * intros [post H]. injection H as -> ->. split; [reflexivity | now exists post].
Qed.

Lemma Index_lower_bound (s substr : string) : -1 <= Index s substr.
Proof.
  induction s as [|c r IH]; simpl.
  - destruct (HasPrefix _ _); lia.
  - destruct (HasPrefix _ _); [lia|].
    destruct (Index r substr <? 0) eqn:E; [lia|]. apply Z.ltb_ge in E. lia.
Qed.

Lemma Index_missing (s substr : string) :
  (Index s substr =? -1) = negb (Contains s substr).
Proof.
  unfold Contains. pose proof (Index_lower_bound s substr).
  destruct (Index s substr =? -1) eqn:E1, (0 <=? Index s substr) eqn:E2;
    try reflexivity; exfalso.
  - apply Z.eqb_eq in E1. apply Z.leb_le in E2. lia.
  - apply Z.eqb_neq in E1. apply Z.leb_gt in E2. lia.
Qed.

Lemma Contains_spec (s substr : string) :
  Contains s substr = true <-> occursIn substr s.
Proof.
  unfold Contains, occursIn. induction s as [|c r IH]; simpl.
  - destruct (HasPrefix "" substr) eqn:E.
    + split; [intros _|reflexivity].
      apply HasPrefix_spec in E. destruct E as [post E]. now exists "", post.
    + split; [discriminate|]. intros [pre [post H]].
      destruct pre; [|discriminate]. simpl in H.
      assert (HasPrefix "" substr = true) by (apply HasPrefix_spec; now exists post).
      congruence.
  - destruct (HasPrefix (String c r) substr) eqn:E.
    + split; [intros _|reflexivity].
      apply HasPrefix_spec in E. destruct E as [post E]. now exists "", post.
    + pose proof (Index_lower_bound r substr) as L.
      assert ((0 <=? (if Index r substr <? 0 then -1 else Index r substr + 1))
              = (0 <=? Index r substr)) as ->.
      { destruct (Index r substr <? 0) eqn:E1.
        - apply Z.ltb_lt in E1. symmetry. apply Z.leb_gt. lia.
        - apply Z.ltb_ge in E1. transitivity true; [|symmetry]; apply Z.leb_le; lia. }
      rewrite IH. split.
      * intros [pre [post ->]]. now exists (String c pre), post.
      * intros [pre [post H]]. destruct pre as [|c' pre].
        -- simpl in H.
           assert (HasPrefix (String c r) substr = true)
             by (apply HasPrefix_spec; now exists post).
           congruence.
        -- simpl in H. injection H as _ ->. now exists pre, post.
Qed.

Lemma Contains_false (s substr : string) :
  Contains s substr = false <-> ~ occursIn substr s.
Proof.
  rewrite <- Contains_spec. destruct (Contains s substr); split; intros H;
    try reflexivity; try discriminate; try (intros; discriminate).
  exfalso; now apply H.
Qed.

Lemma length_append (a b : string) :
  String.length (a ++ b) = (String.length a + String.length b)%nat.
Proof. induction a as [|c a IH]; simpl; [reflexivity | now rewrite IH]. Qed.

Lemma len_zero (s : string) : (0 <? len s) = false <-> s = "".
Proof.
  unfold len. destruct s; simpl; split; intros H; try reflexivity; discriminate.
Qed.

(** ** The router *)

Definition usesTimeVariables (query : string) : Prop :=
  occursIn "$__from" query \/ occursIn "$__to" query.

Lemma containsGrafanaVariables_spec (query : string) :
  containsGrafanaVariables query = true <-> usesTimeVariables query.
Proof.
  unfold containsGrafanaVariables, usesTimeVariables.
  now rewrite orb_true_iff, !Contains_spec.
Qed.

Lemma containsGroupBy_spec (query : string) :
  containsGroupBy query = true <-> occursIn "group by" (ToLower query).
Proof. unfold containsGroupBy. apply Contains_spec. Qed.

(** C4, as the code has it: the native path is taken exactly when the text
    uses [$__from] or [$__to] and both bounds of the window are non-zero, or
    the lower-cased text contains [group by]; it is then handed the query
    and the window as they came.  Of the queries left, the non-empty ones go
    to the execution library unmodified, and the empty one is not executed
    at all. *)
Theorem queryInternal_routes (query : string) (timeRange : TimeRange) :
  (isNativeSDK (queryInternal query timeRange) = true <->
     (usesTimeVariables query /\ IsZero (From timeRange) = false
                              /\ IsZero (To timeRange) = false)
     \/ occursIn "group by" (ToLower query))
  /\ (isNativeSDK (queryInternal query timeRange) = true ->
      queryInternal query timeRange = NativeSDK query timeRange)
  /\ (isNativeSDK (queryInternal query timeRange) = false ->
      queryInternal query timeRange
      = if String.eqb query "" then NoExecution else FireQL query).
Proof.
  unfold queryInternal.
  destruct (0 <? len query) eqn:Hlen.
  - assert (query <> "") as Hne
        by (intros ->; discriminate Hlen).
    apply String.eqb_neq in Hne. rewrite Hne.
    destruct ((containsGrafanaVariables query && negb (IsZero (From timeRange))
               && negb (IsZero (To timeRange))) || containsGroupBy query) eqn:Hc;
      simpl; (split; [|split]); try reflexivity; try discriminate.
    + split; [intros _|reflexivity].
      apply orb_true_iff in Hc. destruct Hc as [Hc|Hc].
      * left. apply andb_true_iff in Hc. destruct Hc as [Hc Hto].
        apply andb_true_iff in Hc. destruct Hc as [Hv Hfrom].
        apply containsGrafanaVariables_spec in Hv.
        apply negb_true_iff in Hfrom, Hto. auto.
      * right. now apply containsGroupBy_spec.
    + split; [discriminate|]. intros H. exfalso.
      apply orb_false_iff in Hc. destruct Hc as [Hc Hg].
      destruct H as [[Hv [Hfrom Hto]]|H].
      * apply containsGrafanaVariables_spec in Hv.
        rewrite Hv, Hfrom, Hto in Hc. discriminate.
      * apply containsGroupBy_spec in H. congruence.
  - apply len_zero in Hlen. subst query. simpl.
    split; [|split]; try reflexivity; try discriminate.
    split; [discriminate|]. intros H. exfalso.
    destruct H as [[[H|H] _]|H]; apply Contains_spec in H; discriminate H.
Qed.

(** C4 as stated fails on the empty query: it meets neither condition of
    the native path, yet it is not delegated. *)
Lemma queryInternal_empty_query :
  isNativeSDK (queryInternal "" (mkTimeRange (mkTime 0 0) (mkTime 0 0))) = false
  /\ queryInternal "" (mkTimeRange (mkTime 0 0) (mkTime 0 0)) = NoExecution.
Proof. split; reflexivity. Qed.

(** A query on a time variable with a zero window and no GROUP BY is
    delegated as it is; with a real window it goes the native way. *)
Lemma queryInternal_zero_window :
  queryInternal "SELECT * FROM events WHERE ts >= $__from"
                (mkTimeRange (mkTime 0 0) (mkTime 0 0))
  = FireQL "SELECT * FROM events WHERE ts >= $__from"
  /\ isNativeSDK (queryInternal "SELECT * FROM events WHERE ts >= $__from"
                                (mkTimeRange (mkTime 10 0) (mkTime 20 0))) = true.
Proof.
  pose proof (queryInternal_routes "SELECT * FROM events WHERE ts >= $__from"
                (mkTimeRange (mkTime 0 0) (mkTime 0 0))) as [_ [_ H]].
  split; [apply H|]; reflexivity.
Defined.

(** ** The frame of the delegated path *)

Lemma debugColumn_differs (column : string) : debugColumn column <> column.
Proof.
  unfold debugColumn. intros H. apply (f_equal String.length) in H.
  rewrite length_append in H. simpl in H. lia.
Qed.

Lemma delegatedFrame_from (columns : list string)
      (values : string -> option ColumnValues) (fields : Frame) :
  fold_left (fun fields column =>
               (fields ++ [NewField (debugColumn column) (values column)])%list)
            columns fields
  = (fields ++ map (fun column => NewField (debugColumn column) (values column))
                   columns)%list.
Proof.
  revert fields. induction columns as [|column rest IH]; intros fields; simpl.
  - now rewrite app_nil_r.
  - rewrite IH. now rewrite <- app_assoc.
Qed.

(** C10: the frame of the delegated path has one column for each column the
    library reported, in the same order, named by the reported name followed
    by [_USING_FIREQL]; so no column of the frame has the bare name of its
    source column. *)
Theorem delegatedFrame_column_names
        (columns : list string) (values : string -> option ColumnValues) :
  map fieldName (delegatedFrame columns values)
  = map (fun column => column ++ "_USING_FIREQL") columns
  /\ Forall2 (fun field column => fieldName field <> column)
             (delegatedFrame columns values) columns.
Proof.
  unfold delegatedFrame. rewrite delegatedFrame_from. simpl.
  split.
  - rewrite map_map. reflexivity.
  - induction columns as [|column rest IH]; simpl; constructor.
    + apply debugColumn_differs.
    + exact IH.
Qed.

Lemma delegatedFrame_two_columns :
  map fieldName
      (delegatedFrame ["id"; "email"]
                      (fun _ => Some (StringColumn ["1"; "a@b.c"])))
  = ["id_USING_FIREQL"; "email_USING_FIREQL"].
Proof.
  apply (delegatedFrame_column_names
           ["id"; "email"] (fun _ => Some (StringColumn ["1"; "a@b.c"]))).
Defined.

(** ** The parser on given queries *)

Definition countByStatusQuery : string :=
  "SELECT status, COUNT(*) as total FROM orders GROUP BY status ORDER BY total DESC".

(** C2 as stated fails: the plain field [status] of the SELECT list is kept
    in [Fields], which is not empty. *)
Lemma countByStatus_Fields_not_empty :
  exists info,
    parseSQLQueryWithVariables countByStatusQuery = Return info
    /\ Fields info = ["status"]
    /\ List.length (Fields info) = 1%nat.
Proof. eexists. split; [vm_compute; reflexivity | split; reflexivity]. Qed.

(** C2, as the code has it: the plan of the query has the collection
    [orders], the one plain field [status], the one aggregate COUNT of [*]
    named [total], the group field [status], the order field [total] and the
    direction DESC; it has no time field, no filter and no limit. *)
Theorem parse_countByStatus :
  parseSQLQueryWithVariables countByStatusQuery
  = Return {| Collection := "orders";
              Fields := ["status"];
              TimeField := "";
              AdditionalFilters := [];
              OrderField := "total";
              OrderDirection := "DESC";
              Limit := 0;
              GroupByFields := ["status"];
              AggregateFields := [mkAggregateInfo "COUNT" "*" "total"] |}.
Proof. vm_compute. reflexivity. Qed.

(** ** Clause boundaries *)

Definition filteredCountQuery : string :=
  "SELECT status, COUNT(*) as total FROM orders WHERE region = 'eu' GROUP BY status ORDER BY total DESC".

(** The end of the WHERE clause is the last of the following keywords the
    three assignments find, LIMIT before ORDER BY before GROUP BY, wherever
    they stand. *)
Lemma whereEndIdx_last_assignment (n : Z) (ix : ClauseIndexes) :
  whereEndIdx n ix =
    if negb (limitIdx ix =? -1) && (whereIdx ix <? limitIdx ix) then limitIdx ix
    else if negb (orderIdx ix =? -1) && (whereIdx ix <? orderIdx ix) then orderIdx ix
    else if negb (groupIdx ix =? -1) && (whereIdx ix <? groupIdx ix) then groupIdx ix
    else n.
Proof.
  unfold whereEndIdx.
  destruct (negb (limitIdx ix =? -1) && (whereIdx ix <? limitIdx ix));
    destruct (negb (orderIdx ix =? -1) && (whereIdx ix <? orderIdx ix));
    destruct (negb (groupIdx ix =? -1) && (whereIdx ix <? groupIdx ix));
    reflexivity.
Qed.

(** The end of the collection name is the least of the clause positions
    found, and the end of the text when none is. *)
Lemma collectionEndIdx_minimum (n : Z) (ix : ClauseIndexes) :
  whereIdx ix = -1 ->
  let found i := if i =? -1 then n else i in
  collectionEndIdx n ix
  = Z.min n (Z.min (found (groupIdx ix))
                   (Z.min (found (orderIdx ix)) (found (limitIdx ix)))).
Proof.
  intros Hw found. unfold collectionEndIdx, found. clear found. rewrite Hw. simpl.
  repeat match goal with
         | |- context [?a =? ?b] => destruct (Z.eqb_spec a b); simpl
         | |- context [?a <? ?b] =>
             lazymatch b with
             | context [if _ then _ else _] => fail
             | _ => destruct (Z.ltb_spec a b); simpl
             end
         end; lia.
Qed.

(** C3 fails on this query: GROUP BY (at 64) and ORDER BY (at 80) both
    follow WHERE (at 44), and the WHERE clause is cut at ORDER BY, the later
    of the two, so that the text parsed as conditions runs over the GROUP BY
    clause and the filter's value swallows it. *)
Theorem whereClause_runs_over_group_by :
  let queryOriginal := TrimSpace filteredCountQuery in
  let ix := clauseIndexes (ToLower queryOriginal) in
  whereIdx ix = 44 /\ groupIdx ix = 64 /\ orderIdx ix = 80 /\ limitIdx ix = -1
  /\ whereEndIdx (len queryOriginal) ix = 80
  /\ whereClauseText queryOriginal ix = Some "region = 'eu' GROUP BY status"
  /\ exists info,
       parseSQLQueryWithVariables filteredCountQuery = Return info
       /\ AdditionalFilters info
          = [mkFilterInfo "region" "==" (VString "eu' GROUP BY status")].
Proof.
  cbv zeta. repeat split; try (vm_compute; reflexivity).
  eexists. split; vm_compute; reflexivity.
Qed.

(** ** The store query of an aggregating plan *)

Lemma nativeFirestoreQuery_limit (queryInfo : QueryInfo) (timeRange : TimeRange) :
  fqLimit (nativeFirestoreQuery queryInfo timeRange)
  = if 0 <? Limit queryInfo then Some (Limit queryInfo) else None.
Proof. reflexivity. Qed.

Lemma nativeFirestoreQuery_order_withheld
      (queryInfo : QueryInfo) (timeRange : TimeRange) :
  isAggregatingPlan queryInfo = true ->
  fqOrderBy (nativeFirestoreQuery queryInfo timeRange) = [].
Proof.
  unfold isAggregatingPlan, nativeFirestoreQuery. intros H. simpl.
  destruct (GroupByFields queryInfo), (AggregateFields queryInfo);
    simpl in *; try discriminate; now rewrite ?andb_false_r.
Qed.

Definition topStatusQuery : string :=
  "SELECT status, COUNT(*) as total FROM orders GROUP BY status ORDER BY total DESC LIMIT 1".

(** C1 fails on this query: its plan is an aggregating one with limit 1, and
    the query sent to the store, from which the ORDER BY is withheld, carries
    the limit 1; the store returns a single document, and the groups are
    formed and counted over that document alone. *)
Theorem aggregating_plan_limits_store_query (timeRange : TimeRange) :
  exists queryInfo,
    parseSQLQueryWithVariables topStatusQuery = Return queryInfo
    /\ isAggregatingPlan queryInfo = true
    /\ Limit queryInfo = 1
    /\ fqOrderBy (nativeFirestoreQuery queryInfo timeRange) = []
    /\ fqLimit (nativeFirestoreQuery queryInfo timeRange) = Some 1.
Proof.
  eexists. split; [vm_compute; reflexivity|].
  repeat split; reflexivity.
Qed.

(** ** Parse errors and the limit of a plan *)

Lemma fold_left_preserves {A B C : Type} (g : A -> C) (f : A -> B -> A)
      (l : list B) (a : A) :
  (forall x b, g (f x b) = g x) -> g (fold_left f l a) = g a.
Proof.
  intros Hf. revert a. induction l as [|b l IH]; intros a; simpl.
  - reflexivity.
  - now rewrite IH, Hf.
Qed.












(** Between the two, the parser can panic: here [select ] and [ from ] share
    their space, and the slice of the field list has its bounds out of order. *)
Example parse_panics_on_shared_space :
  parseSQLQueryWithVariables "select from t" = Fault.
Proof. vm_compute. reflexivity. Qed.

(** ** The manual filter evaluator *)

Section FilterProperties.

Context {conv : FloatConv}.

(** The value a dotted path resolves to in a snapshot: nil when the
    snapshot carries no mapping. *)
Definition resolve (doc : Snapshot) (fieldPath : string) : Any :=
  match doc with
  | Snap (Some docData) => getNestedFieldValue docData fieldPath
  | _ => VNil
  end.

(** What the specification asks of a document for one filter: the field
    resolves to a value that is not nil and that prints as the filter's
    value prints. *)
Definition satisfies (doc : Snapshot) (f : FilterInfo) : Prop :=
  resolve doc (filterField f) <> VNil
  /\ Sprintv (resolve doc (filterField f)) = Sprintv (filterValue f).

Definition satisfiesb (doc : Snapshot) (f : FilterInfo) : bool :=
  negb (isNil (resolve doc (filterField f)))
  && String.eqb (Sprintv (resolve doc (filterField f))) (Sprintv (filterValue f)).

Definition isEquality (f : FilterInfo) : Prop := filterOperator f = "==".

Lemma isNil_spec (v : Any) : isNil v = true <-> v = VNil.
Proof. destruct v; simpl; split; intros H; try reflexivity; discriminate. Qed.

Lemma satisfiesb_spec (doc : Snapshot) (f : FilterInfo) :
  satisfiesb doc f = true <-> satisfies doc f.
Proof.
  unfold satisfiesb, satisfies.
  rewrite andb_true_iff, negb_true_iff, String.eqb_eq.
  split; intros [H1 H2]; split; try assumption.
  - intros E. apply isNil_spec in E. congruence.
  - destruct (isNil _) eqn:E; [|reflexivity]. apply isNil_spec in E. contradiction.
Qed.

Lemma satisfiesAll_spec (doc : Snapshot) (filters : list FilterInfo) :
  forallb (satisfiesb doc) filters = true
  <-> forall f, In f filters -> satisfies doc f.
Proof.
  rewrite forallb_forall. split; intros H f Hf; apply satisfiesb_spec; auto.
Qed.

(** A path through something that is not a mapping resolves to nil. *)
Lemma descend_non_mapping (current : Doc) (part next : string)
      (rest : list string) :
  (forall m, index current part <> VMap m) ->
  descend current (part :: next :: rest) = VNil.
Proof.
  intros H. simpl. destruct (index current part); try reflexivity.
  now destruct (H m).
Qed.

Lemma index_missing (doc : Doc) (key : string) :
  lookup doc key = None -> index doc key = VNil.
Proof. unfold index. now intros ->. Qed.

Lemma passesFilters_equalities (docData : Doc) (filters : list FilterInfo) :
  Forall isEquality filters ->
  passesFilters docData filters
  = forallb (satisfiesb (Snap (Some docData))) filters.
Proof.
  induction 1 as [|f filters Hf _ IH]; simpl; [reflexivity|].
  unfold satisfiesb at 1. simpl. rewrite Hf, IH. simpl.
  destruct (isNil _); simpl; [reflexivity|].
  now destruct (String.eqb _ _).
Qed.

Lemma keepsSnapshot_equalities (filters : list FilterInfo) (doc : Snapshot) :
  Forall isEquality filters -> filters <> [] ->
  keepsSnapshot filters doc = forallb (satisfiesb doc) filters.
Proof.
  intros Heq Hne. destruct doc as [|[docData|]]; simpl.
  - destruct filters; [contradiction | reflexivity].
  - now apply passesFilters_equalities.
  - destruct filters; [contradiction | reflexivity].
Qed.

Lemma filter_all (A : Type) (f : A -> bool) (l : list A) :
  (forall x, f x = true) -> filter f l = l.
Proof.
  intros H. induction l as [|x l IH]; simpl; [reflexivity|]. now rewrite H, IH.
Qed.

Lemma filter_idempotent (A : Type) (f : A -> bool) (l : list A) :
  filter f (filter f l) = filter f l.
Proof.
  induction l as [|x l IH]; simpl; [reflexivity|].
  destruct (f x) eqn:E; simpl; [rewrite E, IH|]; auto.
Qed.

(** C9: filtering what the evaluator returned, by the same filters, changes
    nothing. *)
Theorem applyManualFiltering_idempotent
        (docs : list Snapshot) (filters : list FilterInfo) :
  applyManualFiltering (applyManualFiltering docs filters) filters
  = applyManualFiltering docs filters.
Proof.
  unfold applyManualFiltering.
  destruct (List.length filters =? 0)%nat eqn:Hf; [reflexivity|].
  destruct (List.length docs =? 0)%nat eqn:Hd.
  - now rewrite Hd.
  - destruct (List.length (filter (keepsSnapshot filters) docs) =? 0)%nat;
      [reflexivity | apply filter_idempotent].
Qed.

End FilterProperties.

(** ** Grouping by the composite key *)

Section GroupingProperties.

Context {conv : FloatConv}.

(** Two documents are in the same group when one entry of the map [groups]
    has both among its members. *)
Definition sameGroup (groups : list (string * list Doc)) (d1 d2 : Doc) : Prop :=
  exists key members, In (key, members) groups /\ In d1 members /\ In d2 members.

(** The stringified value of a group field in a document. *)
Definition groupValueText (docData : Doc) (groupField : string) : string :=
  Sprintv (getNestedFieldValue docData groupField).

Definition pipeFree (s : string) : Prop := Contains s "|" = false.

Fixpoint lookupGroup (key : string) (groups : list (string * list Doc))
  : option (list Doc) :=
  match groups with
  | [] => None
  | (k, ms) :: rest => if String.eqb k key then Some ms else lookupGroup key rest
  end.

Definition membersOf (key : string) (groups : list (string * list Doc))
  : list Doc :=
  match lookupGroup key groups with
  | Some ms => ms
  | None => []
  end.

Lemma lookupGroup_appendToGroup (key key' : string) (d : Doc)
      (groups : list (string * list Doc)) :
  lookupGroup key' (appendToGroup key d groups)
  = if String.eqb key key'
    then Some (membersOf key' groups ++ [d])%list
    else lookupGroup key' groups.
Proof.
  unfold membersOf.
  induction groups as [|[k ms] groups IH]; simpl.
  - now destruct (String.eqb key key').
  - destruct (String.eqb k key) eqn:E; simpl.
    + apply String.eqb_eq in E. subst k.
      now destruct (String.eqb key key').
    + destruct (String.eqb k key') eqn:E'.
      * apply String.eqb_eq in E'. subst k.
        rewrite String.eqb_sym in E. now rewrite E.
      * exact IH.
Qed.

Lemma membersOf_appendToGroup (key key' : string) (d : Doc)
      (groups : list (string * list Doc)) :
  membersOf key' (appendToGroup key d groups)
  = if String.eqb key key'
    then (membersOf key' groups ++ [d])%list
    else membersOf key' groups.
Proof.
  unfold membersOf at 1. rewrite lookupGroup_appendToGroup.
  now destruct (String.eqb key key').
Qed.

(** The members of a key are the documents with that key, in their order. *)
Lemma membersOf_groupDocuments (fields : list string) (docs : list Doc)
      (key : string) :
  membersOf key (groupDocuments fields docs)
  = filter (fun d => String.eqb (groupKey fields d) key) docs.
Proof.
  unfold groupDocuments.
  enough (forall groups,
             membersOf key
               (fold_left (fun g d => appendToGroup (groupKey fields d) d g)
                          docs groups)
             = (membersOf key groups
                ++ filter (fun d => String.eqb (groupKey fields d) key) docs)%list)
    as H by (rewrite H; reflexivity).
  induction docs as [|d docs IH]; intros groups; simpl.
  - now rewrite app_nil_r.
  - rewrite IH, membersOf_appendToGroup.
    destruct (String.eqb (groupKey fields d) key); [|reflexivity].
    now rewrite <- app_assoc.
Qed.

Lemma keys_appendToGroup (key : string) (d : Doc)
      (groups : list (string * list Doc)) :
  map fst (appendToGroup key d groups)
  = if existsb (fun k => String.eqb k key) (map fst groups)
    then map fst groups
    else (map fst groups ++ [key])%list.
Proof.
  induction groups as [|[k ms] groups IH]; simpl; [reflexivity|].
  destruct (String.eqb k key); simpl; [reflexivity|].
  rewrite IH. now destruct (existsb _ _).
Qed.

Lemma NoDup_keys_appendToGroup (key : string) (d : Doc)
      (groups : list (string * list Doc)) :
  NoDup (map fst groups) -> NoDup (map fst (appendToGroup key d groups)).
Proof.
  intros H. rewrite keys_appendToGroup.
  destruct (existsb _ _) eqn:E; [assumption|].
  apply NoDup_app; [assumption | repeat constructor; intros [] |].
  intros k Hk [Hkey|[]]. subst k.
  assert (existsb (fun k => String.eqb k key) (map fst groups) = true); [|congruence].
  apply existsb_exists. exists key. split; [assumption | apply String.eqb_refl].
Qed.

Lemma NoDup_keys_groupDocuments (fields : list string) (docs : list Doc) :
  NoDup (map fst (groupDocuments fields docs)).
Proof.
  unfold groupDocuments.
  enough (forall groups, NoDup (map fst groups) ->
            NoDup (map fst (fold_left
                              (fun g d => appendToGroup (groupKey fields d) d g)
                              docs groups)))
    as H by (apply H; constructor).
  induction docs as [|d docs IH]; intros groups Hg; simpl; [assumption|].
  apply IH. now apply NoDup_keys_appendToGroup.
Qed.

Lemma lookupGroup_In (key : string) (ms : list Doc)
      (groups : list (string * list Doc)) :
  lookupGroup key groups = Some ms -> In (key, ms) groups.
Proof.
  induction groups as [|[k ms'] groups IH]; simpl; [discriminate|].
  destruct (String.eqb k key) eqn:E.
  - apply String.eqb_eq in E. intros [= ->]. left. now subst.
  - intros H. right. now apply IH.
Qed.

Lemma In_lookupGroup (key : string) (ms : list Doc)
      (groups : list (string * list Doc)) :
  NoDup (map fst groups) -> In (key, ms) groups ->
  lookupGroup key groups = Some ms.
Proof.
  induction groups as [|[k ms'] groups IH]; simpl; [intros _ []|].
  intros Hnd [H|H].
  - injection H as -> ->. now rewrite String.eqb_refl.
  - inversion Hnd as [|? ? Hk Hnd']; subst.
    destruct (String.eqb k key) eqn:E.
    + apply String.eqb_eq in E. subst k. exfalso. apply Hk.
      change key with (fst (key, ms)). now apply in_map.
    + now apply IH.
Qed.

(** The grouping step puts two of the documents in one group exactly when
    their composite keys are the same text. *)
Lemma sameGroup_iff_groupKey (fields : list string) (docs : list Doc)
      (d1 d2 : Doc) :
  In d1 docs -> In d2 docs ->
  sameGroup (groupDocuments fields docs) d1 d2
  <-> groupKey fields d1 = groupKey fields d2.
Proof.
  intros H1 H2. split.
  - intros [key [ms [Hin [Hd1 Hd2]]]].
    apply In_lookupGroup in Hin; [|apply NoDup_keys_groupDocuments].
    pose proof (membersOf_groupDocuments fields docs key) as Hm.
    unfold membersOf in Hm. rewrite Hin in Hm. subst ms.
    apply filter_In in Hd1, Hd2.
    destruct Hd1 as [_ Hd1], Hd2 as [_ Hd2].
    apply String.eqb_eq in Hd1, Hd2. congruence.
  - intros Hkey.
    pose proof (membersOf_groupDocuments fields docs (groupKey fields d1)) as Hm.
    assert (In d1 (membersOf (groupKey fields d1) (groupDocuments fields docs)))
      as Hd1 by (rewrite Hm; apply filter_In; split;
                 [assumption | apply String.eqb_refl]).
    assert (In d2 (membersOf (groupKey fields d1) (groupDocuments fields docs)))
      as Hd2 by (rewrite Hm; apply filter_In; split;
                 [assumption | rewrite Hkey; apply String.eqb_refl]).
    unfold membersOf in Hd1, Hd2.
    destruct (lookupGroup _ _) as [ms|] eqn:E; [|destruct Hd1].
    exists (groupKey fields d1), ms. split; [|split]; try assumption.
    now apply lookupGroup_In.
Qed.

Lemma occursIn_tail (substr s : string) (c : ascii) :
  occursIn substr s -> occursIn substr (String c s).
Proof. intros [pre [post ->]]. now exists (String c pre), post. Qed.

Lemma pipe_occurs_at_head (s : string) : occursIn "|" (String "|"%char s).
Proof. now exists "", s. Qed.

(** Texts without a pipe are recovered from their join by a pipe. *)
Lemma pipe_split_unique (a b r r' : string) :
  pipeFree a -> pipeFree b ->
  a ++ "|" ++ r = b ++ "|" ++ r' -> a = b /\ r = r'.
Proof.
  unfold pipeFree. rewrite !Contains_false.
  revert b. induction a as [|c a IH]; intros [|c' b] Ha Hb H; simpl in H.
  - injection H as ->. now split.
  - injection H as <- _. destruct Hb. apply pipe_occurs_at_head.
  - injection H as -> _. destruct Ha. apply pipe_occurs_at_head.
  - injection H as -> H.
    destruct (IH b) as [-> ->]; try assumption; [| |now split];
      intros Ho; [apply Ha | apply Hb]; now apply occursIn_tail.
Qed.

Lemma Join_pipe_injective (l1 l2 : list string) :
  List.length l1 = List.length l2 ->
  Forall pipeFree l1 -> Forall pipeFree l2 ->
  Join l1 "|" = Join l2 "|" -> l1 = l2.
Proof.
  revert l2. induction l1 as [|a l1 IH]; intros [|b l2] Hlen H1 H2 H;
    try discriminate; [reflexivity|].
  inversion H1 as [|? ? Ha H1']; subst. inversion H2 as [|? ? Hb H2']; subst.
  destruct l1 as [|x l1], l2 as [|y l2]; try discriminate.
  - simpl in H. now subst.
  - change (a ++ "|" ++ Join (x :: l1) "|" = b ++ "|" ++ Join (y :: l2) "|") in H.
    apply pipe_split_unique in H; try assumption. destruct H as [-> H].
    f_equal. apply IH; try assumption. simpl in Hlen |- *. lia.
Qed.

Lemma keyParts_equal_iff (fields : list string) (d1 d2 : Doc) :
  keyParts fields d1 = keyParts fields d2
  <-> forall f, In f fields -> groupValueText d1 f = groupValueText d2 f.
Proof. unfold keyParts. apply map_ext_in_iff. Qed.

(** C6, as the code has it.  Two of the filtered documents are in the same
    group exactly when their composite keys are equal.  Documents whose
    stringified group values agree field by field are always in the same
    group; the converse holds when there is at most one group field, or when
    none of the stringified group values of the two documents contains the
    pipe. *)
Theorem grouping_by_composite_key
        (fields : list string) (docs : list Doc) (d1 d2 : Doc) :
  In d1 docs -> In d2 docs ->
  (sameGroup (groupDocuments fields docs) d1 d2
   <-> groupKey fields d1 = groupKey fields d2)
  /\ ((forall f, In f fields -> groupValueText d1 f = groupValueText d2 f) ->
      sameGroup (groupDocuments fields docs) d1 d2)
  /\ ((List.length fields <= 1)%nat
      \/ (forall f, In f fields ->
                    pipeFree (groupValueText d1 f) /\ pipeFree (groupValueText d2 f)) ->
      sameGroup (groupDocuments fields docs) d1 d2 ->
      forall f, In f fields -> groupValueText d1 f = groupValueText d2 f).
Proof.
  intros H1 H2.
  pose proof (sameGroup_iff_groupKey fields docs d1 d2 H1 H2) as Hkey.
  split; [exact Hkey|]. split.
  - intros Heq. apply Hkey. unfold groupKey. f_equal.
    now apply keyParts_equal_iff.
  - intros Hcond Hsame. apply keyParts_equal_iff.
    apply Hkey in Hsame. unfold groupKey in Hsame.
    destruct Hcond as [Hlen|Hfree].
    + unfold keyParts in *. destruct fields as [|f [|f' fields]];
        simpl in *; [reflexivity | now rewrite Hsame | lia].
    + apply Join_pipe_injective; try assumption.
      * unfold keyParts. now rewrite !length_map.
      * unfold keyParts. apply Forall_forall. intros s Hs.
        apply in_map_iff in Hs. destruct Hs as [f [<- Hf]]. now apply Hfree.
      * unfold keyParts. apply Forall_forall. intros s Hs.
        apply in_map_iff in Hs. destruct Hs as [f [<- Hf]]. now apply Hfree.
Qed.

End GroupingProperties.

(** ** The AVG aggregate and the limit after the sort *)

Section AggregationProperties.

Context {conv : FloatConv}.

(** The values of [field] that coerce to a float, over the members of a
    group, in their order. *)
Definition coercedValues (field : string) (groupDocs : list Doc) : list float :=
  flat_map (fun doc => match coerced field doc with
                       | Some numVal => [numVal]
                       | None => []
                       end) groupDocs.

Lemma avgLoop_from (field : string) (groupDocs : list Doc) (sum : float)
      (count : Z) :
  fold_left (fun '(sum, count) doc =>
               match coerced field doc with
               | Some numVal => (PrimFloat.add sum numVal, count + 1)
               | None => (sum, count)
               end) groupDocs (sum, count)
  = (fold_left PrimFloat.add (coercedValues field groupDocs) sum,
     count + Z.of_nat (List.length (coercedValues field groupDocs))).
Proof.
  revert sum count. induction groupDocs as [|doc groupDocs IH]; intros sum count.
  - simpl. f_equal. lia.
  - simpl. destruct (coerced field doc) as [numVal|]; rewrite IH; simpl.
    + f_equal. lia.
    + reflexivity.
Qed.

Lemma avgLoop_spec (field : string) (groupDocs : list Doc) :
  avgLoop field groupDocs
  = (fold_left PrimFloat.add (coercedValues field groupDocs) PrimFloat.zero,
     Z.of_nat (List.length (coercedValues field groupDocs))).
Proof. unfold avgLoop. now rewrite avgLoop_from. Qed.

(** C7, as the code has it: the AVG of a group is always a float64, never
    an error.  The loop leaves the sum of the values that coerced and their
    number; the result is that sum divided by that number when the number
    is not zero, the only case in which the division is made, and it is
    0.0, which is not a NaN, when no value coerced.  So the result is a NaN
    only for a group with a value that coerced, as the quotient of the sum
    by the number: division by zero never gives one, the values can. *)
Theorem avg_of_group (field alias : string) (groupDocs : list Doc) :
  let values := coercedValues field groupDocs in
  let sum := fold_left PrimFloat.add values PrimFloat.zero in
  let count := Z.of_nat (List.length values) in
  aggregateValue (mkAggregateInfo "AVG" field alias) groupDocs
  = VFloat64 (avgValue field groupDocs)
  /\ convertToFloat (aggregateValue (mkAggregateInfo "AVG" field alias) groupDocs)
     = Some (avgValue field groupDocs)
  /\ avgLoop field groupDocs = (sum, count)
  /\ avgValue field groupDocs
     = (if 0 <? count then PrimFloat.div sum (float64_of_Z count)
        else PrimFloat.zero)
  /\ (values <> [] ->
      0 < count
      /\ avgValue field groupDocs = PrimFloat.div sum (float64_of_Z count))
  /\ (values = [] ->
      avgValue field groupDocs = PrimFloat.zero
      /\ PrimFloat.is_nan (avgValue field groupDocs) = false)
  /\ (PrimFloat.is_nan (avgValue field groupDocs) = true ->
      values <> []
      /\ avgValue field groupDocs = PrimFloat.div sum (float64_of_Z count)).
Proof.
  cbv zeta.
  assert (avgValue field groupDocs
          = if 0 <? Z.of_nat (List.length (coercedValues field groupDocs))
            then PrimFloat.div
                   (fold_left PrimFloat.add (coercedValues field groupDocs)
                              PrimFloat.zero)
                   (float64_of_Z
                      (Z.of_nat (List.length (coercedValues field groupDocs))))
            else PrimFloat.zero) as Havg
      by (unfold avgValue; now rewrite avgLoop_spec).
  split; [reflexivity|]. split; [reflexivity|].
  split; [apply avgLoop_spec|]. split; [exact Havg|]. split.
  - intros Hsome. rewrite Havg.
    destruct (coercedValues field groupDocs) as [|v vs]; [contradiction|].
    split; [simpl; lia | reflexivity].
  - split.
    + intros Hnone. rewrite Havg, Hnone. split; reflexivity.
    + rewrite Havg.
      destruct (coercedValues field groupDocs) as [|v vs].
      * intros Hnan. discriminate Hnan.
      * intros _. split; [discriminate | reflexivity].
Qed.

(** The limit of step 4 cuts the sorted results to their first [Limit]
    entries when it is positive and below their number, and leaves them as
    they are otherwise. *)
Lemma applyLimit_truncates (queryInfo : QueryInfo)
      (results : list AggregatedResult) :
  applyLimit queryInfo results
  = if (0 <? Limit queryInfo) && (Limit queryInfo <? Z.of_nat (List.length results))
    then firstn (Z.to_nat (Limit queryInfo)) results
    else results.
Proof. reflexivity. Qed.

Lemma applyLimit_length (queryInfo : QueryInfo)
      (results : list AggregatedResult) :
  0 < Limit queryInfo ->
  Z.of_nat (List.length (applyLimit queryInfo results))
  = Z.min (Limit queryInfo) (Z.of_nat (List.length results)).
Proof.
  intros Hpos. unfold applyLimit.
  destruct (Z.ltb_spec 0 (Limit queryInfo)); [|lia]. simpl.
  destruct (Z.ltb_spec (Limit queryInfo) (Z.of_nat (List.length results))).
  - rewrite length_firstn. lia.
  - lia.
Qed.

Lemma exchangePass_Permutation
      (swap : AggregatedResult -> AggregatedResult -> bool)
      (x : AggregatedResult) (rest : list AggregatedResult) :
  Permutation (x :: rest)
              (fst (exchangePass swap x rest) :: snd (exchangePass swap x rest)).
Proof.
  revert x. induction rest as [|y rest IH]; intros x; simpl.
  - reflexivity.
  - destruct (swap x y).
    + specialize (IH y). destruct (exchangePass swap y rest) as [x' r']. simpl in *.
      etransitivity; [apply perm_skip, IH | apply perm_swap].
    + specialize (IH x). destruct (exchangePass swap x rest) as [x' r']. simpl in *.
      etransitivity; [apply perm_swap|].
      etransitivity; [apply perm_skip, IH | apply perm_swap].
Qed.

(** The sort of step 3 rearranges the results and loses none. *)
Lemma exchangeSort_Permutation
      (swap : AggregatedResult -> AggregatedResult -> bool) (n : nat)
      (results : list AggregatedResult) :
  Permutation results (exchangeSort swap n results).
Proof.
  revert results. induction n as [|n IH]; intros [|x rest]; simpl;
    try reflexivity.
  pose proof (exchangePass_Permutation swap x rest) as H.
  destruct (exchangePass swap x rest) as [x' rest']. simpl in H.
  rewrite H. constructor. apply IH.
Qed.

Lemma applyOrderBy_length (queryInfo : QueryInfo)
      (results : list AggregatedResult) :
  List.length (applyOrderBy queryInfo results) = List.length results.
Proof.
  unfold applyOrderBy. destruct (negb _); [|reflexivity].
  rewrite <- (Permutation_length (exchangeSort_Permutation _ _ _)).
  apply length_map.
Qed.

(** However the groups are visited, there are as many results as groups, cut
    to the limit when the plan has one. *)
Lemma groupByResults_number (queryInfo : QueryInfo) (docs : list Snapshot)
      (results : list AggregatedResult) :
  groupByResults queryInfo docs results ->
  exists filteredData,
    allData (applyManualFiltering docs (AdditionalFilters queryInfo))
    = Some filteredData
    /\ let groups := groupDocuments (GroupByFields queryInfo) filteredData in
       Z.of_nat (List.length results)
       = if 0 <? Limit queryInfo
         then Z.min (Limit queryInfo) (Z.of_nat (List.length groups))
         else Z.of_nat (List.length groups).
Proof.
  intros [filteredData [visited [Hdata [Hperm ->]]]].
  exists filteredData. split; [exact Hdata|]. cbv zeta.
  apply Permutation_length in Hperm. rewrite Hperm.
  unfold aggregatedResults.
  assert (List.length (applyOrderBy queryInfo
                         (map (aggregateGroup queryInfo) (map snd visited)))
          = List.length visited) as Hlen
      by (now rewrite applyOrderBy_length, !length_map).
  destruct (Z.ltb_spec 0 (Limit queryInfo)) as [Hpos|Hnone].
  - rewrite applyLimit_length by assumption. now rewrite Hlen.
  - unfold applyLimit. destruct (Z.ltb_spec 0 (Limit queryInfo)); [lia|].
    simpl. now rewrite Hlen.
Qed.

Lemma allData_total (docs : list Snapshot) :
  Forall (fun doc => doc <> NilSnapshot) docs ->
  exists data, allData docs = Some data.
Proof.
  induction 1 as [|doc docs Hdoc _ [data IH]]; simpl.
  - now exists [].
  - unfold bind. rewrite IH.
    destruct doc as [|[d|]]; [contradiction | now eexists | now eexists].
Qed.

Lemma applyManualFiltering_keeps (P : Snapshot -> Prop) (docs : list Snapshot)
      (filters : list FilterInfo) :
  Forall P docs -> Forall P (applyManualFiltering docs filters).
Proof.
  intros H. unfold applyManualFiltering.
  destruct (_ =? _)%nat; [assumption|]. destruct (_ =? _)%nat; [assumption|].
  rewrite Forall_forall in *. intros doc Hdoc. apply filter_In in Hdoc.
  now apply H.
Qed.

(** With no nil snapshot among the documents, the aggregation has a result. *)
Lemma groupByResults_total (queryInfo : QueryInfo) (docs : list Snapshot) :
  Forall (fun doc => doc <> NilSnapshot) docs ->
  exists results, groupByResults queryInfo docs results.
Proof.
  intros H.
  destruct (allData_total (applyManualFiltering docs (AdditionalFilters queryInfo)))
    as [data Hdata]; [now apply applyManualFiltering_keeps|].
  eexists. exists data. eexists. split; [exact Hdata|]. split; reflexivity.
Qed.

End AggregationProperties.

(** * Further properties of the grouping engine *)

(** ** The order of floats *)

Lemma SFltb_trans (x y z : spec_float) :
  SFltb x y = true -> SFltb y z = true -> SFltb x z = true.
Proof.
  unfold SFltb, SFcompare.
  destruct x as [[]|[]| |[] m1 e1], y as [[]|[]| |[] m2 e2],
           z as [[]|[]| |[] m3 e3];
    simpl; try discriminate; try reflexivity; intros H1 H2.
  - destruct (Z.compare_spec e1 e2), (Z.compare_spec e2 e3);
      simpl in *; try discriminate; subst.
    + rewrite Z.compare_refl. simpl.
      change (Pos.compare_cont Eq ?a ?b) with (Pos.compare a b) in *.
      destruct (Pos.compare_spec m1 m2), (Pos.compare_spec m2 m3);
        simpl in *; try discriminate.
      destruct (Pos.compare_spec m1 m3); simpl; try reflexivity; lia.
    + destruct (Z.compare_spec e2 e3); simpl; try reflexivity; lia.
    + destruct (Z.compare_spec e1 e3); simpl; try reflexivity; lia.
    + destruct (Z.compare_spec e1 e3); simpl; try reflexivity; lia.
  - destruct (Z.compare_spec e1 e2), (Z.compare_spec e2 e3);
      simpl in *; try discriminate; subst.
    + rewrite Z.compare_refl. simpl.
      change (Pos.compare_cont Eq ?a ?b) with (Pos.compare a b) in *.
      destruct (Pos.compare_spec m1 m2), (Pos.compare_spec m2 m3);
        simpl in *; try discriminate.
      destruct (Pos.compare_spec m1 m3); simpl; try reflexivity; lia.
    + destruct (Z.compare_spec e2 e3); simpl; try reflexivity; lia.
    + destruct (Z.compare_spec e1 e3); simpl; try reflexivity; lia.
    + destruct (Z.compare_spec e1 e3); simpl; try reflexivity; lia.
Qed.

Lemma SFltb_irrefl (x : spec_float) : SFltb x x = false.
Proof.
  unfold SFltb, SFcompare. destruct x as [[]|[]| |[] m e]; simpl;
    try reflexivity; rewrite Z.compare_refl;
    change (Pos.compare_cont Eq m m) with (Pos.compare m m);
    now rewrite Pos.compare_refl.
Qed.

(** Go's [<] on float64 is transitive and irreflexive, NaN included. *)
Lemma float_ltb_trans (x y z : float) :
  PrimFloat.ltb x y = true -> PrimFloat.ltb y z = true ->
  PrimFloat.ltb x z = true.
Proof. rewrite !ltb_spec. apply SFltb_trans. Qed.

Lemma float_ltb_irrefl (x : float) : PrimFloat.ltb x x = false.
Proof. rewrite ltb_spec. apply SFltb_irrefl. Qed.

Lemma float_ltb_asym (x y : float) :
  PrimFloat.ltb x y = true -> PrimFloat.ltb y x = false.
Proof.
  intros H. destruct (PrimFloat.ltb y x) eqn:E; [|reflexivity].
  pose proof (float_ltb_trans _ _ _ H E) as T.
  now rewrite float_ltb_irrefl in T.
Qed.

(** ** The exchange sort *)

Section ExchangeSort.

Variable swap : AggregatedResult -> AggregatedResult -> bool.
Hypothesis swap_trans :
  forall a b c, swap a b = true -> swap b c = true -> swap a c = true.
Hypothesis swap_asym : forall a b, swap a b = true -> swap b a = false.

(** The result the inner loop leaves at position [i] is the one it started
    with, or one that had to come before it. *)
Lemma exchangePass_head (x : AggregatedResult) (rest : list AggregatedResult) :
  fst (exchangePass swap x rest) = x
  \/ swap x (fst (exchangePass swap x rest)) = true.
Proof.
  revert x. induction rest as [|y rest IH]; intros x; simpl; [now left|].
  destruct (swap x y) eqn:E.
  - specialize (IH y). destruct (exchangePass swap y rest) as [x' r']. simpl in *.
    right. destruct IH as [->|IH]; [assumption | eauto].
  - specialize (IH x). now destruct (exchangePass swap x rest) as [x' r'].
Qed.

(** After the inner loop, nothing behind position [i] has to come before
    the result at [i]. *)
Lemma exchangePass_settles (x : AggregatedResult) (rest : list AggregatedResult) :
  Forall (fun z => swap (fst (exchangePass swap x rest)) z = false)
         (snd (exchangePass swap x rest)).
Proof.
  revert x. induction rest as [|y rest IH]; intros x; simpl; [constructor|].
  destruct (swap x y) eqn:E.
  - pose proof (exchangePass_head y rest) as Hh. specialize (IH y).
    destruct (exchangePass swap y rest) as [x' r']. simpl in *.
    constructor; [|assumption].
    apply swap_asym. destruct Hh as [->|Hh]; [assumption | eauto].
  - pose proof (exchangePass_head x rest) as Hh. specialize (IH x).
    destruct (exchangePass swap x rest) as [x' r']. simpl in *.
    constructor; [|assumption].
    destruct Hh as [->|Hh]; [assumption|].
    destruct (swap x' y) eqn:E'; [|reflexivity].
    rewrite (swap_trans _ _ _ Hh E') in E. discriminate.
Qed.

Lemma exchangePass_length (x : AggregatedResult) (rest : list AggregatedResult) :
  List.length (snd (exchangePass swap x rest)) = List.length rest.
Proof.
  pose proof (Permutation_length (exchangePass_Permutation swap x rest)) as H.
  simpl in H. lia.
Qed.

Lemma exchangeSort_ordered (n : nat) (results : list AggregatedResult) :
  (List.length results <= n)%nat ->
  ForallOrdPairs (fun a b => swap a b = false) (exchangeSort swap n results).
Proof.
  revert results. induction n as [|n IH]; intros [|x rest] Hlen; simpl in *;
    try constructor; try lia.
  pose proof (exchangePass_settles x rest) as Hs.
  pose proof (exchangePass_length x rest) as Hl.
  destruct (exchangePass swap x rest) as [x' rest']. simpl in *.
  constructor.
  - eapply Permutation_Forall; [apply exchangeSort_Permutation | exact Hs].
  - apply IH. lia.
Qed.

End ExchangeSort.

Lemma ForallOrdPairs_weaken (A : Type) (R R' : A -> A -> Prop) (l : list A) :
  (forall a b, R a b -> R' a b) -> ForallOrdPairs R l -> ForallOrdPairs R' l.
Proof.
  intros Himp. induction 1 as [|a l Ha _ IH]; constructor; [|exact IH].
  eapply Forall_impl; [|exact Ha]. apply Himp.
Qed.

Section OrderingProperties.

Context {conv : FloatConv}.

Lemma shouldSwap_trans (queryInfo : QueryInfo) (a b c : AggregatedResult) :
  shouldSwap queryInfo a b = true -> shouldSwap queryInfo b c = true ->
  shouldSwap queryInfo a c = true.
Proof.
  unfold shouldSwap. destruct (String.eqb _ _); eauto using float_ltb_trans.
Qed.

Lemma shouldSwap_asym (queryInfo : QueryInfo) (a b : AggregatedResult) :
  shouldSwap queryInfo a b = true -> shouldSwap queryInfo b a = false.
Proof.
  unfold shouldSwap. destruct (String.eqb _ _); apply float_ltb_asym.
Qed.

(** What a result shows in the frame: its group values and its aggregate
    values. *)
Definition rowOf (result : AggregatedResult) : list Any * list Any :=
  (GroupValues result, AggregateValues result).

Lemma rowOf_withRecoveredSortValue (queryInfo : QueryInfo)
      (result : AggregatedResult) :
  rowOf (withRecoveredSortValue queryInfo result) = rowOf result.
Proof. unfold withRecoveredSortValue. now destruct (PrimFloat.eqb _ _). Qed.

(** X1: after step 3, with an ORDER BY in the plan, no result stands behind
    one it had to come before: under DESC no later result has a strictly
    larger sort value than an earlier one, and otherwise none has a strictly
    smaller one.  Results whose sort value is a NaN compare with nothing and
    may stand anywhere. *)
Theorem applyOrderBy_ordered (queryInfo : QueryInfo)
        (results : list AggregatedResult) :
  OrderField queryInfo <> "" ->
  ForallOrdPairs
    (fun earlier later =>
       if String.eqb (OrderDirection queryInfo) "DESC"
       then PrimFloat.ltb (SortValue earlier) (SortValue later) = false
       else PrimFloat.ltb (SortValue later) (SortValue earlier) = false)
    (applyOrderBy queryInfo results).
Proof.
  intros Horder. unfold applyOrderBy.
  apply String.eqb_neq in Horder. rewrite Horder. simpl.
  pose proof (exchangeSort_ordered (shouldSwap queryInfo)
                (shouldSwap_trans queryInfo) (shouldSwap_asym queryInfo)
                (List.length (map (withRecoveredSortValue queryInfo) results))
                (map (withRecoveredSortValue queryInfo) results) (le_n _)) as H.
  eapply ForallOrdPairs_weaken; [|exact H].
  intros a b Hab. unfold shouldSwap in Hab.
  now destruct (String.eqb (OrderDirection queryInfo) "DESC").
Qed.

(** X2: step 3 rearranges the rows and changes none: the group values and
    aggregate values of the results after it are those before it, in some
    order (only the sort values may have been recovered). *)
Theorem applyOrderBy_keeps_rows (queryInfo : QueryInfo)
        (results : list AggregatedResult) :
  Permutation (map rowOf results) (map rowOf (applyOrderBy queryInfo results)).
Proof.
  unfold applyOrderBy. destruct (negb _); [|reflexivity].
  etransitivity;
    [|apply Permutation_map, exchangeSort_Permutation].
  rewrite map_map.
  erewrite map_ext; [reflexivity|].
  intros r. symmetry. apply rowOf_withRecoveredSortValue.
Qed.

End OrderingProperties.

(** ** SUM, MIN and MAX *)

Section AggregateProperties.

Context {conv : FloatConv}.

Lemma sumLoop_from (field : string) (groupDocs : list Doc) (sum : float) :
  fold_left (fun sum doc =>
               match coerced field doc with
               | Some numVal => PrimFloat.add sum numVal
               | None => sum
               end) groupDocs sum
  = fold_left PrimFloat.add (coercedValues field groupDocs) sum.
Proof.
  revert sum. induction groupDocs as [|doc groupDocs IH]; intros sum; simpl.
  - reflexivity.
  - destruct (coerced field doc); simpl; apply IH.
Qed.

(** X3: SUM adds up, in the order of the group, the values of the field
    that are there and coerce, and skips the others; AVG is that SUM divided
    by the number of values added when there is one at least, and both are
    0.0 when there is none. *)
Theorem sum_and_avg (field : string) (groupDocs : list Doc) :
  let values := coercedValues field groupDocs in
  sumLoop field groupDocs = fold_left PrimFloat.add values PrimFloat.zero
  /\ avgValue field groupDocs
     = match values with
       | [] => PrimFloat.zero
       | _ :: _ => PrimFloat.div (sumLoop field groupDocs)
                                 (float64_of_Z (Z.of_nat (List.length values)))
       end
  /\ (values = [] -> sumLoop field groupDocs = PrimFloat.zero).
Proof.
  cbv zeta.
  assert (sumLoop field groupDocs
          = fold_left PrimFloat.add (coercedValues field groupDocs)
                      PrimFloat.zero) as Hsum
      by (unfold sumLoop; apply sumLoop_from).
  split; [exact Hsum|]. split.
  - unfold avgValue. rewrite avgLoop_spec, Hsum.
    destruct (coercedValues field groupDocs) as [|v vs]; reflexivity.
  - intros Hnone. now rewrite Hsum, Hnone.
Qed.

Lemma extremumLoop_from (better : float -> float -> bool) (field : string)
      (groupDocs : list Doc) (best : option float) :
  let loop :=
    fold_left (fun best doc =>
                 match coerced field doc with
                 | Some numVal =>
                     match best with
                     | None => Some numVal
                     | Some b => if better numVal b then Some numVal else best
                     end
                 | None => best
                 end) groupDocs best in
  match loop with
  | Some v => best = Some v \/ In v (coercedValues field groupDocs)
  | None => best = None /\ coercedValues field groupDocs = []
  end.
Proof.
  cbv zeta. revert best.
  induction groupDocs as [|doc groupDocs IH]; intros best; simpl.
  - destruct best; auto.
  - destruct (coerced field doc) as [numVal|] eqn:E; simpl.
    + match goal with |- context [fold_left ?f groupDocs ?b] =>
                      specialize (IH b); destruct (fold_left f groupDocs b) end.
      * destruct IH as [IH|IH]; [|auto].
        destruct best as [b|]; [|injection IH as <-; auto].
        destruct (better numVal b); [injection IH as <-; auto | auto].
      * destruct IH as [IH _]. destruct best as [b|]; [|discriminate].
        destruct (better numVal b); discriminate.
    + apply IH.
Qed.

(** X4: MIN and MAX return one of the values that coerced when there is
    one, never a value no member has; they return 0.0 when no value
    coerced, and the loop ends without a value exactly then. *)
Theorem min_max_among_values (field alias : string) (groupDocs : list Doc) :
  let values := coercedValues field groupDocs in
  (forall fn, fn = "MIN" \/ fn = "MAX" ->
     exists v, aggregateValue (mkAggregateInfo fn field alias) groupDocs
               = VFloat64 v
               /\ (values = [] -> v = PrimFloat.zero)
               /\ (values <> [] -> In v values))
  /\ (extremumLoop PrimFloat.ltb field groupDocs = None <-> values = []).
Proof.
  cbv zeta. split.
  - intros fn [-> | ->].
    + pose proof (extremumLoop_from PrimFloat.ltb field groupDocs None) as H.
      cbv zeta in H. change (fold_left _ groupDocs None)
        with (extremumLoop PrimFloat.ltb field groupDocs) in H.
      exists (orZero (extremumLoop PrimFloat.ltb field groupDocs)).
      split; [reflexivity|].
      destruct (extremumLoop PrimFloat.ltb field groupDocs) as [v|]; simpl.
      * destruct H as [H|H]; [discriminate|].
        split; [intros E; rewrite E in H; destruct H | auto].
      * destruct H as [_ H]. split; [reflexivity | contradiction].
    + pose proof (extremumLoop_from (fun x y => PrimFloat.ltb y x)
                                    field groupDocs None) as H.
      cbv zeta in H. change (fold_left _ groupDocs None)
        with (extremumLoop (fun x y => PrimFloat.ltb y x) field groupDocs) in H.
      exists (orZero (extremumLoop (fun x y => PrimFloat.ltb y x) field groupDocs)).
      split; [reflexivity|].
      destruct (extremumLoop _ field groupDocs) as [v|]; simpl.
      * destruct H as [H|H]; [discriminate|].
        split; [intros E; rewrite E in H; destruct H | auto].
      * destruct H as [_ H]. split; [reflexivity | contradiction].
  - pose proof (extremumLoop_from PrimFloat.ltb field groupDocs None) as H.
    cbv zeta in H. change (fold_left _ groupDocs None)
      with (extremumLoop PrimFloat.ltb field groupDocs) in H.
    destruct (extremumLoop PrimFloat.ltb field groupDocs) as [v|].
    + destruct H as [H|H]; [discriminate|].
      split; [discriminate | intros E; rewrite E in H; destruct H].
    + destruct H as [_ H]. split; auto.
Qed.

(** ** The groups divide the documents *)

Lemma appendToGroup_members (key : string) (d : Doc)
      (groups : list (string * list Doc)) :
  Permutation (List.concat (map snd (appendToGroup key d groups)))
              (d :: List.concat (map snd groups)).
Proof.
  induction groups as [|[k ms] groups IH]; simpl.
  - reflexivity.
  - destruct (String.eqb k key); simpl.
    + rewrite <- app_assoc. simpl.
      symmetry. apply Permutation_middle.
    + rewrite IH. symmetry. apply Permutation_middle.
Qed.

Lemma appendToGroup_nonempty (key : string) (d : Doc)
      (groups : list (string * list Doc)) :
  Forall (fun g => snd g <> []) groups ->
  Forall (fun g => snd g <> []) (appendToGroup key d groups).
Proof.
  induction 1 as [|[k ms] groups Hg Hgs IH]; simpl.
  - repeat constructor. discriminate.
  - destruct (String.eqb k key); constructor; simpl in *; try assumption.
    destruct ms; discriminate.
Qed.

Lemma fold_left_invariant {A B : Type} (P : A -> Prop) (f : A -> B -> A)
      (l : list B) (a : A) :
  P a -> (forall x b, P x -> P (f x b)) -> P (fold_left f l a).
Proof.
  intros Ha Hf. revert a Ha. induction l as [|b l IH]; intros a Ha; simpl; auto.
Qed.

(** X5: the grouping step loses no document and counts none twice: the
    members of all the groups together are the documents, the keys of the
    groups are pairwise distinct, no group is empty (so there is always a
    first member to take the group values from), and the members of a group
    are exactly the documents with the group's key, in the order they came. *)
Theorem groupDocuments_divides (fields : list string) (docs : list Doc) :
  let groups := groupDocuments fields docs in
  Permutation (List.concat (map snd groups)) docs
  /\ NoDup (map fst groups)
  /\ Forall (fun g => snd g <> []) groups
  /\ Forall (fun g => snd g
                      = filter (fun d => String.eqb (groupKey fields d) (fst g))
                               docs) groups.
Proof.
  cbv zeta. split; [|split; [|split]].
  - unfold groupDocuments.
    enough (forall groups,
               Permutation
                 (List.concat (map snd
                    (fold_left (fun g d => appendToGroup (groupKey fields d) d g)
                               docs groups)))
                 (List.concat (map snd groups) ++ docs)) as H by apply (H []).
    induction docs as [|d docs IH]; intros groups; simpl.
    + now rewrite app_nil_r.
    + rewrite IH, appendToGroup_members. apply Permutation_middle.
  - apply NoDup_keys_groupDocuments.
  - unfold groupDocuments. apply fold_left_invariant; [constructor|].
    intros g d Hg. now apply appendToGroup_nonempty.
  - apply Forall_forall. intros [k ms] Hin. simpl.
    apply In_lookupGroup in Hin; [|apply NoDup_keys_groupDocuments].
    pose proof (membersOf_groupDocuments fields docs k) as Hm.
    unfold membersOf in Hm. now rewrite Hin in Hm.
Qed.

End AggregateProperties.

(** ** Filters are conjunctive *)

Section FilterComposition.

Context {conv : FloatConv}.

Lemma passesFilters_app (docData : Doc) (fs1 fs2 : list FilterInfo) :
  passesFilters docData (fs1 ++ fs2)
  = passesFilters docData fs1 && passesFilters docData fs2.
Proof.
  induction fs1 as [|f fs1 IH]; simpl; [reflexivity|].
  destruct (isNil _); [reflexivity|].
  destruct (String.eqb (filterOperator f) "==" && negb (String.eqb _ _));
    [reflexivity | exact IH].
Qed.

Lemma keepsSnapshot_app (fs1 fs2 : list FilterInfo) (doc : Snapshot) :
  keepsSnapshot (fs1 ++ fs2) doc
  = keepsSnapshot fs1 doc && keepsSnapshot fs2 doc.
Proof.
  destruct doc as [|[docData|]]; simpl; try reflexivity.
  apply passesFilters_app.
Qed.

Lemma filter_andb (A : Type) (f g : A -> bool) (l : list A) :
  filter (fun x => f x && g x) l = filter g (filter f l).
Proof.
  induction l as [|x l IH]; simpl; [reflexivity|].
  destruct (f x); simpl; [destruct (g x); now rewrite IH | exact IH].
Qed.

Lemma applyManualFiltering_filter (docs : list Snapshot)
      (filters : list FilterInfo) :
  filters <> [] ->
  applyManualFiltering docs filters = filter (keepsSnapshot filters) docs.
Proof.
  intros Hne. unfold applyManualFiltering.
  destruct filters as [|f filters]; [contradiction|]. simpl.
  now destruct docs.
Qed.

(** X6: the filters of a plan are a conjunction: filtering by two lists of
    filters one after the other is filtering by the two lists put together,
    and the two lists can be applied in either order. *)
Theorem applyManualFiltering_conjunction
        (docs : list Snapshot) (fs1 fs2 : list FilterInfo) :
  applyManualFiltering docs (fs1 ++ fs2)
  = applyManualFiltering (applyManualFiltering docs fs1) fs2
  /\ applyManualFiltering (applyManualFiltering docs fs1) fs2
     = applyManualFiltering (applyManualFiltering docs fs2) fs1.
Proof.
  assert (forall a b,
             applyManualFiltering docs (a ++ b)
             = applyManualFiltering (applyManualFiltering docs a) b) as Happ.
  { intros a b. destruct a as [|f a]; [reflexivity|].
    destruct b as [|g b].
    - now rewrite app_nil_r.
    - rewrite !applyManualFiltering_filter by discriminate.
      erewrite filter_ext; [apply filter_andb|].
      intros doc. apply keepsSnapshot_app. }
  split; [apply Happ|].
  rewrite <- !Happ.
  destruct fs1 as [|f fs1], fs2 as [|g fs2];
    rewrite ?app_nil_r; try reflexivity.
  rewrite !applyManualFiltering_filter by discriminate.
  apply filter_ext. intros doc. rewrite !keepsSnapshot_app. apply andb_comm.
Qed.

(** A filter whose operator is not [==] tests only that the field is there:
    a document passes it exactly when the field resolves to a value that is
    not nil, whatever the filter's value. *)
Lemma other_operator_tests_presence (docData : Doc) (f : FilterInfo) :
  filterOperator f <> "==" ->
  passesFilters docData [f]
  = negb (isNil (getNestedFieldValue docData (filterField f))).
Proof.
  intros Hop. simpl. apply String.eqb_neq in Hop. rewrite Hop. simpl.
  now destruct (isNil _).
Qed.

End FilterComposition.

(** * Further properties of texts and paths *)

Lemma occursIn_refl (s : string) : occursIn s s.
Proof. exists "", "". simpl. induction s; simpl; congruence. Qed.

Lemma append_assoc (a b c : string) : (a ++ b) ++ c = a ++ (b ++ c).
Proof. induction a as [|x a IH]; simpl; [reflexivity | now rewrite IH]. Qed.

Lemma append_empty_r (a : string) : a ++ "" = a.
Proof. induction a as [|x a IH]; simpl; [reflexivity | now rewrite IH]. Qed.

Lemma occursIn_trans (p s t : string) :
  occursIn p s -> occursIn s t -> occursIn p t.
Proof.
  intros [a [b ->]] [c [d ->]]. exists (c ++ a), (b ++ d).
  now rewrite !append_assoc.
Qed.

Lemma occursIn_app (p a s b : string) :
  occursIn p s -> occursIn p (a ++ s ++ b).
Proof. intros H. eapply occursIn_trans; [exact H | now exists a, b]. Qed.

Lemma mapBytes_app (f : ascii -> ascii) (a b : string) :
  mapBytes f (a ++ b) = mapBytes f a ++ mapBytes f b.
Proof. induction a as [|x a IH]; simpl; [reflexivity | now rewrite IH]. Qed.

Lemma occursIn_mapBytes (f : ascii -> ascii) (p s : string) :
  occursIn p s -> occursIn (mapBytes f p) (mapBytes f s).
Proof.
  intros [a [b ->]]. exists (mapBytes f a), (mapBytes f b).
  now rewrite !mapBytes_app.
Qed.

Lemma TrimLeftFunc_suffix (f : ascii -> bool) (s : string) :
  exists a, s = a ++ TrimLeftFunc f s.
Proof.
  induction s as [|c s [a IH]]; simpl; [now exists ""|].
  destruct (f c); [|now exists ""].
  exists (String c a). simpl. now rewrite <- IH.
Qed.

Lemma TrimRightFunc_prefix (f : ascii -> bool) (s : string) :
  exists b, s = TrimRightFunc f s ++ b.
Proof.
  induction s as [|c s [b IH]]; simpl; [now exists ""|].
  destruct (TrimRightFunc f s) as [|c' r] eqn:E.
  - destruct (f c).
    + now exists (String c s).
    + exists b. simpl in *. now rewrite <- IH.
  - exists b. simpl in *. now rewrite <- IH.
Qed.

(** What [TrimSpace] and [Trim] return is a part of what they are given. *)
Lemma TrimFunc_within (f : ascii -> bool) (s : string) :
  exists a b, s = a ++ TrimFunc f s ++ b.
Proof.
  unfold TrimFunc.
  destruct (TrimLeftFunc_suffix f s) as [a Ha].
  destruct (TrimRightFunc_prefix f (TrimLeftFunc f s)) as [b Hb].
  exists a, b. now rewrite <- Hb.
Qed.

Definition charText (c : ascii) : string := String c EmptyString.

Lemma HasPrefix_char (a c : ascii) (r : string) :
  HasPrefix (String a r) (charText c) = Ascii.eqb a c.
Proof. simpl. apply andb_true_r. Qed.

Lemma splitFrom_nonempty (sep : string) (limit : option nat) (skip : nat)
      (s : string) :
  splitFrom sep limit skip s <> [].
Proof.
  revert limit skip. induction s as [|c s IH]; intros limit skip; simpl;
    [discriminate|].
  destruct skip; [|apply IH].
  destruct (_ && _); [discriminate|].
  destruct (splitFrom sep limit 0 s); discriminate.
Qed.

Lemma Split_char_cons (a c : ascii) (r : string) :
  Split (String a r) (charText c)
  = if Ascii.eqb a c then "" :: Split r (charText c)
    else match Split r (charText c) with
         | p :: ps => String a p :: ps
         | [] => [charText a]
         end.
Proof.
  unfold Split. cbn [splitFrom]. rewrite HasPrefix_char. simpl.
  reflexivity.
Qed.

(** Splitting at a one-byte separator splits at every occurrence of it. *)
Lemma Split_char_app (c : ascii) (p k : string) :
  Split (p ++ String c k) (charText c)
  = (Split p (charText c) ++ Split k (charText c))%list.
Proof.
  induction p as [|a p IH].
  - simpl append. rewrite Split_char_cons, Ascii.eqb_refl. reflexivity.
  - simpl append. rewrite !Split_char_cons, IH.
    destruct (Ascii.eqb a c); [reflexivity|].
    pose proof (splitFrom_nonempty (charText c) None 0 p) as Hne.
    fold (Split p (charText c)) in Hne.
    destruct (Split p (charText c)); [contradiction | reflexivity].
Qed.

Lemma occursIn_char_head (c : ascii) (s : string) :
  occursIn (charText c) (String c s).
Proof. now exists "", s. Qed.

Lemma Split_char_none (c : ascii) (k : string) :
  Contains k (charText c) = false -> Split k (charText c) = [k].
Proof.
  rewrite Contains_false. induction k as [|a k IH]; intros H; [reflexivity|].
  rewrite Split_char_cons.
  destruct (Ascii.eqb a c) eqn:E.
  - apply Ascii.eqb_eq in E. subst a. destruct H. apply occursIn_char_head.
  - rewrite IH; [reflexivity|]. intros Ho. apply H. now apply occursIn_tail.
Qed.

(** ** Resolution of dotted paths *)

Lemma descend_snoc (doc : Doc) (parts : list string) (key : string) :
  parts <> [] ->
  descend doc (parts ++ [key])
  = match descend doc parts with
    | VMap m => index m key
    | _ => VNil
    end.
Proof.
  revert doc. induction parts as [|p parts IH]; intros doc Hne; [contradiction|].
  destruct parts as [|q parts].
  - simpl. now destruct (index doc p).
  - change (descend doc ((p :: q :: parts) ++ [key]))
      with (match index doc p with
            | VMap next => descend next ((q :: parts) ++ [key])
            | _ => VNil
            end).
    change (descend doc (p :: q :: parts))
      with (match index doc p with
            | VMap next => descend next (q :: parts)
            | _ => VNil
            end).
    destruct (index doc p); try reflexivity.
    apply IH. discriminate.
Qed.

Lemma getNestedFieldValue_descend (doc : Doc) (fieldPath : string) :
  getNestedFieldValue doc fieldPath = descend doc (Split fieldPath ".").
Proof.
  unfold getNestedFieldValue.
  destruct (Contains fieldPath ".") eqn:E; cbn [negb]; [reflexivity|].
  pose proof (Split_char_none "."%char fieldPath E) as H.
  unfold charText in H. now rewrite H.
Qed.

(** X7: a dotted path resolves step by step: the value at [path.key], for a
    key without a dot, is the value of [key] in the mapping [path] resolves
    to, and nil when [path] does not resolve to a mapping (the field is
    missing, is nil or holds something else). *)
Theorem getNestedFieldValue_step (doc : Doc) (path key : string) :
  Contains key "." = false ->
  getNestedFieldValue doc (path ++ "." ++ key)
  = match getNestedFieldValue doc path with
    | VMap m => getNestedFieldValue m key
    | _ => VNil
    end.
Proof.
  intros Hkey.
  rewrite (getNestedFieldValue_descend doc (path ++ "." ++ key)).
  rewrite (getNestedFieldValue_descend doc path).
  pose proof (Split_char_app "."%char path key) as Happ.
  pose proof (Split_char_none "."%char key Hkey) as Hnone.
  unfold charText in Happ, Hnone.
  change ("." ++ key) with (String "."%char key).
  rewrite Happ, Hnone.
  rewrite descend_snoc by apply splitFrom_nonempty.
  destruct (descend doc (Split path ".")); try reflexivity.
  unfold getNestedFieldValue. now rewrite Hkey.
Qed.

(** Nothing is found in an empty mapping, whatever the path. *)
Lemma getNestedFieldValue_empty (fieldPath : string) :
  getNestedFieldValue [] fieldPath = VNil.
Proof.
  rewrite getNestedFieldValue_descend.
  pose proof (splitFrom_nonempty "." None 0 fieldPath) as Hne.
  fold (Split fieldPath ".") in Hne.
  destruct (Split fieldPath ".") as [|p [|q parts]]; [contradiction | | ];
    reflexivity.
Qed.

(** * Further properties of the parser *)

(** The steps of [parseClauses], when none of its slices panics. *)
Lemma parseClauses_steps (queryOriginal : string) (selectIdx fromIdx : Z)
      (ix : ClauseIndexes) (info : QueryInfo) :
  parseClauses queryOriginal selectIdx fromIdx ix = Some info ->
  exists fieldsStr i1 collectionStr i3 i4 i5,
    parseAggregateFields fieldsStr emptyQueryInfo = Some i1
    /\ (if whereIdx ix =? -1 then i3 = setCollection collectionStr i1
        else exists w, i3 = parseWhereClause w (setCollection collectionStr i1))
    /\ (if groupIdx ix =? -1 then i4 = i3
        else exists g, i4 = parseGroupBy g i3)
    /\ (if orderIdx ix =? -1 then i5 = i4
        else exists o, i5 = parseOrderBy o i4)
    /\ (info = i5 \/ exists n, info = setLimit n i5).
Proof.
  unfold parseClauses, bind. intros H.
  destruct (option_map TrimSpace (slice queryOriginal (selectIdx + 7) fromIdx))
    as [fieldsStr|]; [|discriminate].
  destruct (parseAggregateFields fieldsStr emptyQueryInfo) as [i1|] eqn:E1;
    [|discriminate].
  destruct (option_map TrimSpace (slice queryOriginal (fromIdx + 6) _))
    as [collectionStr|]; [|discriminate].
  destruct (if negb (whereIdx ix =? -1) then _ else Some _) as [i3|] eqn:E3;
    [|discriminate].
  destruct (if negb (groupIdx ix =? -1) then _ else Some i3) as [i4|] eqn:E4;
    [|discriminate].
  destruct (if negb (orderIdx ix =? -1) then _ else Some i4) as [i5|] eqn:E5;
    [|discriminate].
  exists fieldsStr, i1, collectionStr, i3, i4, i5.
  split; [exact E1|]. split; [|split; [|split]].
  - destruct (whereIdx ix =? -1); simpl in E3.
    + now injection E3 as <-.
    + destruct (whereClauseText queryOriginal ix) as [w|]; [|discriminate].
      injection E3 as <-. now exists w.
  - destruct (groupIdx ix =? -1); simpl in E4.
    + now injection E4 as <-.
    + destruct (option_map TrimSpace
                           (slice queryOriginal (groupIdx ix + 10) _))
        as [g|]; [|discriminate].
      injection E4 as <-. now exists g.
  - destruct (orderIdx ix =? -1); simpl in E5.
    + now injection E5 as <-.
    + destruct (option_map TrimSpace
                           (slice queryOriginal (orderIdx ix + 10) _))
        as [o|]; [|discriminate].
      injection E5 as <-. now exists o.
  - destruct (limitIdx ix =? -1); simpl in H.
    + left. now injection H as <-.
    + destruct (sliceFrom queryOriginal (limitIdx ix + 7)) as [limitStr|];
        [|discriminate].
      simpl in H. destruct (parseLimit (TrimSpace limitStr)) as [n|];
        injection H as <-; [right; now exists n | now left].
Qed.

Lemma parseSQLQueryWithVariables_steps (query : string) (info : QueryInfo) :
  parseSQLQueryWithVariables query = Return info ->
  exists selectIdx fromIdx,
    parseClauses (TrimSpace query) selectIdx fromIdx
                 (clauseIndexes (ToLower (TrimSpace query))) = Some info.
Proof.
  unfold parseSQLQueryWithVariables. destruct (_ || _); [discriminate|].
  destruct (parseClauses _ _ _ _) as [i|] eqn:E; [|discriminate].
  intros [= <-]. eauto.
Qed.

Lemma parseAggregateFields_rest (fieldsStr : string) (info info' : QueryInfo) :
  parseAggregateFields fieldsStr info = Some info' ->
  AdditionalFilters info' = AdditionalFilters info
  /\ OrderField info' = OrderField info
  /\ OrderDirection info' = OrderDirection info
  /\ GroupByFields info' = GroupByFields info.
Proof.
  unfold parseAggregateFields, bind.
  destruct (parseSelectFields _ _); [|discriminate]. intros [= <-].
  repeat split.
Qed.

Definition stringEquality (f : FilterInfo) : Prop :=
  filterOperator f = "==" /\ exists s, filterValue f = VString s.

Lemma equalityFilter_filters (parts : list string) (info : QueryInfo) :
  Forall stringEquality (AdditionalFilters info) ->
  Forall stringEquality (AdditionalFilters (equalityFilter parts info)).
Proof.
  intros H. destruct parts as [|l [|r [|x parts]]]; try assumption.
  simpl. apply Forall_app. split; [assumption|].
  repeat constructor. simpl. eauto.
Qed.

Lemma parseCondition_filters (condition : string) (info : QueryInfo) :
  Forall stringEquality (AdditionalFilters info) ->
  Forall stringEquality (AdditionalFilters (parseCondition condition info)).
Proof.
  intros H. unfold parseCondition.
  repeat match goal with
         | |- context [if ?b then _ else _] => destruct b
         end; auto using equalityFilter_filters.
Qed.

Lemma parseWhereClause_filters (whereClause : string) (info : QueryInfo) :
  Forall stringEquality (AdditionalFilters info) ->
  Forall stringEquality (AdditionalFilters (parseWhereClause whereClause info)).
Proof.
  intros H. unfold parseWhereClause.
  apply (fold_left_invariant
           (fun i => Forall stringEquality (AdditionalFilters i))).
  - destruct (mentionsTimeVariable whereClause); [|assumption].
    now destruct (findTimeField None _).
  - intros i c Hi. now apply parseCondition_filters.
Qed.

Lemma parseGroupBy_filters (groupClause : string) (info : QueryInfo) :
  AdditionalFilters (parseGroupBy groupClause info) = AdditionalFilters info.
Proof.
  unfold parseGroupBy. apply (fold_left_preserves AdditionalFilters).
  intros x b. now destruct (negb _).
Qed.

Lemma parseOrderBy_filters (orderClause : string) (info : QueryInfo) :
  AdditionalFilters (parseOrderBy orderClause info) = AdditionalFilters info.
Proof. unfold parseOrderBy. now destruct (Strings.Fields orderClause). Qed.

Lemma parsed_filters (query : string) (info : QueryInfo) :
  parseSQLQueryWithVariables query = Return info ->
  Forall stringEquality (AdditionalFilters info).
Proof.
  intros H. apply parseSQLQueryWithVariables_steps in H.
  destruct H as (selectIdx & fromIdx & H).
  apply parseClauses_steps in H.
  destruct H as (fieldsStr & i1 & coll & i3 & i4 & i5 & H1 & H3 & H4 & H5 & H6).
  apply parseAggregateFields_rest in H1. destruct H1 as [H1 _]. simpl in H1.
  assert (Forall stringEquality (AdditionalFilters i3)) as F3.
  { destruct (whereIdx _ =? -1).
    - subst i3. simpl. rewrite H1. constructor.
    - destruct H3 as [w ->]. apply parseWhereClause_filters. simpl.
      rewrite H1. constructor. }
  assert (Forall stringEquality (AdditionalFilters i4)) as F4.
  { destruct (groupIdx _ =? -1); [now subst|].
    destruct H4 as [g ->]. now rewrite parseGroupBy_filters. }
  assert (Forall stringEquality (AdditionalFilters i5)) as F5.
  { destruct (orderIdx _ =? -1); [now subst|].
    destruct H5 as [o ->]. now rewrite parseOrderBy_filters. }
  destruct H6 as [->|[n ->]]; assumption.
Qed.

Section ParsedFilters.

Context {conv : FloatConv}.

Lemma applyManualFiltering_equalities (docs : list Snapshot)
      (filters : list FilterInfo) :
  Forall isEquality filters ->
  applyManualFiltering docs filters
  = filter (fun doc => forallb (satisfiesb doc) filters) docs.
Proof.
  intros Heq. destruct filters as [|f filters].
  - simpl. symmetry. now apply filter_all.
  - rewrite applyManualFiltering_filter by discriminate.
    apply filter_ext. intros doc.
    apply keepsSnapshot_equalities; [assumption | discriminate].
Qed.

(** X8: every filter of a plan the parser returns is an equality on a text:
    its operator is [==] and its value is a string, whatever was written in
    the WHERE clause; so on the filters of a parsed plan the manual
    evaluator keeps exactly the documents in which every filter's field
    resolves to a value that is not nil and prints as the filter's text. *)
Theorem parsed_filters_are_text_equalities (query : string) (info : QueryInfo) :
  parseSQLQueryWithVariables query = Return info ->
  Forall (fun f => filterOperator f = "=="
                   /\ exists s, filterValue f = VString s)
         (AdditionalFilters info)
  /\ forall docs,
       applyManualFiltering docs (AdditionalFilters info)
       = filter (fun doc => forallb (satisfiesb doc) (AdditionalFilters info))
                docs.
Proof.
  intros H. pose proof (parsed_filters query info H) as F.
  split; [exact F|]. intros docs. apply applyManualFiltering_equalities.
  eapply Forall_impl; [|exact F]. now intros f [Hop _].
Qed.

End ParsedFilters.

(** ** The ORDER BY of a plan *)

Lemma fieldsFrom_nonempty (s : string) :
  Forall (fun w => w <> "") (snd (fieldsFrom s)).
Proof.
  induction s as [|c s IH]; simpl; [constructor|].
  destruct (fieldsFrom s) as [w fs]. simpl in *.
  destruct (isSpace c); simpl; [|assumption].
  destruct w; [assumption|]. constructor; [discriminate | assumption].
Qed.

(** [strings.Fields] returns no empty field. *)
Lemma Fields_nonempty (s : string) :
  Forall (fun w => w <> "") (Strings.Fields s).
Proof.
  unfold Strings.Fields. pose proof (fieldsFrom_nonempty s) as H.
  destruct (fieldsFrom s) as [w fs]. simpl in H.
  destruct w; [assumption|]. constructor; [discriminate | assumption].
Qed.

Definition orderOf (info : QueryInfo) : string * string :=
  (OrderField info, OrderDirection info).

Lemma parseCondition_order (condition : string) (info : QueryInfo) :
  orderOf (parseCondition condition info) = orderOf info.
Proof.
  unfold parseCondition.
  repeat match goal with
         | |- context [if ?b then _ else _] => destruct b
         end; try reflexivity;
    match goal with
    | |- context [equalityFilter ?p _] =>
        destruct p as [|l [|r [|x p']]]; reflexivity
    end.
Qed.

Lemma parseWhereClause_order (whereClause : string) (info : QueryInfo) :
  orderOf (parseWhereClause whereClause info) = orderOf info.
Proof.
  unfold parseWhereClause.
  rewrite (fold_left_preserves orderOf) by (intros; apply parseCondition_order).
  destruct (mentionsTimeVariable whereClause); [|reflexivity].
  now destruct (findTimeField None _).
Qed.

Lemma parseGroupBy_order (groupClause : string) (info : QueryInfo) :
  orderOf (parseGroupBy groupClause info) = orderOf info.
Proof.
  unfold parseGroupBy. apply (fold_left_preserves orderOf).
  intros x b. now destruct (negb _).
Qed.

Definition orderShape (info : QueryInfo) : Prop :=
  (OrderField info = "" /\ OrderDirection info = "")
  \/ (OrderField info <> ""
      /\ (OrderDirection info = "ASC" \/ OrderDirection info = "DESC")).

Lemma parseOrderBy_shape (orderClause : string) (info : QueryInfo) :
  orderShape info -> orderShape (parseOrderBy orderClause info).
Proof.
  intros H. unfold parseOrderBy.
  pose proof (Fields_nonempty orderClause) as Hf.
  destruct (Strings.Fields orderClause) as [|f rest]; [assumption|].
  inversion Hf as [|? ? Hne _]; subst. right. simpl. split; [assumption|].
  destruct rest as [|d rest]; [now left|].
  destruct (String.eqb (ToUpper d) "DESC"); auto.
Qed.

(** X9: in a plan the parser returns, the order field and the direction go
    together: either there is no order field and no direction, or the order
    field is a non-empty token and the direction is ASC or DESC, one of the
    two the store query and the sort distinguish. *)
Theorem parsed_order_shape (query : string) (info : QueryInfo) :
  parseSQLQueryWithVariables query = Return info ->
  (OrderField info = "" /\ OrderDirection info = "")
  \/ (OrderField info <> ""
      /\ (OrderDirection info = "ASC" \/ OrderDirection info = "DESC")).
Proof.
  intros H. apply parseSQLQueryWithVariables_steps in H.
  destruct H as (selectIdx & fromIdx & H).
  apply parseClauses_steps in H.
  destruct H as (fieldsStr & i1 & coll & i3 & i4 & i5 & H1 & H3 & H4 & H5 & H6).
  apply parseAggregateFields_rest in H1. destruct H1 as (_ & Hf & Hd & _).
  simpl in Hf, Hd.
  assert (orderOf i3 = ("", "")) as O3.
  { destruct (whereIdx _ =? -1).
    - subst i3. unfold orderOf. simpl. now rewrite Hf, Hd.
    - destruct H3 as [w ->]. rewrite parseWhereClause_order.
      unfold orderOf. simpl. now rewrite Hf, Hd. }
  assert (orderOf i4 = ("", "")) as O4.
  { destruct (groupIdx _ =? -1); [now subst|].
    destruct H4 as [g ->]. now rewrite parseGroupBy_order. }
  assert (orderShape i4) as S4.
  { left. unfold orderOf in O4. now injection O4. }
  assert (orderShape i5) as S5.
  { destruct (orderIdx _ =? -1); [now subst|].
    destruct H5 as [o ->]. now apply parseOrderBy_shape. }
  destruct H6 as [->|[n ->]]; exact S5.
Qed.

(** ** Plans with group fields and the router *)

Lemma parseCondition_groups (condition : string) (info : QueryInfo) :
  GroupByFields (parseCondition condition info) = GroupByFields info.
Proof.
  unfold parseCondition.
  repeat match goal with
         | |- context [if ?b then _ else _] => destruct b
         end; try reflexivity;
    match goal with
    | |- context [equalityFilter ?p _] =>
        destruct p as [|l [|r [|x p']]]; reflexivity
    end.
Qed.

Lemma parseWhereClause_groups (whereClause : string) (info : QueryInfo) :
  GroupByFields (parseWhereClause whereClause info) = GroupByFields info.
Proof.
  unfold parseWhereClause.
  rewrite (fold_left_preserves GroupByFields)
    by (intros; apply parseCondition_groups).
  destruct (mentionsTimeVariable whereClause); [|reflexivity].
  now destruct (findTimeField None _).
Qed.

Lemma parseOrderBy_groups (orderClause : string) (info : QueryInfo) :
  GroupByFields (parseOrderBy orderClause info) = GroupByFields info.
Proof. unfold parseOrderBy. now destruct (Strings.Fields orderClause). Qed.

Lemma parsed_groups_need_keyword (query : string) (info : QueryInfo) :
  parseSQLQueryWithVariables query = Return info ->
  GroupByFields info <> [] ->
  findGroupByIndex (ToLower (TrimSpace query)) <> -1.
Proof.
  intros H Hg Hidx. apply Hg. clear Hg.
  apply parseSQLQueryWithVariables_steps in H.
  destruct H as (selectIdx & fromIdx & H).
  apply parseClauses_steps in H.
  destruct H as (fieldsStr & i1 & coll & i3 & i4 & i5 & H1 & H3 & H4 & H5 & H6).
  apply parseAggregateFields_rest in H1. destruct H1 as (_ & _ & _ & H1).
  simpl in H1, H4. rewrite Hidx in H4. simpl in H4. subst i4.
  assert (GroupByFields i3 = []) as G3.
  { destruct (whereIdx _ =? -1).
    - now subst i3.
    - destruct H3 as [w ->]. now rewrite parseWhereClause_groups. }
  assert (GroupByFields i5 = []) as G5.
  { destruct (orderIdx _ =? -1); [now subst|].
    destruct H5 as [o ->]. now rewrite parseOrderBy_groups. }
  destruct H6 as [->|[n ->]]; exact G5.
Qed.

Lemma firstPatternIndex_found (text : string) (patterns : list string) :
  firstPatternIndex text patterns <> -1 ->
  exists p, In p patterns /\ occursIn p text.
Proof.
  induction patterns as [|p rest IH]; simpl; [contradiction|].
  rewrite Index_missing, negb_involutive.
  destruct (Contains text p) eqn:E.
  - intros _. exists p. split; [now left | now apply Contains_spec].
  - intros H. destruct (IH H) as [q [Hq Ho]]. exists q. auto.
Qed.

Lemma findGroupByIndex_found (queryLower : string) :
  findGroupByIndex queryLower <> -1 -> occursIn "group by" queryLower.
Proof.
  intros H. apply firstPatternIndex_found in H. destruct H as [p [Hp Ho]].
  eapply occursIn_trans; [|exact Ho].
  simpl in Hp.
  destruct Hp as [<-|[<-|[<-|[<-|[<-|[<-|[]]]]]]].
  - now exists " ", " ".
  - now exists LF, " ".
  - now exists (LF ++ "  "), " ".
  - now exists (LF ++ TAB), " ".
  - now exists (CR ++ LF), " ".
  - now exists (CR ++ LF ++ "  "), " ".
Qed.

(** X10: a plan with group fields comes only from a query the router sends
    to the native path: when the parser returns a plan whose GroupByFields
    are not empty, the router sends that query to the native path with any
    time window, and never to the execution library. *)
Theorem grouped_plan_is_routed_native
        (query : string) (info : QueryInfo) (timeRange : TimeRange) :
  parseSQLQueryWithVariables query = Return info ->
  GroupByFields info <> [] ->
  queryInternal query timeRange = NativeSDK query timeRange.
Proof.
  intros H Hg.
  pose proof (findGroupByIndex_found _ (parsed_groups_need_keyword _ _ H Hg))
    as Ho.
  assert (occursIn "group by" (ToLower query)) as Hq.
  { destruct (TrimFunc_within isSpace query) as [a [b E]].
    fold (TrimSpace query) in E. rewrite E at 1.
    unfold ToLower. rewrite !mapBytes_app. now apply occursIn_app. }
  apply containsGroupBy_spec in Hq.
  unfold queryInternal. rewrite Hq, orb_true_r.
  destruct (0 <? len query) eqn:Hlen; [reflexivity|].
  apply len_zero in Hlen. subst query. discriminate Hq.
Qed.

(** * The filter evaluator against the specification's field resolution *)

(** The parts of a dotted path as the specification has them ("split on
    [.]"): the texts between its dots, the empty ones too. *)
Fixpoint specPathParts (fieldPath : string) : list string :=
  match fieldPath with
  | EmptyString => [EmptyString]
  | String c rest =>
      if Ascii.eqb c "."%char then EmptyString :: specPathParts rest
      else match specPathParts rest with
           | part :: parts => String c part :: parts
           | [] => [String c EmptyString]
           end
  end.

(** The specification's resolution of the parts in a mapping: "descend
    through nested mapping values; a missing intermediate mapping, or a
    final missing key, yields no value" ([None]).  An intermediate value
    that is no mapping gives no value, and a key that holds nil holds no
    value. *)
Fixpoint specResolveParts (current : Doc) (parts : list string) : option Any :=
  match parts with
  | [] => None
  | key :: rest =>
      match lookup current key with
      | None => None
      | Some v =>
          match rest with
          | [] => if isNil v then None else Some v
          | _ :: _ =>
              match v with
              | VMap next => specResolveParts next rest
              | _ => None
              end
          end
      end
  end.

(** The resolution of a filter's field in a document; a snapshot without a
    mapping has no value for any field. *)
Definition specResolve (doc : Snapshot) (fieldPath : string) : option Any :=
  match doc with
  | Snap (Some docData) => specResolveParts docData (specPathParts fieldPath)
  | _ => None
  end.

Lemma Split_dots (fieldPath : string) :
  Split fieldPath "." = specPathParts fieldPath.
Proof.
  induction fieldPath as [|c rest IH]; [reflexivity|].
  pose proof (Split_char_cons c "."%char rest) as H.
  unfold charText in H. rewrite H, IH. reflexivity.
Qed.

Lemma specPathParts_nonempty (fieldPath : string) :
  specPathParts fieldPath <> [].
Proof.
  destruct fieldPath as [|c rest]; simpl; [discriminate|].
  destruct (Ascii.eqb c "."); [discriminate|].
  destruct (specPathParts rest); discriminate.
Qed.

Lemma forallb_pointwise (A : Type) (f g : A -> bool) (l : list A) :
  (forall x, f x = g x) -> forallb f l = forallb g l.
Proof.
  intros H. induction l as [|x l IH]; simpl; [reflexivity|].
  now rewrite H, IH.
Qed.

Section FilterAgainstSpecification.

Context {conv : FloatConv}.

(** What the specification asks of a document for one filter: the field
    resolves to a value, and the [%v] text of that value is the [%v] text
    of the filter's value. *)
Definition specSatisfies (doc : Snapshot) (f : FilterInfo) : Prop :=
  exists v, specResolve doc (filterField f) = Some v
            /\ Sprintv v = Sprintv (filterValue f).

Definition specSatisfiesb (doc : Snapshot) (f : FilterInfo) : bool :=
  match specResolve doc (filterField f) with
  | Some v => String.eqb (Sprintv v) (Sprintv (filterValue f))
  | None => false
  end.

Lemma specSatisfiesb_spec (doc : Snapshot) (f : FilterInfo) :
  specSatisfiesb doc f = true <-> specSatisfies doc f.
Proof.
  unfold specSatisfiesb, specSatisfies.
  destruct (specResolve doc (filterField f)) as [v|].
  - rewrite String.eqb_eq. split.
    + intros H. now exists v.
    + now intros [w [[= <-] H]].
  - split; [discriminate | now intros [w [H _]]].
Qed.

(** The loop of the code over the parts returns nil exactly where the
    specification has no value, and the value otherwise. *)
Lemma descend_specResolveParts (current : Doc) (parts : list string) :
  specResolveParts current parts
  = if isNil (descend current parts) then None
    else Some (descend current parts).
Proof.
  revert current. induction parts as [|key rest IH]; intros current;
    [reflexivity|].
  destruct rest as [|next rest].
  - simpl. unfold index. destruct (lookup current key) as [v|]; reflexivity.
  - cbn [specResolveParts].
    change (descend current (key :: next :: rest))
      with (match index current key with
            | VMap m => descend m (next :: rest)
            | _ => VNil
            end).
    unfold index. destruct (lookup current key) as [v|]; [|reflexivity].
    destruct v; try reflexivity. apply IH.
Qed.

Lemma getNestedFieldValue_specResolve (docData : Doc) (fieldPath : string) :
  specResolve (Snap (Some docData)) fieldPath
  = if isNil (getNestedFieldValue docData fieldPath) then None
    else Some (getNestedFieldValue docData fieldPath).
Proof.
  unfold specResolve.
  rewrite getNestedFieldValue_descend, Split_dots.
  apply descend_specResolveParts.
Qed.

Lemma satisfiesb_specSatisfiesb (doc : Snapshot) (f : FilterInfo) :
  satisfiesb doc f = specSatisfiesb doc f.
Proof.
  unfold satisfiesb, specSatisfiesb.
  destruct doc as [|[docData|]]; try reflexivity.
  rewrite getNestedFieldValue_specResolve. unfold resolve.
  now destruct (isNil (getNestedFieldValue docData (filterField f))).
Qed.

(** C5: for equality filters, the evaluator returns the documents, in their
    order, that satisfy every filter as the specification reads it: each
    filter's field, split at its dots and followed through the nested
    mappings of the document, leads to a value that is not nil, and the
    [%v] text of that value is the [%v] text of the filter's value.  A
    document in which the path of some filter leads to no value (a missing
    key, an intermediate value that is no mapping, a nil value, no data at
    all) is left out.  Against a filter whose value is a text, as the
    parser builds them, a document is kept exactly when the text of the
    resolved value is that text, whatever the type of the value. *)
Theorem applyManualFiltering_subsequence
        (docs : list Snapshot) (filters : list FilterInfo) :
  Forall isEquality filters ->
  applyManualFiltering docs filters
  = filter (fun doc => forallb (specSatisfiesb doc) filters) docs
  /\ (forall doc, forallb (specSatisfiesb doc) filters = true
                  <-> forall f, In f filters -> specSatisfies doc f)
  /\ (forall doc f, In doc (applyManualFiltering docs filters) ->
                    In f filters ->
                    exists v, specResolve doc (filterField f) = Some v
                              /\ v <> VNil
                              /\ Sprintv v = Sprintv (filterValue f))
  /\ (forall doc f, In f filters ->
                    specResolve doc (filterField f) = None ->
                    ~ In doc (applyManualFiltering docs filters))
  /\ (forall doc f s, filterValue f = VString s ->
        (specSatisfies doc f
         <-> exists v, specResolve doc (filterField f) = Some v
                       /\ Sprintv v = s)).
Proof.
  intros Heq.
  assert (applyManualFiltering docs filters
          = filter (fun doc => forallb (specSatisfiesb doc) filters) docs) as E.
  { rewrite applyManualFiltering_equalities by assumption.
    apply filter_ext. intros doc. apply forallb_pointwise.
    intros f. apply satisfiesb_specSatisfiesb. }
  assert (forall doc, forallb (specSatisfiesb doc) filters = true
                      <-> forall f, In f filters -> specSatisfies doc f) as A.
  { intros doc. rewrite forallb_forall.
    split; intros H f Hf; apply specSatisfiesb_spec; auto. }
  split; [exact E|]. split; [exact A|]. split; [|split].
  - intros doc f Hdoc Hf. rewrite E in Hdoc. apply filter_In in Hdoc.
    destruct Hdoc as [_ Hdoc]. rewrite A in Hdoc.
    destruct (Hdoc f Hf) as [v [Hv Htext]].
    exists v. split; [exact Hv|]. split; [|exact Htext].
    intros ->. destruct doc as [|[docData|]]; try discriminate.
    rewrite getNestedFieldValue_specResolve in Hv.
    destruct (getNestedFieldValue docData (filterField f));
      simpl in Hv; discriminate.
  - intros doc f Hf Hnone Hdoc. rewrite E in Hdoc. apply filter_In in Hdoc.
    destruct Hdoc as [_ Hdoc]. rewrite A in Hdoc.
    destruct (Hdoc f Hf) as [v [Hv _]]. congruence.
  - intros doc f s Hs. unfold specSatisfies. rewrite Hs. reflexivity.
Qed.

End FilterAgainstSpecification.

(** * The frame of an aggregating plan
      ([processGroupByQueryWithOrdering], lines 1151-1162 and 1390-1441) *)

Section AggregatedFrame.

Context {conv : FloatConv}.

(** The frame for no documents at all: empty columns, the aggregate ones
    under the alias as the parser left it. *)
Definition emptyAggregatedFrame (queryInfo : QueryInfo) : Frame :=
  (map (fun field => NewField field (Some (StringColumn [])))
       (GroupByFields queryInfo)
   ++ map (fun agg => NewField (aggAlias agg) (Some (Float64Column [])))
          (AggregateFields queryInfo))%list.

(** The cells of the [i]-th group column: [make([]string, len(results))],
    then one assignment for each result that has an [i]-th group value. *)
Definition groupCells (i : nat) (results : list AggregatedResult) : list string :=
  map (fun result =>
         match nth_error (GroupValues result) i with
         | Some v => Sprintv v
         | None => ""
         end) results.

(** The cells of the [i]-th aggregate column: [make([]float64, len(results))],
    then one assignment for each result whose [i]-th aggregate value is
    there and converts. *)
Definition aggregateCells (i : nat) (results : list AggregatedResult)
  : list float :=
  map (fun result =>
         match nth_error (AggregateValues result) i with
         | Some v => match convertToFloat v with
                     | Some val => val
                     | None => PrimFloat.zero
                     end
         | None => PrimFloat.zero
         end) results.

Fixpoint groupFieldsFrom (i : nat) (groupByFields : list string)
         (results : list AggregatedResult) : Frame :=
  match groupByFields with
  | [] => []
  | groupField :: rest =>
      NewField groupField (Some (StringColumn (groupCells i results)))
      :: groupFieldsFrom (S i) rest results
  end.

(** The column of an aggregate is named by its alias with the function
    syntax removed (lines 1416-1434, the computation [cleanedAlias] models
    for the sort). *)
Fixpoint aggregateFieldsFrom (i : nat) (aggregateFields : list AggregateInfo)
         (results : list AggregatedResult) : Frame :=
  match aggregateFields with
  | [] => []
  | agg :: rest =>
      NewField (cleanedAlias agg) (Some (Float64Column (aggregateCells i results)))
      :: aggregateFieldsFrom (S i) rest results
  end.

(** Step 5. *)
Definition aggregatedFrame (queryInfo : QueryInfo)
           (results : list AggregatedResult) : Frame :=
  (groupFieldsFrom O (GroupByFields queryInfo) results
   ++ aggregateFieldsFrom O (AggregateFields queryInfo) results)%list.

(** The frames [processGroupByQueryWithOrdering] may return. *)
Definition processGroupByQueryWithOrdering (docs : list Snapshot)
           (queryInfo : QueryInfo) (frame : Frame) : Prop :=
  if (List.length docs =? 0)%nat then frame = emptyAggregatedFrame queryInfo
  else exists results,
      groupByResults queryInfo docs results
      /\ frame = aggregatedFrame queryInfo results.

Definition columnLength (values : option ColumnValues) : nat :=
  match values with
  | None => O
  | Some (BoolColumn vs) => List.length vs
  | Some (Int32Column vs) => List.length vs
  | Some (Int64Column vs) => List.length vs
  | Some (Float64Column vs) => List.length vs
  | Some (TimeColumn vs) => List.length vs
  | Some (JSONColumn vs) => List.length vs
  | Some (StringColumn vs) => List.length vs
  end.

Lemma groupFieldsFrom_shape (i : nat) (groupByFields : list string)
      (results : list AggregatedResult) :
  map fieldName (groupFieldsFrom i groupByFields results) = groupByFields
  /\ Forall (fun f => columnLength (fieldValues f) = List.length results)
            (groupFieldsFrom i groupByFields results).
Proof.
  revert i. induction groupByFields as [|g rest IH]; intros i; simpl.
  - split; constructor.
  - destruct (IH (S i)) as [Hn Hl]. split; [now rewrite Hn|].
    constructor; [|assumption]. simpl. unfold groupCells. apply length_map.
Qed.

Lemma aggregateFieldsFrom_shape (i : nat) (aggregateFields : list AggregateInfo)
      (results : list AggregatedResult) :
  map fieldName (aggregateFieldsFrom i aggregateFields results)
  = map cleanedAlias aggregateFields
  /\ Forall (fun f => columnLength (fieldValues f) = List.length results)
            (aggregateFieldsFrom i aggregateFields results).
Proof.
  revert i. induction aggregateFields as [|agg rest IH]; intros i; simpl.
  - split; constructor.
  - destruct (IH (S i)) as [Hn Hl]. split; [now rewrite Hn|].
    constructor; [|assumption]. simpl. unfold aggregateCells. apply length_map.
Qed.

(** The frame of step 5 has one column for each group field, named by the
    field, followed by one for each aggregate, named by its cleaned alias,
    and every column has exactly one cell for each result. *)
Lemma aggregatedFrame_shape (queryInfo : QueryInfo)
        (results : list AggregatedResult) :
  map fieldName (aggregatedFrame queryInfo results)
  = (GroupByFields queryInfo
     ++ map cleanedAlias (AggregateFields queryInfo))%list
  /\ Forall (fun f => columnLength (fieldValues f) = List.length results)
            (aggregatedFrame queryInfo results).
Proof.
  unfold aggregatedFrame.
  destruct (groupFieldsFrom_shape O (GroupByFields queryInfo) results)
    as [Hgn Hgl].
  destruct (aggregateFieldsFrom_shape O (AggregateFields queryInfo) results)
    as [Han Hal].
  split.
  - now rewrite map_app, Hgn, Han.
  - apply Forall_app. now split.
Qed.

Lemma cleanedAlias_plain (agg : AggregateInfo) :
  Contains (aggAlias agg) "(" && Contains (aggAlias agg) ")" = false ->
  cleanedAlias agg = aggAlias agg.
Proof. unfold cleanedAlias. now intros ->. Qed.

(** X12: the frame for no documents and the frame of step 5 have the same
    number of columns, and they name them alike when no alias has both
    parentheses in it (an alias given with AS); an aggregate without AS is
    named by its whole expression in the one and by its lower-cased function
    in the other. *)
Theorem empty_and_filled_frame_columns (queryInfo : QueryInfo)
        (results : list AggregatedResult) :
  List.length (emptyAggregatedFrame queryInfo)
  = List.length (aggregatedFrame queryInfo results)
  /\ (Forall (fun agg => Contains (aggAlias agg) "("
                         && Contains (aggAlias agg) ")" = false)
             (AggregateFields queryInfo) ->
      map fieldName (emptyAggregatedFrame queryInfo)
      = map fieldName (aggregatedFrame queryInfo results)).
Proof.
  destruct (aggregatedFrame_shape queryInfo results) as [Hnames _].
  split.
  - rewrite <- (length_map fieldName (aggregatedFrame queryInfo results)), Hnames.
    unfold emptyAggregatedFrame. now rewrite !length_app, !length_map.
  - intros Hplain. rewrite Hnames. unfold emptyAggregatedFrame.
    rewrite map_app, !map_map. simpl. f_equal; [apply map_id|].
    apply map_ext_in. intros agg Hin. symmetry. apply cleanedAlias_plain.
    rewrite Forall_forall in Hplain. now apply Hplain.
Qed.

(** ** The values of a result *)

Lemma aggregateLoop_values (queryInfo : QueryInfo) (groupDocs : list Doc)
      (sort0 : float) :
  fst (aggregateLoop queryInfo groupDocs sort0)
  = map (fun agg => aggregateValue agg groupDocs) (AggregateFields queryInfo).
Proof.
  unfold aggregateLoop.
  enough (forall aggs values sortValue,
             fst (fold_left
                    (fun '(values, sortValue) agg =>
                       let v := aggregateValue agg groupDocs in
                       let sortValue' :=
                         if negb (String.eqb (OrderField queryInfo) "")
                            && orderMatchesAggregate (OrderField queryInfo) agg
                         then match convertToFloat v with
                              | Some s => s
                              | None => sortValue
                              end
                         else sortValue in
                       ((values ++ [v])%list, sortValue'))
                    aggs (values, sortValue))
             = (values ++ map (fun agg => aggregateValue agg groupDocs) aggs)%list)
    as H by apply (H _ [] sort0).
  induction aggs as [|agg aggs IH]; intros values sortValue; simpl.
  - now rewrite app_nil_r.
  - rewrite IH. now rewrite <- app_assoc.
Qed.

Lemma aggregateValue_float (agg : AggregateInfo) (groupDocs : list Doc) :
  exists v, aggregateValue agg groupDocs = VFloat64 v.
Proof.
  unfold aggregateValue.
  repeat match goal with
         | |- context [if ?b then _ else _] => destruct b
         end; eauto.
Qed.

(** A result carries one aggregate value for each aggregate of the plan, in
    the plan's order, each of them a float64, and, for a group that is not
    empty, one group value for each group field: the values of the fields
    in the first member. *)
Lemma aggregateGroup_values (queryInfo : QueryInfo) (groupDocs : list Doc) :
  AggregateValues (aggregateGroup queryInfo groupDocs)
  = map (fun agg => aggregateValue agg groupDocs) (AggregateFields queryInfo)
  /\ Forall (fun v => exists x, v = VFloat64 x)
            (AggregateValues (aggregateGroup queryInfo groupDocs))
  /\ (forall first rest, groupDocs = first :: rest ->
        GroupValues (aggregateGroup queryInfo groupDocs)
        = map (getNestedFieldValue first) (GroupByFields queryInfo)).
Proof.
  assert (AggregateValues (aggregateGroup queryInfo groupDocs)
          = map (fun agg => aggregateValue agg groupDocs)
                (AggregateFields queryInfo)) as Hv.
  { unfold aggregateGroup.
    pose proof (aggregateLoop_values queryInfo groupDocs PrimFloat.zero) as H.
    destruct (aggregateLoop queryInfo groupDocs PrimFloat.zero) as [vs s].
    exact H. }
  split; [exact Hv|]. split.
  - rewrite Hv. apply Forall_forall. intros v Hin.
    apply in_map_iff in Hin. destruct Hin as [agg [<- _]].
    apply aggregateValue_float.
  - intros first rest ->. unfold aggregateGroup.
    now destruct (aggregateLoop queryInfo (first :: rest) PrimFloat.zero).
Qed.

(** X11: every frame [processGroupByQueryWithOrdering] returns has one
    column for each group field followed by one for each aggregate, and all
    its columns have the same number of cells: none when there was no
    document, and otherwise as many as there are groups among the filtered
    documents, cut to the plan's limit when it has one. *)
Theorem processGroupBy_frame_shape (docs : list Snapshot)
        (queryInfo : QueryInfo) (frame : Frame) :
  processGroupByQueryWithOrdering docs queryInfo frame ->
  List.length frame
  = (List.length (GroupByFields queryInfo)
     + List.length (AggregateFields queryInfo))%nat
  /\ map fieldName (firstn (List.length (GroupByFields queryInfo)) frame)
     = GroupByFields queryInfo
  /\ exists rows,
      Forall (fun f => columnLength (fieldValues f) = rows) frame
      /\ (docs = [] -> rows = O)
      /\ (docs <> [] ->
          exists filteredData,
            allData (applyManualFiltering docs (AdditionalFilters queryInfo))
            = Some filteredData
            /\ Z.of_nat rows
               = let groups :=
                   Z.of_nat (List.length
                               (groupDocuments (GroupByFields queryInfo)
                                               filteredData)) in
                 if 0 <? Limit queryInfo
                 then Z.min (Limit queryInfo) groups else groups).
Proof.
  unfold processGroupByQueryWithOrdering.
  destruct docs as [|doc docs]; cbn [List.length Nat.eqb].
  - intros ->. unfold emptyAggregatedFrame.
    split; [now rewrite length_app, !length_map|]. split.
    + rewrite <- (length_map (fun field => NewField field (Some (StringColumn [])))
                            (GroupByFields queryInfo)) at 1.
      rewrite firstn_app, Nat.sub_diag, firstn_all. simpl.
      rewrite app_nil_r, map_map. apply map_id.
    + exists O. split; [|split; [reflexivity | contradiction]].
      apply Forall_app. split; apply Forall_forall; intros f Hf;
        apply in_map_iff in Hf; destruct Hf as [x [<- _]]; reflexivity.
  - intros [results [Hres ->]].
    destruct (aggregatedFrame_shape queryInfo results) as [Hnames Hlen].
    split; [|split].
    + rewrite <- (length_map fieldName), Hnames.
      now rewrite length_app, length_map.
    + rewrite <- firstn_map, Hnames.
      rewrite firstn_app, Nat.sub_diag, firstn_all. simpl. apply app_nil_r.
    + exists (List.length results). split; [exact Hlen|].
      split; [discriminate|]. intros _.
      destruct (groupByResults_number _ _ _ Hres) as [data [Hdata Hn]].
      exists data. split; [exact Hdata | exact Hn].
Qed.

End AggregatedFrame.

(** * Substitution of the time variables
      ([replaceGrafanaVariables], [addTimeRangeFilter]) *)

(** [strings.ReplaceAll(s, old, new)] for a non-empty [old]: the pieces
    between the occurrences of [old], taken from the left without overlap,
    joined by [new]. *)
Definition ReplaceAll (s old new : string) : string := Join (Split s old) new.

(** A signed 64-bit integer wraps around. *)
Definition wrap64 (z : Z) : Z := (z + 2 ^ 63) mod 2 ^ 64 - 2 ^ 63.

(** Seconds from the zero instant of [time.Time] to the Unix epoch. *)
Definition unixToInternal : Z := 62135596800.

(** [t.UnixMilli()]: [t.unixSec()*1e3 + int64(t.nsec())/1e6] on int64. *)
Definition UnixMilli (t : Time) : Z :=
  wrap64 (wrap64 (wrap64 (sec t - unixToInternal) * 1000) + nsec t / 1000000).

(** The function logs the window in two more formats; what it returns has
    the variables replaced by the Unix milliseconds of the bounds. *)
Definition replaceGrafanaVariables (query : string) (timeRange : TimeRange)
  : string :=
  let fromMillis := UnixMilli (From timeRange) in
  let toMillis := UnixMilli (To timeRange) in
  let result := ReplaceAll query "$__from" (formatInt fromMillis) in
  ReplaceAll result "$__to" (formatInt toMillis).

(** [fmt.Sprintf("%s >= %d and %s <= %d", ...)] *)
Definition timeFilterText (timeField : string) (timeRange : TimeRange) : string :=
  timeField ++ " >= " ++ formatInt (UnixMilli (From timeRange))
  ++ " and " ++ timeField ++ " <= " ++ formatInt (UnixMilli (To timeRange)).

(** The loop over the keywords before which a WHERE clause is inserted. *)
Definition insertPosition (query queryLower : string) : Z :=
  fold_left (fun insertPos keyword =>
               let pos := Index queryLower keyword in
               if negb (pos =? -1) && (pos <? insertPos) then pos else insertPos)
            [" order by "; " limit "; " group by "] (len query).

(** [None] is the panic of a slice out of range. *)
Definition addTimeRangeFilter (query timeField : string) (timeRange : TimeRange)
  : option string :=
  let timeFilter := timeFilterText timeField timeRange in
  let queryLower := ToLower query in
  if Contains queryLower " where " then Some (query ++ " and " ++ timeFilter)
  else
    let insertPos := insertPosition query queryLower in
    before <- slice query 0 insertPos ;;
    after <- sliceFrom query insertPos ;;
    Some (before ++ " where " ++ timeFilter ++ after).

(** ** Occurrences in joined texts *)

Definition noByteOf (new pat : string) : Prop :=
  forall c, inCutset new c = true -> inCutset pat c = false.

Lemma occursIn_empty (pat : string) : occursIn pat "" -> pat = "".
Proof.
  intros [pre [post H]]. destruct pre; [|discriminate].
  destruct pat; [reflexivity | discriminate].
Qed.

Lemma prefix_before_byte (pat a post t : string) (n0 : ascii) :
  inCutset pat n0 = false ->
  pat ++ post = a ++ String n0 t ->
  exists post', a = pat ++ post'.
Proof.
  revert a. induction pat as [|p pat IH]; intros a Hn H; [now exists a|].
  simpl in Hn. apply orb_false_iff in Hn. destruct Hn as [Hp Hn].
  destruct a as [|c a]; simpl in H.
  - injection H as -> _. now rewrite Ascii.eqb_refl in Hp.
  - injection H as -> H. destruct (IH a Hn H) as [post' ->]. now exists post'.
Qed.

Lemma occursIn_across_byte (pat a t : string) (n0 : ascii) :
  pat <> "" -> inCutset pat n0 = false ->
  occursIn pat (a ++ String n0 t) -> occursIn pat a \/ occursIn pat t.
Proof.
  intros Hne Hn [pre [post H]]. revert pre H.
  induction a as [|c a IH]; intros pre H.
  - right. destruct pre as [|c' pre]; simpl in H.
    + destruct pat as [|p pat]; [contradiction|]. simpl in *.
      injection H as <- _. rewrite Ascii.eqb_refl in Hn. discriminate.
    + injection H as _ ->. now exists pre, post.
  - destruct pre as [|c' pre].
    + left. simpl in H. symmetry in H.
      change (String c (a ++ String n0 t)) with (String c a ++ String n0 t) in H.
      destruct (prefix_before_byte _ _ _ _ _ Hn H) as [post' E].
      exists "", post'. exact E.
    + simpl in H. injection H as _ H. destruct (IH pre H) as [Ho|Ho].
      * left. now apply occursIn_tail.
      * now right.
Qed.

Lemma occursIn_past_new (new pat rest : string) :
  pat <> "" -> noByteOf new pat ->
  occursIn pat (new ++ rest) -> occursIn pat rest.
Proof.
  intros Hne. induction new as [|n0 new IH]; intros Hd Ho; [exact Ho|].
  destruct (occursIn_across_byte pat "" (new ++ rest) n0 Hne) as [H|H].
  - apply Hd. simpl. now rewrite Ascii.eqb_refl.
  - exact Ho.
  - apply occursIn_empty in H. contradiction.
  - apply IH; [|exact H]. intros c Hc. apply Hd. simpl. rewrite Hc.
    apply orb_true_r.
Qed.

Lemma occursIn_around_new (new pat a rest : string) :
  pat <> "" -> new <> "" -> noByteOf new pat ->
  occursIn pat (a ++ new ++ rest) -> occursIn pat a \/ occursIn pat rest.
Proof.
  intros Hne Hnew Hd Ho. destruct new as [|n0 new]; [contradiction|].
  destruct (occursIn_across_byte pat a (new ++ rest) n0 Hne) as [H|H].
  - apply Hd. simpl. now rewrite Ascii.eqb_refl.
  - exact Ho.
  - now left.
  - right. apply (occursIn_past_new new); try assumption.
    intros c Hc. apply Hd. simpl. rewrite Hc. apply orb_true_r.
Qed.

Lemma Join_free (pieces : list string) (new pat : string) :
  pat <> "" -> new <> "" -> noByteOf new pat ->
  Forall (fun piece => ~ occursIn pat piece) pieces ->
  ~ occursIn pat (Join pieces new).
Proof.
  intros Hne Hnew Hd. induction 1 as [|e rest He Hrest IH]; simpl.
  - intros Ho. apply occursIn_empty in Ho. contradiction.
  - destruct rest as [|e' rest]; [exact He|].
    intros Ho. apply occursIn_around_new in Ho; try assumption.
    destruct Ho as [Ho|Ho]; [now apply He | now apply IH].
Qed.

(** ** The pieces of a split *)

Lemma splitFrom_skip (sep : string) (limit : option nat) (a rest : string) :
  splitFrom sep limit (String.length a) (a ++ rest) = splitFrom sep limit O rest.
Proof. induction a as [|c a IH]; simpl; [now destruct rest | exact IH]. Qed.

Lemma Split_match (sep rest : string) :
  sep <> "" -> Split (sep ++ rest) sep = "" :: Split rest sep.
Proof.
  intros Hne. destruct sep as [|c0 sep']; [contradiction|].
  unfold Split. simpl append. cbn [splitFrom].
  assert (HasPrefix (String c0 (sep' ++ rest)) (String c0 sep') = true) as ->
      by (apply HasPrefix_spec; now exists rest).
  simpl. f_equal. apply splitFrom_skip.
Qed.

Lemma Split_nomatch (sep : string) (c : ascii) (r : string) :
  HasPrefix (String c r) sep = false ->
  Split (String c r) sep
  = match Split r sep with
    | p :: ps => String c p :: ps
    | [] => [String c ""]
    end.
Proof. intros H. unfold Split. cbn [splitFrom]. now rewrite H. Qed.

Lemma Split_head_prefix (sep s p : string) (ps : list string) :
  sep <> "" -> Split s sep = p :: ps -> exists t, s = p ++ t.
Proof.
  intros Hne. revert p ps. induction s as [|c r IH]; intros p ps H.
  - injection H as <- _. now exists "".
  - destruct (HasPrefix (String c r) sep) eqn:E.
    + apply HasPrefix_spec in E. destruct E as [rest E]. rewrite E in H.
      rewrite Split_match in H by assumption. injection H as <- _.
      now exists (String c r).
    + rewrite Split_nomatch in H by assumption.
      destruct (Split r sep) as [|p' ps'] eqn:Er.
      * injection H as <- _. exists r. reflexivity.
      * injection H as <- _. destruct (IH p' ps' eq_refl) as [t ->].
        now exists t.
Qed.

Lemma Split_pieces_bounded (sep : string) (n : nat) (s : string) :
  sep <> "" -> (String.length s <= n)%nat ->
  Forall (fun piece => occursIn piece s /\ ~ occursIn sep piece) (Split s sep).
Proof.
  intros Hne. revert s. induction n as [|n IH]; intros s Hlen.
  - destruct s; [|simpl in Hlen; lia]. repeat constructor.
    + apply occursIn_refl.
    + intros Ho. apply occursIn_empty in Ho. contradiction.
  - destruct s as [|c r].
    + repeat constructor; [apply occursIn_refl|].
      intros Ho. apply occursIn_empty in Ho. contradiction.
    + simpl in Hlen. destruct (HasPrefix (String c r) sep) eqn:E.
      * pose proof E as E'. apply HasPrefix_spec in E'.
        destruct E' as [rest E']. rewrite E'.
        rewrite Split_match by assumption.
        assert (String.length rest <= n)%nat as Hrest.
        { apply (f_equal String.length) in E'. rewrite length_append in E'.
          simpl in E'. destruct sep; [contradiction|]. simpl in E'. lia. }
        constructor.
        -- split; [now exists "", (sep ++ rest)|].
           intros Ho. apply occursIn_empty in Ho. contradiction.
        -- eapply Forall_impl; [|apply (IH rest Hrest)].
           intros piece [Hin Hfree]. split; [|exact Hfree].
           eapply occursIn_trans; [exact Hin|]. exists sep, "".
           now rewrite append_empty_r.
      * rewrite Split_nomatch by assumption.
        assert (String.length r <= n)%nat as Hr by lia.
        pose proof (IH r Hr) as Hpieces.
        destruct (Split r sep) as [|p ps] eqn:Er.
        -- exfalso. now apply (splitFrom_nonempty sep None 0 r).
        -- destruct (Split_head_prefix sep r p ps Hne Er) as [t Ht].
           inversion Hpieces as [|? ? [Hp Hpfree] Hps]; subst.
           constructor.
           ++ split; [now exists "", t|].
              intros [pre [post Ho]]. destruct pre as [|c' pre]; simpl in Ho.
              ** assert (HasPrefix (String c (p ++ t)) sep = true); [|congruence].
                 apply HasPrefix_spec. exists (post ++ t).
                 change (String c (p ++ t)) with (String c p ++ t).
                 rewrite Ho. now rewrite append_assoc.
              ** injection Ho as _ Ho. apply Hpfree. now exists pre, post.
           ++ eapply Forall_impl; [|exact Hps].
              intros piece [Hin Hfree]. split; [|exact Hfree].
              now apply occursIn_tail.
Qed.

Lemma Split_pieces (sep s : string) :
  sep <> "" ->
  Forall (fun piece => occursIn piece s /\ ~ occursIn sep piece) (Split s sep).
Proof. intros Hne. now apply (Split_pieces_bounded sep (String.length s)). Qed.

Lemma Split_absent (sep s : string) :
  ~ occursIn sep s -> Split s sep = [s].
Proof.
  induction s as [|c r IH]; intros H; [reflexivity|].
  rewrite Split_nomatch.
  - rewrite IH; [reflexivity|]. intros Ho. apply H. now apply occursIn_tail.
  - destruct (HasPrefix (String c r) sep) eqn:E; [|reflexivity].
    destruct H. apply HasPrefix_spec in E. destruct E as [post E].
    now exists "", post.
Qed.

(** ** Replacement *)

Lemma ReplaceAll_absent (s old new : string) :
  ~ occursIn old s -> ReplaceAll s old new = s.
Proof. intros H. unfold ReplaceAll. now rewrite Split_absent. Qed.

Lemma ReplaceAll_removes (s old new : string) :
  old <> "" -> new <> "" -> noByteOf new old ->
  ~ occursIn old (ReplaceAll s old new).
Proof.
  intros Hold Hnew Hd. unfold ReplaceAll. apply Join_free; try assumption.
  eapply Forall_impl; [|apply (Split_pieces old s Hold)]. now intros p [_ H].
Qed.

Lemma ReplaceAll_keeps_absent (s old new pat : string) :
  old <> "" -> pat <> "" -> new <> "" -> noByteOf new pat ->
  ~ occursIn pat s -> ~ occursIn pat (ReplaceAll s old new).
Proof.
  intros Hold Hpat Hnew Hd Hs. unfold ReplaceAll.
  apply Join_free; try assumption.
  eapply Forall_impl; [|apply (Split_pieces old s Hold)].
  intros p [Hin _] Ho. apply Hs. eapply occursIn_trans; eassumption.
Qed.

(** ** The text of an integer *)

Lemma string_of_uint_bytes (d : Decimal.uint) (c : ascii) :
  inCutset (DecimalString.NilEmpty.string_of_uint d) c = true ->
  inCutset "0123456789" c = true.
Proof.
  induction d as [|d IH|d IH|d IH|d IH|d IH|d IH|d IH|d IH|d IH|d IH];
    simpl; try discriminate; intros H; apply orb_true_iff in H;
    destruct H as [H|H];
    try (apply IH in H; simpl in H; exact H);
    rewrite H; simpl; rewrite ?orb_true_r; reflexivity.
Qed.

Lemma NilZero_string_of_uint_bytes (d : Decimal.uint) (c : ascii) :
  inCutset (DecimalString.NilZero.string_of_uint d) c = true ->
  inCutset "0123456789" c = true.
Proof.
  destruct d; try apply string_of_uint_bytes.
  simpl. intros H. rewrite orb_false_r in H. now rewrite H.
Qed.

Lemma formatInt_bytes (n : Z) (c : ascii) :
  inCutset (formatInt n) c = true -> inCutset "-0123456789" c = true.
Proof.
  unfold formatInt, DecimalString.NilZero.string_of_int.
  intros H. change (inCutset "-0123456789" c)
    with (Ascii.eqb c "-"%char || inCutset "0123456789" c).
  apply orb_true_iff.
  destruct (Z.to_int n) as [d|d].
  - right. now apply NilZero_string_of_uint_bytes in H.
  - change (inCutset (String "-"%char (DecimalString.NilZero.string_of_uint d)) c)
      with (Ascii.eqb c "-"%char
            || inCutset (DecimalString.NilZero.string_of_uint d) c) in H.
    apply orb_true_iff in H. destruct H as [H|H]; [now left|].
    right. now apply NilZero_string_of_uint_bytes in H.
Qed.

Lemma formatInt_nonempty (n : Z) : formatInt n <> "".
Proof.
  unfold formatInt, DecimalString.NilZero.string_of_int,
    DecimalString.NilZero.string_of_uint.
  destruct (Z.to_int n) as [d|d]; [|discriminate].
  destruct d; discriminate.
Qed.

Lemma formatInt_noByteOf (n : Z) (pat : string) :
  (forall c, inCutset "-0123456789" c = true -> inCutset pat c = false) ->
  noByteOf (formatInt n) pat.
Proof. intros H c Hc. apply H. now apply (formatInt_bytes n). Qed.

Lemma number_bytes_cases (c : ascii) (P : ascii -> Prop) :
  P "-"%char -> P "0"%char -> P "1"%char -> P "2"%char -> P "3"%char ->
  P "4"%char -> P "5"%char -> P "6"%char -> P "7"%char -> P "8"%char ->
  P "9"%char ->
  inCutset "-0123456789" c = true -> P c.
Proof.
  intros. simpl in *.
  repeat match goal with
         | H : (_ || _) = true |- _ => apply orb_true_iff in H; destruct H as [H|H]
         | H : Ascii.eqb _ _ = true |- _ => apply Ascii.eqb_eq in H; subst
         end; try assumption. discriminate.
Qed.

(** X14: after [replaceGrafanaVariables] neither [$__from] nor [$__to]
    occurs in the query, whatever the window, and a query in which neither
    occurs comes back as it was. *)
Theorem replaceGrafanaVariables_substitutes
        (query : string) (timeRange : TimeRange) :
  containsGrafanaVariables (replaceGrafanaVariables query timeRange) = false
  /\ (containsGrafanaVariables query = false ->
      replaceGrafanaVariables query timeRange = query).
Proof.
  unfold containsGrafanaVariables, replaceGrafanaVariables.
  assert (forall n, noByteOf (formatInt n) "$__from") as Hfrom
      by (intros n; apply formatInt_noByteOf; intros c Hc;
          apply (number_bytes_cases c (fun b => inCutset "$__from" b = false));
          try reflexivity; exact Hc).
  assert (forall n, noByteOf (formatInt n) "$__to") as Hto
      by (intros n; apply formatInt_noByteOf; intros c Hc;
          apply (number_bytes_cases c (fun b => inCutset "$__to" b = false));
          try reflexivity; exact Hc).
  split.
  - apply orb_false_iff. split; apply Contains_false.
    + apply ReplaceAll_keeps_absent; try discriminate;
        try apply formatInt_nonempty; try apply Hfrom.
      apply ReplaceAll_removes; try discriminate;
        try apply formatInt_nonempty; apply Hfrom.
    + apply ReplaceAll_removes; try discriminate;
        try apply formatInt_nonempty; apply Hto.
  - intros H. apply orb_false_iff in H. destruct H as [H1 H2].
    apply Contains_false in H1, H2.
    rewrite (ReplaceAll_absent query) by assumption.
    now apply ReplaceAll_absent.
Qed.

(** ** Insertion of the time filter *)

Lemma substring_split (s : string) (n : nat) :
  (n <= String.length s)%nat ->
  substring 0 n s ++ substring n (String.length s - n) s = s.
Proof.
  revert n. induction s as [|c s IH]; intros n Hn.
  - destruct n; [reflexivity | simpl in Hn; lia].
  - destruct n as [|n].
    + simpl. f_equal.
      clear. induction s as [|c' s IH]; simpl; [reflexivity | now rewrite IH].
    + simpl in *. f_equal. apply IH. lia.
Qed.

Lemma slice_split (s : string) (pos : Z) :
  0 <= pos <= len s ->
  exists before after,
    slice s 0 pos = Some before /\ sliceFrom s pos = Some after
    /\ s = before ++ after.
Proof.
  intros [H0 Hl]. unfold sliceFrom, slice, len in *.
  exists (substring 0 (Z.to_nat pos) s),
         (substring (Z.to_nat pos) (String.length s - Z.to_nat pos) s).
  repeat split.
  - replace ((0 <=? 0) && (0 <=? pos) && (pos <=? Z.of_nat (String.length s)))
      with true by (symmetry; rewrite !andb_true_iff, !Z.leb_le; lia).
    now rewrite Z.sub_0_r.
  - replace ((0 <=? pos) && (pos <=? Z.of_nat (String.length s))
             && (Z.of_nat (String.length s) <=? Z.of_nat (String.length s)))
      with true by (symmetry; rewrite !andb_true_iff, !Z.leb_le; lia).
    do 3 f_equal. lia.
  - symmetry. apply substring_split. lia.
Qed.

Lemma insertPosition_range (query queryLower : string) :
  0 <= insertPosition query queryLower <= len query.
Proof.
  unfold insertPosition.
  apply (fold_left_invariant (fun p => 0 <= p <= len query)).
  - unfold len. lia.
  - intros p keyword Hp. pose proof (Index_lower_bound queryLower keyword).
    destruct (Z.eqb_spec (Index queryLower keyword) (-1)); simpl; [assumption|].
    destruct (Z.ltb_spec (Index queryLower keyword) p); lia.
Qed.

(** X15: [addTimeRangeFilter] never panics and only inserts: what it returns
    is the query with one clause put in, after the whole query and
    introduced by [ and ] when the lower-cased query has [ where ] in it,
    and otherwise introduced by [ where ] at the insertion position.  The
    lower-cased result always has [ where ] in it, so a second filter is
    added with [ and ] at the end. *)
Theorem addTimeRangeFilter_inserts
        (query timeField : string) (timeRange : TimeRange) :
  exists before after,
    query = before ++ after
    /\ addTimeRangeFilter query timeField timeRange
       = Some (before
               ++ (if Contains (ToLower query) " where "
                   then " and " else " where ")
               ++ timeFilterText timeField timeRange ++ after)
    /\ (Contains (ToLower query) " where " = true -> after = "")
    /\ (Contains (ToLower query) " where " = false ->
        len before = insertPosition query (ToLower query))
    /\ forall result,
         addTimeRangeFilter query timeField timeRange = Some result ->
         Contains (ToLower result) " where " = true.
Proof.
  unfold addTimeRangeFilter.
  destruct (Contains (ToLower query) " where ") eqn:Hw.
  - exists query, "". rewrite append_empty_r.
    split; [reflexivity|]. split; [now rewrite append_empty_r|].
    split; [reflexivity|]. split; [discriminate|].
    intros result [= <-]. apply Contains_spec.
    apply Contains_spec in Hw. destruct Hw as [a [b Hw]].
    unfold ToLower in *. rewrite mapBytes_app, Hw.
    exists a, (b ++ mapBytes toLowerByte
                     (" and " ++ timeFilterText timeField timeRange)).
    now rewrite !append_assoc.
  - destruct (slice_split query (insertPosition query (ToLower query))
                          (insertPosition_range _ _))
      as [before [after [Hb [Ha Hq]]]].
    exists before, after. rewrite Hb, Ha. simpl.
    split; [exact Hq|]. split; [reflexivity|]. split; [discriminate|]. split.
    + intros _. unfold slice in Hb.
      destruct (_ && _) eqn:E; [|discriminate]. injection Hb as <-.
      apply andb_true_iff in E. destruct E as [E1 E2].
      apply andb_true_iff in E1. destruct E1 as [_ E1].
      apply Z.leb_le in E1, E2. unfold len in *.
      rewrite Z.sub_0_r.
      assert (forall n s, (n <= String.length s)%nat ->
                          String.length (substring 0 n s) = n) as Hsub.
      { clear. intros n s. revert n.
        induction s as [|c s IH]; intros [|n] H; simpl in *;
          try reflexivity; try lia. f_equal. apply IH. lia. }
      rewrite Hsub by lia. lia.
    + intros result [= <-]. apply Contains_spec.
      unfold ToLower. rewrite mapBytes_app.
      exists (mapBytes toLowerByte before),
             (mapBytes toLowerByte
                       (timeFilterText timeField timeRange ++ after)).
      reflexivity.
Qed.

(** * The columns of the delegated path ([queryInternal], lines 177-260) *)

(** A value of a record of the execution library: a [time.Time], or any
    other dynamic value ([OtherValue VNil] is nil). *)
Inductive RecordValue : Type :=
| TimeValue (t : Time)
| OtherValue (v : Any).

(** [result.Records]: rows of values; [None] is a nil record. *)
Definition Records : Type := list (option (list RecordValue)).

Definition wrap32 (z : Z) : Z := (z + 2 ^ 31) mod 2 ^ 32 - 2 ^ 31.

(** The cap on the records of a delegated result. *)
Definition maxRecords : Z := 10000.

Definition capRecords (records : Records) : Records :=
  if maxRecords <? Z.of_nat (List.length records)
  then firstn (Z.to_nat maxRecords) records
  else records.

Section DelegatedColumns.

Context {conv : FloatConv}.

(** [json.Marshal]: the JSON text, or the text of its error. *)
Variable Marshal : Any -> string + string.

(** The vector kinds of the type switch. *)
Inductive VectorKind : Type :=
| BoolKind | Int32Kind | Int64Kind | Float64Kind | TimeKind | JSONKind
| StringKind.

Definition kindOfColumn (values : ColumnValues) : VectorKind :=
  match values with
  | BoolColumn _ => BoolKind
  | Int32Column _ => Int32Kind
  | Int64Column _ => Int64Kind
  | Float64Column _ => Float64Kind
  | TimeColumn _ => TimeKind
  | JSONColumn _ => JSONKind
  | StringColumn _ => StringKind
  end.

(** One round of the type switch on a value that is not nil: the vector
    with the value appended; [Fault] is the panic of the type assertion
    [values.([]T)] on a vector of another type, [Fail] the message with
    which [queryInternal] returns an error response when [json.Marshal]
    fails. *)
Definition appendValue (column : string) (values : option ColumnValues)
           (val : RecordValue) : outcome (option ColumnValues) :=
  match val with
  | TimeValue t =>
      match values with
      | None => Return (Some (TimeColumn [t]))
      | Some (TimeColumn vs) => Return (Some (TimeColumn (vs ++ [t])))
      | Some _ => Fault
      end
  | OtherValue (VBool b) =>
      match values with
      | None => Return (Some (BoolColumn [b]))
      | Some (BoolColumn vs) => Return (Some (BoolColumn (vs ++ [b])))
      | Some _ => Fault
      end
  | OtherValue (VInt n) =>
      match values with
      | None => Return (Some (Int32Column [wrap32 n]))
      | Some (Int32Column vs) => Return (Some (Int32Column (vs ++ [wrap32 n])))
      | Some _ => Fault
      end
  | OtherValue (VInt32 n) =>
      match values with
      | None => Return (Some (Int32Column [n]))
      | Some (Int32Column vs) => Return (Some (Int32Column (vs ++ [n])))
      | Some _ => Fault
      end
  | OtherValue (VInt64 n) =>
      match values with
      | None => Return (Some (Int64Column [n]))
      | Some (Int64Column vs) => Return (Some (Int64Column (vs ++ [n])))
      | Some _ => Fault
      end
  | OtherValue (VFloat64 f) =>
      match values with
      | None => Return (Some (Float64Column [f]))
      | Some (Float64Column vs) => Return (Some (Float64Column (vs ++ [f])))
      | Some _ => Fault
      end
  | OtherValue ((VMap _ | VSlice _) as v) =>
      match Marshal v with
      | inr err => Fail ("json.Marshal : " ++ column ++ err)
      | inl jsonVal =>
          match values with
          | None => Return (Some (JSONColumn [jsonVal]))
          | Some (JSONColumn vs) => Return (Some (JSONColumn (vs ++ [jsonVal])))
          | Some _ => Fault
          end
      end
  | OtherValue v =>
      match values with
      | None => Return (Some (StringColumn [Sprintv v]))
      | Some (StringColumn vs) => Return (Some (StringColumn (vs ++ [Sprintv v])))
      | Some _ => Fault
      end
  end.

(** The value of a record the column loop reads at [idx], if any: none for
    a nil record, a record too short, and a nil value. *)
Definition cellAt (idx : nat) (record : option (list RecordValue))
  : option RecordValue :=
  match record with
  | None => None
  | Some r =>
      match nth_error r idx with
      | None => None
      | Some (OtherValue VNil) => None
      | Some val => Some val
      end
  end.

(** The loop over the records for the column at [idx]. *)
Fixpoint columnLoop (column : string) (idx : nat) (records : Records)
         (values : option ColumnValues) : outcome (option ColumnValues) :=
  match records with
  | [] => Return values
  | record :: rest =>
      match cellAt idx record with
      | None => columnLoop column idx rest values
      | Some val =>
          match appendValue column values val with
          | Return values' => columnLoop column idx rest values'
          | Fail msg => Fail msg
          | Fault => Fault
          end
      end
  end.

Definition columnValuesAt (column : string) (idx : nat) (records : Records)
  : outcome (option ColumnValues) :=
  if (0 <? List.length records)%nat then columnLoop column idx records None
  else Return (Some (StringColumn [])).

Definition setFieldValues (fieldValues : string -> option ColumnValues)
           (column : string) (values : option ColumnValues)
  : string -> option ColumnValues :=
  fun name => if String.eqb name column then values else fieldValues name.

(** The loop over [result.Columns], filling the map [fieldValues]. *)
Fixpoint columnsLoop (idx : nat) (columns : list string) (records : Records)
         (fieldValues : string -> option ColumnValues)
  : outcome (string -> option ColumnValues) :=
  match columns with
  | [] => Return fieldValues
  | column :: rest =>
      match columnValuesAt column idx records with
      | Return values =>
          columnsLoop (S idx) rest records
                      (setFieldValues fieldValues column values)
      | Fail msg => Fail msg
      | Fault => Fault
      end
  end.

(** Whether the column loop has left a vector for every column.  A column
    for which there are records, but none with a value that is not nil, is
    left with the nil interface. *)
Definition allColumnsFilled (columns : list string)
           (fieldValues : string -> option ColumnValues) : bool :=
  forallb (fun column => match fieldValues column with
                         | Some _ => true
                         | None => false
                         end) columns.

(** Lines 177-273: the cap on the records, the columns and the frame.
    [data.NewField] panics on the nil interface, so there is a frame only
    when every column has been left a vector. *)
Definition delegatedResponse (columns : list string) (records : Records)
  : outcome Frame :=
  match columnsLoop O columns (capRecords records) (fun _ => None) with
  | Return fieldValues =>
      if allColumnsFilled columns fieldValues
      then Return (delegatedFrame columns fieldValues)
      else Fault
  | Fail msg => Fail msg
  | Fault => Fault
  end.

(** The cells a column is built from. *)
Definition presentCells (idx : nat) (records : Records) : list RecordValue :=
  flat_map (fun record => match cellAt idx record with
                          | Some val => [val]
                          | None => []
                          end) records.

Lemma appendValue_length (column : string) (values values' : option ColumnValues)
      (val : RecordValue) :
  appendValue column values val = Return values' ->
  columnLength values' = S (columnLength values).
Proof.
  unfold appendValue.
  destruct val as [t|[]]; try destruct (Marshal _);
    destruct values as [[]|];
    try discriminate;
    intros [= <-]; simpl; rewrite ?length_app; simpl; lia.
Qed.

Lemma columnLoop_length (column : string) (idx : nat) (records : Records)
      (values values' : option ColumnValues) :
  columnLoop column idx records values = Return values' ->
  columnLength values'
  = (columnLength values + List.length (presentCells idx records))%nat.
Proof.
  revert values. induction records as [|record rest IH]; intros values H;
    simpl in *.
  - injection H as <-. lia.
  - destruct (cellAt idx record) as [val|]; simpl.
    + destruct (appendValue column values val) as [v| |] eqn:E;
        try discriminate.
      apply appendValue_length in E. rewrite (IH _ H), E. lia.
    + now apply IH.
Qed.

(** X16: a column of the delegated path has one cell for each record that
    has a value at the column's index and whose value there is not nil: nil
    records, records too short and nil values leave no cell, so the columns
    of one frame can differ in length; and no column has more than 10000
    cells. *)
Theorem delegated_column_cells (column : string) (idx : nat)
        (records : Records) (values : option ColumnValues) :
  columnValuesAt column idx (capRecords records) = Return values ->
  columnLength values = List.length (presentCells idx (capRecords records))
  /\ Z.of_nat (columnLength values) <= maxRecords.
Proof.
  intros H.
  assert (columnLength values
          = List.length (presentCells idx (capRecords records))) as E.
  { unfold columnValuesAt in H. destruct (0 <? _)%nat eqn:E0.
    - apply columnLoop_length in H. exact H.
    - injection H as <-.
      destruct (capRecords records); [reflexivity|discriminate]. }
  split; [exact E|]. rewrite E.
  assert (forall rs, (List.length (presentCells idx rs) <= List.length rs)%nat)
    as Hle.
  { induction rs as [|r rs IH]; simpl; [lia|].
    rewrite length_app. destruct (cellAt idx r); simpl; lia. }
  specialize (Hle (capRecords records)).
  assert (Z.of_nat (List.length (capRecords records)) <= maxRecords);
    [|lia].
  unfold capRecords, maxRecords.
  destruct (Z.ltb_spec 10000 (Z.of_nat (List.length records))).
  - rewrite length_firstn. lia.
  - assumption.
Qed.

Definition kindOfValue (val : RecordValue) : VectorKind :=
  match val with
  | TimeValue _ => TimeKind
  | OtherValue (VBool _) => BoolKind
  | OtherValue (VInt _) => Int32Kind
  | OtherValue (VInt32 _) => Int32Kind
  | OtherValue (VInt64 _) => Int64Kind
  | OtherValue (VFloat64 _) => Float64Kind
  | OtherValue (VMap _) => JSONKind
  | OtherValue (VSlice _) => JSONKind
  | OtherValue _ => StringKind
  end.

Lemma appendValue_kind (column : string) (values values' : option ColumnValues)
      (val : RecordValue) :
  appendValue column values val = Return values' ->
  exists c', values' = Some c'
             /\ kindOfColumn c' = kindOfValue val
             /\ (forall c, values = Some c -> kindOfColumn c = kindOfValue val).
Proof.
  unfold appendValue.
  destruct val as [t|[]]; try destruct (Marshal _);
    destruct values as [[]|];
    try discriminate;
    intros [= <-]; eexists; (split; [reflexivity|]); split;
      try reflexivity; intros c [= <-]; reflexivity.
Qed.

Lemma columnLoop_kind (column : string) (idx : nat) (records : Records)
      (c : ColumnValues) (values' : option ColumnValues) :
  columnLoop column idx records (Some c) = Return values' ->
  exists c', values' = Some c'
             /\ kindOfColumn c' = kindOfColumn c
             /\ Forall (fun val => kindOfValue val = kindOfColumn c)
                       (presentCells idx records).
Proof.
  revert c. induction records as [|record rest IH]; intros c H; simpl in *.
  - injection H as <-. exists c. repeat split. constructor.
  - destruct (cellAt idx record) as [val|]; simpl.
    + destruct (appendValue column (Some c) val) as [v| |] eqn:E;
        try discriminate.
      apply appendValue_kind in E. destruct E as [c1 [-> [K1 K]]].
      specialize (K c eq_refl).
      destruct (IH c1 H) as [c' [-> [K' F]]].
      exists c'. split; [reflexivity|]. split; [congruence|].
      constructor; [now symmetry|].
      eapply Forall_impl; [|exact F]. intros v Hv. congruence.
    + now apply IH.
Qed.

(** X18: a column the delegated path returns is of one kind: every value it
    was built from belongs to the vector type of the column (bool, int32
    for int and int32, int64, float64, time, JSON for mappings and
    sequences, string for everything else).  A column whose values are of
    two kinds is never returned: the type assertion panics. *)
Theorem delegated_column_one_kind (column : string) (idx : nat)
        (records : Records) (c : ColumnValues) :
  columnLoop column idx records None = Return (Some c) ->
  Forall (fun val => kindOfValue val = kindOfColumn c)
         (presentCells idx records).
Proof.
  induction records as [|record rest IH]; intros H; simpl in *.
  - discriminate.
  - destruct (cellAt idx record) as [val|]; simpl.
    + destruct (appendValue column None val) as [v| |] eqn:E;
        try discriminate.
      apply appendValue_kind in E. destruct E as [c1 [-> [K1 _]]].
      destruct (columnLoop_kind _ _ _ _ _ H) as [c' [[= <-] [K' F]]].
      constructor; [congruence|].
      eapply Forall_impl; [|exact F]. intros v Hv. congruence.
    + now apply IH.
Qed.

Lemma columnsLoop_no_records (idx : nat) (columns : list string)
      (fieldValues : string -> option ColumnValues) :
  exists fieldValues',
    columnsLoop idx columns [] fieldValues = Return fieldValues'
    /\ (forall column, In column columns ->
                       fieldValues' column = Some (StringColumn []))
    /\ (forall name, ~ In name columns -> fieldValues' name = fieldValues name).
Proof.
  revert idx fieldValues.
  induction columns as [|column rest IH]; intros idx fieldValues; simpl.
  - exists fieldValues. split; [reflexivity|]. split; [contradiction|]. auto.
  - destruct (IH (S idx) (setFieldValues fieldValues column
                                         (Some (StringColumn []))))
      as [fv [Hrun [Hin Hout]]].
    exists fv. split; [exact Hrun|]. split.
    + intros c [<-|Hc]; [|now apply Hin].
      destruct (in_dec string_dec column rest) as [Hr|Hr]; [now apply Hin|].
      rewrite (Hout _ Hr). unfold setFieldValues. now rewrite String.eqb_refl.
    + intros name Hn. rewrite Hout by tauto.
      unfold setFieldValues. destruct (String.eqb_spec name column); [|reflexivity].
      subst. destruct Hn. now left.
Qed.

(** X17: a result without records still gives a frame, with one column for
    each column of the result, each an empty column of strings under the
    name with its suffix. *)
Theorem delegatedResponse_no_records (columns : list string) :
  delegatedResponse columns []
  = Return (map (fun column =>
                   mkFrameField (column ++ "_USING_FIREQL")
                                (Some (StringColumn [])))
                columns).
Proof.
  unfold delegatedResponse.
  change (capRecords []) with (@nil (option (list RecordValue))).
  destruct (columnsLoop_no_records O columns (fun _ => None))
    as [fv [Hrun [Hin _]]].
  rewrite Hrun.
  assert (allColumnsFilled columns fv = true) as ->.
  { unfold allColumnsFilled. apply forallb_forall. intros column Hc.
    now rewrite (Hin column Hc). }
  f_equal. unfold delegatedFrame.
  rewrite delegatedFrame_from. simpl.
  apply map_ext_in. intros column Hc. unfold NewField, debugColumn.
  now rewrite (Hin column Hc).
Qed.

End DelegatedColumns.

(** * The frame of a plan without aggregation
      ([convertFirestoreDocsToResponseWithFields], lines 1043-1146) *)

Section FieldsResponse.

Context {conv : FloatConv}.

(** The type assertion [v.(time.Time)]: the time a value is, if it is one. *)
Variable asTime : Any -> option Time.

(** [time.Time{}] *)
Definition zeroTime : Time := mkTime 0 0.

Definition timeCells (values : list Any) : list Time :=
  map (fun v => match asTime v with
                | Some ts => ts
                | None => zeroTime
                end) values.

Definition stringCells (values : list Any) : list string :=
  map (fun v => if isNil v then "" else Sprintv v) values.

(** The column of a field: times for the plan's time field, strings for
    every other field. *)
Definition typedColumn (timeField fieldName : string) (values : list Any)
  : option ColumnValues :=
  Some (if String.eqb fieldName timeField
        then TimeColumn (timeCells values)
        else StringColumn (stringCells values)).

(** The frame for no documents (lines 1046-1065): the loop over the fields
    stops at the first wildcard. *)
Fixpoint emptyFieldsFrame (timeField : string) (fields : list string) : Frame :=
  match fields with
  | [] => []
  | field :: rest =>
      if String.eqb field "*"
      then [NewField "no_data" (Some (StringColumn []))]
      else NewField field (typedColumn timeField field [])
           :: emptyFieldsFrame timeField rest
  end.

(** The map [fieldData]; a name it has no entry for reads as the nil slice. *)
Definition FieldData : Type := string -> list Any.

Definition setFieldData (fieldData : FieldData) (fieldName : string)
           (values : list Any) : FieldData :=
  fun name => if String.eqb name fieldName then values else fieldData name.

Definition initFieldData (fields : list string) : FieldData :=
  fold_left (fun fieldData fieldName => setFieldData fieldData fieldName [])
            fields (fun _ => []).

(** The loop over the fields for one document: the document's value under
    the field name, as a key of the document, or nil. *)
Definition appendRow (fields : list string) (docData : Doc)
           (fieldData : FieldData) : FieldData :=
  fold_left (fun fieldData fieldName =>
               setFieldData fieldData fieldName
                            (fieldData fieldName ++ [index docData fieldName])%list)
            fields fieldData.

(** The loop over the documents; nil snapshots and nil data are skipped. *)
Definition collectRows (fields : list string) (docs : list Snapshot)
           (fieldData : FieldData) : FieldData :=
  fold_left (fun fieldData doc =>
               match doc with
               | Snap (Some docData) => appendRow fields docData fieldData
               | _ => fieldData
               end) docs fieldData.

(** Lines 1085-1142, for the fields in force. *)
Definition fieldsFrame (timeField : string) (fields : list string)
           (docs : list Snapshot) : Frame :=
  let fieldData := collectRows fields docs (initFieldData fields) in
  map (fun fieldName =>
         NewField fieldName (typedColumn timeField fieldName (fieldData fieldName)))
      fields.

Definition isWildcard (fields : list string) : bool :=
  match fields with
  | [f] => String.eqb f "*"
  | _ => false
  end.

(** The frames the function may return.  For [SELECT *] over some documents
    the fields are the keys met in the documents, each once, in the order a
    [range] over a map gives them, which Go leaves open; reading the keys of
    a nil snapshot panics. *)
Definition convertFirestoreDocsToResponseWithFields (docs : list Snapshot)
           (queryInfo : QueryInfo) (frame : Frame) : Prop :=
  if (List.length docs =? 0)%nat
  then frame = emptyFieldsFrame (TimeField queryInfo) (Fields queryInfo)
  else if isWildcard (Fields queryInfo)
       then Forall (fun doc => doc <> NilSnapshot) docs
            /\ exists fields,
                NoDup fields
                /\ (forall name,
                       In name fields
                       <-> exists docData, In (Snap (Some docData)) docs
                                           /\ lookup docData name <> None)
                /\ frame = fieldsFrame (TimeField queryInfo) fields docs
       else frame = fieldsFrame (TimeField queryInfo) (Fields queryInfo) docs.

(** The documents that have data. *)
Definition dataOf (docs : list Snapshot) : list Doc :=
  flat_map (fun doc => match doc with
                       | Snap (Some docData) => [docData]
                       | _ => []
                       end) docs.

Lemma initFieldData_empty (fields : list string) (name : string) :
  initFieldData fields name = [].
Proof.
  unfold initFieldData.
  apply (fold_left_invariant (fun fd : FieldData => fd name = [])).
  - reflexivity.
  - intros fd f H. unfold setFieldData. now destruct (String.eqb name f).
Qed.

Lemma appendRow_at (fields : list string) (docData : Doc)
      (fieldData : FieldData) (name : string) :
  appendRow fields docData fieldData name
  = (fieldData name
     ++ repeat (index docData name) (count_occ string_dec fields name))%list.
Proof.
  unfold appendRow. revert fieldData.
  induction fields as [|f fields IH]; intros fieldData; simpl.
  - now rewrite app_nil_r.
  - rewrite IH. unfold setFieldData at 1.
    destruct (string_dec f name) as [->|Hne].
    + rewrite String.eqb_refl, <- app_assoc. reflexivity.
    + assert (String.eqb name f = false) as ->
          by (apply String.eqb_neq; congruence).
      reflexivity.
Qed.

Lemma collectRows_at (fields : list string) (docs : list Snapshot)
      (fieldData : FieldData) (name : string) :
  collectRows fields docs fieldData name
  = (fieldData name
     ++ flat_map (fun docData =>
                    repeat (index docData name)
                           (count_occ string_dec fields name))
                 (dataOf docs))%list.
Proof.
  unfold collectRows. revert fieldData.
  induction docs as [|doc docs IH]; intros fieldData; simpl.
  - now rewrite app_nil_r.
  - rewrite IH. destruct doc as [|[docData|]]; simpl; try reflexivity.
    rewrite appendRow_at, <- app_assoc. reflexivity.
Qed.

Lemma flat_map_singletons (A B : Type) (f : A -> B) (l : list A) :
  flat_map (fun x => repeat (f x) 1) l = map f l.
Proof. induction l as [|x l IH]; simpl; [reflexivity | f_equal; exact IH]. Qed.

Lemma length_flat_map_repeat (A B : Type) (f : A -> B) (n : nat) (l : list A) :
  List.length (flat_map (fun x => repeat (f x) n) l) = (n * List.length l)%nat.
Proof.
  induction l as [|x l IH]; simpl; [lia|].
  rewrite length_app, repeat_length, IH. lia.
Qed.

Lemma typedColumn_length (timeField fieldName : string) (values : list Any) :
  columnLength (typedColumn timeField fieldName values) = List.length values.
Proof.
  unfold typedColumn, timeCells, stringCells.
  destruct (String.eqb fieldName timeField); simpl; apply length_map.
Qed.

Lemma fieldsFrame_by_multiplicity (timeField : string) (fields : list string)
      (docs : list Snapshot) :
  fieldsFrame timeField fields docs
  = map (fun name =>
           NewField name
             (typedColumn timeField name
                (flat_map (fun docData =>
                             repeat (index docData name)
                                    (count_occ string_dec fields name))
                          (dataOf docs))))
        fields.
Proof.
  unfold fieldsFrame. apply map_ext. intros name.
  now rewrite collectRows_at, initFieldData_empty.
Qed.

Lemma fieldsFrame_distinct (timeField : string) (fields : list string)
      (docs : list Snapshot) :
  NoDup fields ->
  fieldsFrame timeField fields docs
  = map (fun name =>
           NewField name
             (typedColumn timeField name
                (map (fun docData => index docData name) (dataOf docs))))
        fields.
Proof.
  intros Hnd. rewrite fieldsFrame_by_multiplicity.
  apply map_ext_in. intros name Hin.
  assert (count_occ string_dec fields name = 1%nat) as ->
      by (now apply NoDup_count_occ').
  now rewrite flat_map_singletons.
Qed.

(** X19: in the frame of a plan without aggregation the column of a field
    has, for each document with data, as many cells as the field is named
    in the field list: with pairwise distinct names every column has one
    cell for each document with data, and the cell is made from the value
    the document has under the field name as a key (a dotted name is not
    resolved as a path, and a missing key gives the cell of nil); a field
    named twice has two cells for each document. *)
Theorem fieldsFrame_cells (timeField : string) (fields : list string)
        (docs : list Snapshot) :
  fieldsFrame timeField fields docs
  = map (fun name =>
           NewField name
             (typedColumn timeField name
                (flat_map (fun docData =>
                             repeat (index docData name)
                                    (count_occ string_dec fields name))
                          (dataOf docs))))
        fields
  /\ Forall (fun f => columnLength (fieldValues f)
                      = (count_occ string_dec fields (fieldName f)
                         * List.length (dataOf docs))%nat)
            (fieldsFrame timeField fields docs)
  /\ (NoDup fields ->
      fieldsFrame timeField fields docs
      = map (fun name =>
               NewField name
                 (typedColumn timeField name
                    (map (fun docData => index docData name) (dataOf docs))))
            fields).
Proof.
  split; [apply fieldsFrame_by_multiplicity|]. split.
  - rewrite fieldsFrame_by_multiplicity. apply Forall_forall. intros f Hf.
    apply in_map_iff in Hf. destruct Hf as [name [<- _]].
    unfold NewField. cbn [fieldValues fieldName].
    rewrite typedColumn_length. apply length_flat_map_repeat.
  - apply fieldsFrame_distinct.
Qed.

Lemma emptyFieldsFrame_plain (timeField : string) (fields : list string) :
  ~ In "*" fields ->
  emptyFieldsFrame timeField fields
  = map (fun name => NewField name (typedColumn timeField name [])) fields.
Proof.
  induction fields as [|f fields IH]; intros H; simpl; [reflexivity|].
  destruct (String.eqb_spec f "*") as [->|Hne].
  - destruct H. now left.
  - rewrite IH; [reflexivity|]. intros Hin. apply H. now right.
Qed.

(** The vector types of the columns of a frame, in their order. *)
Definition columnKinds (frame : Frame) : list (option VectorKind) :=
  map (fun f => option_map kindOfColumn (fieldValues f)) frame.

(** The vector type the conversion gives the column of a field: times for
    the plan's time field, strings for every other field. *)
Definition kindOfField (timeField name : string) : option VectorKind :=
  Some (if String.eqb name timeField then TimeKind else StringKind).

(** X20: for a field list without the wildcard, the frame for no documents
    and the frame for some documents have the same columns: one for each
    field, under the same names in the same order, the column of the plan's
    time field a column of times and every other one a column of strings;
    in the frame for no documents every column is empty.  A wildcard in the
    list cuts the frame for no documents short: it has the columns of the
    fields before the wildcard and ends with an empty column of strings
    named [no_data]. *)
Theorem empty_and_filled_fields_frame (timeField : string)
        (fields : list string) (docs : list Snapshot) :
  (~ In "*" fields ->
   emptyFieldsFrame timeField fields
   = map (fun name =>
            NewField name (Some (if String.eqb name timeField
                                 then TimeColumn [] else StringColumn [])))
         fields
   /\ map fieldName (emptyFieldsFrame timeField fields) = fields
   /\ map fieldName (fieldsFrame timeField fields docs) = fields
   /\ columnKinds (emptyFieldsFrame timeField fields)
      = map (kindOfField timeField) fields
   /\ columnKinds (fieldsFrame timeField fields docs)
      = map (kindOfField timeField) fields)
  /\ (forall before after,
        fields = (before ++ "*" :: after)%list -> ~ In "*" before ->
        emptyFieldsFrame timeField fields
        = (map (fun name =>
                  NewField name (Some (if String.eqb name timeField
                                       then TimeColumn [] else StringColumn [])))
               before
           ++ [NewField "no_data" (Some (StringColumn []))])%list).
Proof.
  split.
  - intros Hplain.
    assert (emptyFieldsFrame timeField fields
            = map (fun name =>
                     NewField name (Some (if String.eqb name timeField
                                          then TimeColumn []
                                          else StringColumn [])))
                  fields) as E.
    { rewrite emptyFieldsFrame_plain by assumption.
      apply map_ext. intros name. unfold typedColumn.
      now destruct (String.eqb name timeField). }
    split; [exact E|].
    unfold columnKinds. rewrite E, fieldsFrame_by_multiplicity.
    rewrite !map_map. cbn [NewField fieldName fieldValues].
    split; [apply map_id|]. split; [apply map_id|]. split.
    + apply map_ext. intros name. unfold kindOfField.
      now destruct (String.eqb name timeField).
    + apply map_ext. intros name. unfold kindOfField, typedColumn.
      now destruct (String.eqb name timeField).
  - intros before after -> Hb.
    induction before as [|b before IH]; simpl.
    + reflexivity.
    + destruct (String.eqb_spec b "*") as [->|Hne].
      * destruct Hb. now left.
      * rewrite IH by (intros Hin; apply Hb; now right).
        unfold typedColumn. now destruct (String.eqb b timeField).
Qed.

(** X22: the frame of [SELECT *] over some documents has one column for
    each key met in a document, each key once, and every column has one
    cell for each document with data, so the columns are of one length also
    when the documents differ in their keys.  It is returned only when no
    snapshot is nil. *)
Theorem select_star_frame (docs : list Snapshot) (queryInfo : QueryInfo)
        (frame : Frame) :
  isWildcard (Fields queryInfo) = true ->
  docs <> [] ->
  convertFirestoreDocsToResponseWithFields docs queryInfo frame ->
  NoDup (map fieldName frame)
  /\ (forall name,
        In name (map fieldName frame)
        <-> exists docData, In (Snap (Some docData)) docs
                            /\ lookup docData name <> None)
  /\ Forall (fun f => columnLength (fieldValues f)
                      = List.length (dataOf docs)) frame
  /\ Forall (fun doc => doc <> NilSnapshot) docs.
Proof.
  intros Hstar Hdocs. unfold convertFirestoreDocsToResponseWithFields.
  rewrite Hstar. destruct docs as [|doc docs]; [contradiction|].
  simpl Nat.eqb. cbv iota.
  intros [Hnil [fields [Hnd [Hkeys ->]]]].
  rewrite fieldsFrame_distinct by assumption.
  rewrite map_map. cbn [NewField fieldName]. rewrite map_id.
  split; [exact Hnd|]. split; [exact Hkeys|]. split; [|exact Hnil].
  apply Forall_forall. intros f Hf.
  apply in_map_iff in Hf. destruct Hf as [name [<- _]].
  unfold NewField. cbn [fieldValues].
  rewrite typedColumn_length. apply length_map.
Qed.

End FieldsResponse.

(** * From the retrieved documents to the response
      ([executeWithNativeSDKForVariables], lines 688-705) *)

Section NativeResponse.

Context {conv : FloatConv}.
Variable asTime : Any -> option Time.

(** The frames the native path may return for the documents the store query
    gave: the filters of the plan are applied by hand, then the plan is
    aggregated if it groups or aggregates, and converted field by field
    otherwise. *)
Definition nativeResponse (retrieved : list Snapshot) (queryInfo : QueryInfo)
           (frame : Frame) : Prop :=
  let docs :=
    if (0 <? List.length (AdditionalFilters queryInfo))%nat
    then applyManualFiltering retrieved (AdditionalFilters queryInfo)
    else retrieved in
  if isAggregatingPlan queryInfo
  then processGroupByQueryWithOrdering docs queryInfo frame
  else convertFirestoreDocsToResponseWithFields asTime docs queryInfo frame.

(** X21: the response of the native path for a plan that neither groups nor
    aggregates and names pairwise distinct fields, none the wildcard: one
    column for each field, in the order of the plan, and one row for each
    retrieved document that has data and passes every filter of the plan,
    in the order the store gave them; the cell is made from the value the
    document has under the field name. *)
Theorem plain_plan_response (retrieved : list Snapshot)
        (queryInfo : QueryInfo) (frame : Frame) :
  isAggregatingPlan queryInfo = false ->
  NoDup (Fields queryInfo) ->
  ~ In "*" (Fields queryInfo) ->
  nativeResponse retrieved queryInfo frame ->
  let kept :=
    dataOf (applyManualFiltering retrieved (AdditionalFilters queryInfo)) in
  frame
  = map (fun name =>
           NewField name
             (typedColumn asTime (TimeField queryInfo) name
                (map (fun docData => index docData name) kept)))
        (Fields queryInfo).
Proof.
  intros Hplain Hnd Hstar. unfold nativeResponse. rewrite Hplain.
  assert ((if (0 <? List.length (AdditionalFilters queryInfo))%nat
           then applyManualFiltering retrieved (AdditionalFilters queryInfo)
           else retrieved)
          = applyManualFiltering retrieved (AdditionalFilters queryInfo)) as ->.
  { unfold applyManualFiltering.
    now destruct (AdditionalFilters queryInfo). }
  cbv zeta.
  set (docs := applyManualFiltering retrieved (AdditionalFilters queryInfo)).
  unfold convertFirestoreDocsToResponseWithFields.
  assert (isWildcard (Fields queryInfo) = false) as ->.
  { unfold isWildcard. destruct (Fields queryInfo) as [|f [|g fs]]; try reflexivity.
    apply String.eqb_neq. intros ->. apply Hstar. now left. }
  destruct docs as [|doc docs]; simpl Nat.eqb; cbv iota; intros ->.
  - now apply emptyFieldsFrame_plain.
  - now apply fieldsFrame_distinct.
Qed.

End NativeResponse.

(** * The code on examples *)

#[local] Existing Instance decimalConv.

Definition openOrder10 : Doc := [("status", VString "open"); ("amt", VInt64 10)].
Definition openOrder30 : Doc := [("status", VString "open"); ("amt", VInt64 30)].
Definition closedOrder5 : Doc := [("status", VString "closed"); ("amt", VInt64 5)].
Definition unpricedOrder : Doc := [("status", VString "open"); ("amt", VString "n/a")].

Definition statusIsOpen : FilterInfo := mkFilterInfo "status" "==" (VString "open").

Definition storedSnapshots : list Snapshot :=
  [ Snap (Some openOrder10); Snap (Some closedOrder5); NilSnapshot;
    Snap (Some [("amt", VInt64 7)]); Snap None; Snap (Some openOrder30) ].

Definition zipIs36201 : FilterInfo :=
  mkFilterInfo "customer.address.zip" "==" (VString "36201").

Definition isPaid : FilterInfo := mkFilterInfo "paid" "==" (VString "true").

Definition customerAt (zip paid : Any) : Doc :=
  [("customer", VMap [("name", VString "n"); ("address", VMap [("zip", zip)])]);
   ("paid", paid)].

(** Kept: the first, whose zip is the integer 36201 and whose [paid] is the
    boolean true, and the last, which holds the two as texts.  Left out: a
    zip that is nil, another zip, the text with a space after it, an order
    not paid, a customer that is no mapping, an address without a zip, an
    order without [paid], the nil snapshot and the snapshot without data. *)
Definition customerSnapshots : list Snapshot :=
  [ Snap (Some (customerAt (VInt64 36201) (VBool true)));
    Snap (Some (customerAt VNil (VBool true)));
    Snap (Some (customerAt (VInt64 36202) (VBool true)));
    Snap (Some (customerAt (VString "36201 ") (VBool true)));
    Snap (Some (customerAt (VInt64 36201) (VBool false)));
    Snap (Some [("customer", VString "walk-in"); ("paid", VBool true)]);
    Snap (Some [("customer", VMap [("address", VMap [])]); ("paid", VBool true)]);
    Snap (Some [("customer", VMap [("address", VMap [("zip", VInt64 36201)])])]);
    NilSnapshot;
    Snap None;
    Snap (Some (customerAt (VString "36201") (VString "true"))) ].

Lemma applyManualFiltering_customers :
  Forall isEquality [zipIs36201; isPaid]
  /\ applyManualFiltering customerSnapshots [zipIs36201; isPaid]
     = [ Snap (Some (customerAt (VInt64 36201) (VBool true)));
         Snap (Some (customerAt (VString "36201") (VString "true"))) ]
  /\ specResolve (Snap (Some (customerAt (VInt64 36201) (VBool true))))
                 "customer.address.zip"
     = Some (VInt64 36201).
Proof.
  assert (Forall isEquality [zipIs36201; isPaid]) as H by (repeat constructor).
  split; [exact H|].
  destruct (applyManualFiltering_subsequence
              customerSnapshots [zipIs36201; isPaid] H) as [E _].
  split; [|reflexivity].
  rewrite E. vm_compute. reflexivity.
Defined.

Lemma applyManualFiltering_open_orders_again :
  applyManualFiltering [Snap (Some openOrder10); Snap (Some openOrder30)]
                       [statusIsOpen]
  = [Snap (Some openOrder10); Snap (Some openOrder30)].
Proof.
  pose proof (applyManualFiltering_idempotent storedSnapshots [statusIsOpen]) as H.
  assert (applyManualFiltering storedSnapshots [statusIsOpen]
          = [Snap (Some openOrder10); Snap (Some openOrder30)]) as E
      by (vm_compute; reflexivity).
  rewrite E in H. exact H.
Defined.

Lemma open_orders_share_a_group :
  In openOrder10 [openOrder10; openOrder30; closedOrder5]
  /\ In openOrder30 [openOrder10; openOrder30; closedOrder5]
  /\ sameGroup (groupDocuments ["status"] [openOrder10; openOrder30; closedOrder5])
               openOrder10 openOrder30.
Proof.
  assert (In openOrder10 [openOrder10; openOrder30; closedOrder5]) as H1
      by (simpl; auto).
  assert (In openOrder30 [openOrder10; openOrder30; closedOrder5]) as H2
      by (simpl; auto).
  split; [exact H1|]. split; [exact H2|].
  destruct (grouping_by_composite_key ["status"] _ _ _ H1 H2) as [_ [Hsame _]].
  apply Hsame. intros f [<-|[]]. vm_compute. reflexivity.
Defined.

Definition pipeLeft : Doc := [("a", VString "x|y"); ("b", VString "z")].
Definition pipeRight : Doc := [("a", VString "x"); ("b", VString "y|z")].

(** C6 as stated fails: these two documents differ in the stringified value
    of the group field [a], and of [b], yet their composite keys are the same
    text and the grouping step puts them in one group. *)
Lemma pipe_in_values_conflates_groups :
  groupDocuments ["a"; "b"] [pipeLeft; pipeRight]
  = [("x|y|z", [pipeLeft; pipeRight])]
  /\ sameGroup (groupDocuments ["a"; "b"] [pipeLeft; pipeRight]) pipeLeft pipeRight
  /\ groupValueText pipeLeft "a" = "x|y"
  /\ groupValueText pipeRight "a" = "x"
  /\ String.eqb (groupValueText pipeLeft "a") (groupValueText pipeRight "a") = false.
Proof.
  assert (groupDocuments ["a"; "b"] [pipeLeft; pipeRight]
          = [("x|y|z", [pipeLeft; pipeRight])]) as E by (vm_compute; reflexivity).
  split; [exact E|]. split.
  - rewrite E. exists "x|y|z", [pipeLeft; pipeRight]. simpl. auto.
  - repeat split; vm_compute; reflexivity.
Qed.

Lemma avg_of_open_orders :
  avgValue "amt" [openOrder10; openOrder30] = float64_of_Z 20
  /\ avgValue "amt" [unpricedOrder; [("status", VString "open")]] = PrimFloat.zero.
Proof.
  split.
  - destruct (avg_of_group "amt" "avg_amt" [openOrder10; openOrder30])
      as (_ & _ & _ & H & _).
    rewrite H. vm_compute. reflexivity.
  - destruct (avg_of_group "amt" "avg_amt"
                           [unpricedOrder; [("status", VString "open")]])
      as (_ & _ & _ & _ & _ & H & _).
    apply H. vm_compute. reflexivity.
Defined.

(** C7 as stated fails: a group can have a NaN for its AVG.  Both values
    here coerce, their sum is +Inf + -Inf, a NaN, and so is its half; and
    a value that is a NaN is its own average. *)
Lemma avg_of_opposite_infinities :
  coercedValues "amt" [[("amt", VFloat64 PrimFloat.infinity)];
                       [("amt", VFloat64 PrimFloat.neg_infinity)]]
  = [PrimFloat.infinity; PrimFloat.neg_infinity]
  /\ PrimFloat.is_nan
       (avgValue "amt" [[("amt", VFloat64 PrimFloat.infinity)];
                        [("amt", VFloat64 PrimFloat.neg_infinity)]]) = true
  /\ aggregateValue (mkAggregateInfo "AVG" "amt" "avg_amt")
                    [[("amt", VFloat64 PrimFloat.infinity)];
                     [("amt", VFloat64 PrimFloat.neg_infinity)]]
     = VFloat64 (avgValue "amt" [[("amt", VFloat64 PrimFloat.infinity)];
                                 [("amt", VFloat64 PrimFloat.neg_infinity)]])
  /\ PrimFloat.is_nan (avgValue "amt" [[("amt", VFloat64 PrimFloat.nan)]])
     = true.
Proof. repeat split; vm_compute; reflexivity. Qed.

Definition sumByStatusPlan : QueryInfo :=
  mkQueryInfo "x" ["status"] "" [] "total" "DESC" 0 ["status"]
              [mkAggregateInfo "SUM" "amt" "total"].

(** The sums by status, largest first, whichever way the groups are visited. *)
Example sum_by_status_descending :
  parseSQLQueryWithVariables
    "SELECT status, SUM(amt) as total FROM x GROUP BY status ORDER BY total DESC"
  = Return sumByStatusPlan
  /\ aggregatedResults sumByStatusPlan
       [[openOrder10; openOrder30]; [closedOrder5]]
     = [ mkAggregatedResult [VString "open"] [VFloat64 (float64_of_Z 40)]
                            (float64_of_Z 40);
         mkAggregatedResult [VString "closed"] [VFloat64 (float64_of_Z 5)]
                            (float64_of_Z 5) ]
  /\ aggregatedResults sumByStatusPlan
       [[closedOrder5]; [openOrder10; openOrder30]]
     = aggregatedResults sumByStatusPlan
         [[openOrder10; openOrder30]; [closedOrder5]].
Proof. repeat split; vm_compute; reflexivity. Qed.

Definition topStatusPlan : QueryInfo :=
  mkQueryInfo "orders" ["status"] "" [] "total" "DESC" 1 ["status"]
              [mkAggregateInfo "COUNT" "*" "total"].

(** What the limit in the store query costs: over the three orders the
    largest group is [open] with two members, but counted over the single
    document a store query with limit 1 returns, it has one. *)
Example limit_before_grouping_changes_counts :
  parseSQLQueryWithVariables topStatusQuery = Return topStatusPlan
  /\ aggregatedResults topStatusPlan
       (map snd (groupDocuments ["status"]
                                [openOrder10; closedOrder5; openOrder30]))
     = [ mkAggregatedResult [VString "open"] [VFloat64 (float64_of_Z 2)]
                            (float64_of_Z 2) ]
  /\ aggregatedResults topStatusPlan
       (map snd (groupDocuments ["status"]
                                (firstn 1 [openOrder10; closedOrder5; openOrder30])))
     = [ mkAggregatedResult [VString "open"] [VFloat64 (float64_of_Z 1)]
                            (float64_of_Z 1) ].
Proof. repeat split; vm_compute; reflexivity. Qed.

(** ** The added properties on examples *)

Definition sumByStatusResults : list AggregatedResult :=
  [ mkAggregatedResult [VString "closed"] [VFloat64 (float64_of_Z 5)]
                       (float64_of_Z 5);
    mkAggregatedResult [VString "open"] [VFloat64 (float64_of_Z 40)]
                       (float64_of_Z 40) ].

Lemma applyOrderBy_sums_descending :
  OrderField sumByStatusPlan <> ""
  /\ ForallOrdPairs
       (fun earlier later =>
          if String.eqb (OrderDirection sumByStatusPlan) "DESC"
          then PrimFloat.ltb (SortValue earlier) (SortValue later) = false
          else PrimFloat.ltb (SortValue later) (SortValue earlier) = false)
       (applyOrderBy sumByStatusPlan sumByStatusResults)
  /\ map SortValue (applyOrderBy sumByStatusPlan sumByStatusResults)
     = [float64_of_Z 40; float64_of_Z 5].
Proof.
  assert (OrderField sumByStatusPlan <> "") as H by discriminate.
  split; [exact H|]. split.
  - exact (applyOrderBy_ordered sumByStatusPlan sumByStatusResults H).
  - vm_compute. reflexivity.
Defined.

Definition customerOrder : Doc :=
  [("customer", VMap [("address", VMap [("city", VString "Vigo")])]);
   ("amt", VInt64 12)].

Lemma getNestedFieldValue_city :
  Contains "city" "." = false
  /\ getNestedFieldValue customerOrder ("customer.address" ++ "." ++ "city")
     = VString "Vigo"
  /\ getNestedFieldValue customerOrder ("amt" ++ "." ++ "city") = VNil.
Proof.
  assert (Contains "city" "." = false) as H by (vm_compute; reflexivity).
  split; [exact H|]. split.
  - rewrite (getNestedFieldValue_step customerOrder "customer.address" "city" H).
    vm_compute. reflexivity.
  - rewrite (getNestedFieldValue_step customerOrder "amt" "city" H).
    vm_compute. reflexivity.
Defined.

Definition openOrdersQuery : string :=
  "SELECT status, amt FROM orders WHERE status = 'open'".

Definition openOrdersPlan : QueryInfo :=
  mkQueryInfo "orders" ["status"; "amt"] "" [statusIsOpen] "" "" 0 [] [].

Lemma open_orders_filters_are_equalities :
  parseSQLQueryWithVariables openOrdersQuery = Return openOrdersPlan
  /\ Forall (fun f => filterOperator f = "=="
                      /\ exists s, filterValue f = VString s)
            (AdditionalFilters openOrdersPlan)
  /\ applyManualFiltering storedSnapshots (AdditionalFilters openOrdersPlan)
     = filter (fun doc => forallb (satisfiesb doc)
                                  (AdditionalFilters openOrdersPlan))
              storedSnapshots.
Proof.
  assert (parseSQLQueryWithVariables openOrdersQuery = Return openOrdersPlan)
    as H by (vm_compute; reflexivity).
  split; [exact H|].
  destruct (parsed_filters_are_text_equalities _ _ H) as [Hshape Hfilter].
  split; [exact Hshape | exact (Hfilter storedSnapshots)].
Defined.

Definition countByStatusPlan : QueryInfo :=
  mkQueryInfo "orders" ["status"] "" [] "total" "DESC" 0 ["status"]
              [mkAggregateInfo "COUNT" "*" "total"].

Lemma countByStatus_order_shape :
  parseSQLQueryWithVariables countByStatusQuery = Return countByStatusPlan
  /\ ((OrderField countByStatusPlan = "" /\ OrderDirection countByStatusPlan = "")
      \/ (OrderField countByStatusPlan <> ""
          /\ (OrderDirection countByStatusPlan = "ASC"
              \/ OrderDirection countByStatusPlan = "DESC"))).
Proof.
  assert (parseSQLQueryWithVariables countByStatusQuery = Return countByStatusPlan)
    as H by (vm_compute; reflexivity).
  split; [exact H | exact (parsed_order_shape _ _ H)].
Defined.

Lemma countByStatus_routed_native :
  parseSQLQueryWithVariables countByStatusQuery = Return countByStatusPlan
  /\ GroupByFields countByStatusPlan <> []
  /\ queryInternal countByStatusQuery (mkTimeRange (mkTime 0 0) (mkTime 0 0))
     = NativeSDK countByStatusQuery (mkTimeRange (mkTime 0 0) (mkTime 0 0)).
Proof.
  assert (parseSQLQueryWithVariables countByStatusQuery = Return countByStatusPlan)
    as H by (vm_compute; reflexivity).
  assert (GroupByFields countByStatusPlan <> []) as Hg by discriminate.
  split; [exact H|]. split; [exact Hg|].
  exact (grouped_plan_is_routed_native _ _ _ H Hg).
Defined.

Definition threeOrders : list Snapshot :=
  [Snap (Some openOrder10); Snap (Some closedOrder5); Snap (Some openOrder30)].

Definition sumByStatusFrame : Frame :=
  aggregatedFrame sumByStatusPlan
    (aggregatedResults sumByStatusPlan
       [[openOrder10; openOrder30]; [closedOrder5]]).

Lemma sum_by_status_frame_shape :
  processGroupByQueryWithOrdering threeOrders sumByStatusPlan sumByStatusFrame
  /\ List.length sumByStatusFrame = 2%nat
  /\ map fieldName (firstn 1 sumByStatusFrame) = ["status"]
  /\ Forall (fun f => columnLength (fieldValues f) = 2%nat) sumByStatusFrame.
Proof.
  assert (processGroupByQueryWithOrdering threeOrders sumByStatusPlan
                                          sumByStatusFrame) as H.
  { unfold processGroupByQueryWithOrdering, threeOrders. simpl Nat.eqb. cbv iota.
    eexists. split; [|reflexivity].
    exists [openOrder10; closedOrder5; openOrder30],
           [("open", [openOrder10; openOrder30]); ("closed", [closedOrder5])].
    split; [vm_compute; reflexivity|].
    split; [|reflexivity].
    assert (groupDocuments (GroupByFields sumByStatusPlan)
                           [openOrder10; closedOrder5; openOrder30]
            = [("open", [openOrder10; openOrder30]); ("closed", [closedOrder5])])
      as -> by (vm_compute; reflexivity).
    apply Permutation_refl. }
  split; [exact H|].
  destruct (processGroupBy_frame_shape _ _ _ H) as [Hlen [Hnames _]].
  split; [exact Hlen|]. split; [exact Hnames|].
  unfold sumByStatusFrame. repeat constructor.
Defined.

(** A [json.Marshal] for the examples, which hold no mapping and no slice. *)
Definition noMarshal (v : Any) : string + string := inr "unsupported".

Definition sparseRecords : Records :=
  [ Some [OtherValue (VInt64 1)]; None; Some [OtherValue VNil]; Some [];
    Some [OtherValue (VInt64 2)] ].

Lemma sparse_column_cells :
  columnValuesAt noMarshal "n" 0 (capRecords sparseRecords)
  = Return (Some (Int64Column [1; 2]))
  /\ columnLength (Some (Int64Column [1; 2]))
     = List.length (presentCells 0 (capRecords sparseRecords))
  /\ Z.of_nat (columnLength (Some (Int64Column [1; 2]))) <= maxRecords.
Proof.
  assert (columnValuesAt noMarshal "n" 0 (capRecords sparseRecords)
          = Return (Some (Int64Column [1; 2]))) as H by (vm_compute; reflexivity).
  split; [exact H|].
  exact (delegated_column_cells noMarshal "n" 0 sparseRecords _ H).
Defined.

Lemma sparse_column_one_kind :
  columnLoop noMarshal "n" 0 sparseRecords None
  = Return (Some (Int64Column [1; 2]))
  /\ Forall (fun val => kindOfValue val = kindOfColumn (Int64Column [1; 2]))
            (presentCells 0 sparseRecords)
  /\ columnLoop noMarshal "n" 0
                (sparseRecords ++ [Some [OtherValue (VString "3")]])%list None
     = Fault.
Proof.
  assert (columnLoop noMarshal "n" 0 sparseRecords None
          = Return (Some (Int64Column [1; 2]))) as H by (vm_compute; reflexivity).
  split; [exact H|]. split.
  - exact (delegated_column_one_kind noMarshal "n" 0 sparseRecords _ H).
  - vm_compute. reflexivity.
Defined.

(** No value of the examples is a time. *)
Definition noTime (v : Any) : option Time := None.

Definition openOrdersFrame : Frame :=
  [ NewField "status" (Some (StringColumn ["open"; "open"]));
    NewField "amt" (Some (StringColumn ["10"; "30"])) ].

Lemma open_orders_response :
  isAggregatingPlan openOrdersPlan = false
  /\ NoDup (Fields openOrdersPlan)
  /\ ~ In "*" (Fields openOrdersPlan)
  /\ nativeResponse noTime storedSnapshots openOrdersPlan openOrdersFrame
  /\ openOrdersFrame
     = map (fun name =>
              NewField name
                (typedColumn noTime (TimeField openOrdersPlan) name
                   (map (fun docData => index docData name)
                        (dataOf (applyManualFiltering
                                   storedSnapshots
                                   (AdditionalFilters openOrdersPlan))))))
           (Fields openOrdersPlan).
Proof.
  assert (isAggregatingPlan openOrdersPlan = false) as H1 by reflexivity.
  assert (NoDup (Fields openOrdersPlan)) as H2.
  { repeat constructor; simpl; intuition discriminate. }
  assert (~ In "*" (Fields openOrdersPlan)) as H3.
  { simpl. intuition discriminate. }
  assert (nativeResponse noTime storedSnapshots openOrdersPlan openOrdersFrame)
    as H4 by (vm_compute; reflexivity).
  split; [exact H1|]. split; [exact H2|]. split; [exact H3|].
  split; [exact H4|].
  exact (plain_plan_response noTime _ _ _ H1 H2 H3 H4).
Defined.

Definition selectStarPlan : QueryInfo :=
  mkQueryInfo "orders" ["*"] "" [] "" "" 0 [] [].

Definition mixedOrders : list Snapshot :=
  [Snap (Some openOrder10); Snap None; Snap (Some [("note", VString "late")])].

Definition mixedOrdersFrame : Frame :=
  [ NewField "status" (Some (StringColumn ["open"; ""]));
    NewField "amt" (Some (StringColumn ["10"; ""]));
    NewField "note" (Some (StringColumn [""; "late"])) ].

Lemma select_star_mixed_orders :
  isWildcard (Fields selectStarPlan) = true
  /\ mixedOrders <> []
  /\ convertFirestoreDocsToResponseWithFields noTime mixedOrders selectStarPlan
                                              mixedOrdersFrame
  /\ NoDup (map fieldName mixedOrdersFrame)
  /\ Forall (fun f => columnLength (fieldValues f)
                      = List.length (dataOf mixedOrders)) mixedOrdersFrame.
Proof.
  assert (isWildcard (Fields selectStarPlan) = true) as H1 by reflexivity.
  assert (mixedOrders <> []) as H2 by discriminate.
  assert (convertFirestoreDocsToResponseWithFields
            noTime mixedOrders selectStarPlan mixedOrdersFrame) as H3.
  { unfold convertFirestoreDocsToResponseWithFields.
    rewrite H1. unfold mixedOrders at 1. simpl Nat.eqb. cbv iota. split.
    - repeat constructor; discriminate.
    - exists ["status"; "amt"; "note"]. split; [|split].
      + repeat constructor; simpl; intuition discriminate.
      + intros name. split.
        * intros [<-|[<-|[<-|[]]]].
          -- exists openOrder10. split; [simpl; auto | discriminate].
          -- exists openOrder10. split; [simpl; auto | discriminate].
          -- exists [("note", VString "late")].
             split; [simpl; auto | discriminate].
        * intros [docData [[E|[E|[E|[]]]] Hkey]]; try discriminate;
            injection E as <-; unfold openOrder10 in Hkey;
            cbn [lookup] in Hkey; simpl.
          -- destruct (String.eqb_spec "status" name); [auto|].
             destruct (String.eqb_spec "amt" name); [auto|]. now destruct Hkey.
          -- destruct (String.eqb_spec "note" name); [auto|]. now destruct Hkey.
      + vm_compute. reflexivity. }
  split; [exact H1|]. split; [exact H2|]. split; [exact H3|].
  destruct (select_star_frame noTime _ _ _ H1 H2 H3) as [Hnd [_ [Hlen _]]].
  split; [exact Hnd | exact Hlen].
Defined.
